(** * Statistics jobs of core/domain/stats_jobs_continuous.py

    A shallow embedding of the continuous statistics jobs: the realtime
    counters of [StatisticsAggregator], the map and reduce functions of
    [StatisticsMRJobManager], and the reduce function of
    [InteractionAnswerSummariesMRJobManager].

    Conventions of the embedding:
    - Python integers are [Z]; Python [str]/[unicode] values are [string];
      a value that may be [None] is an [option]. Where the module encodes
      a text itself, in the map function of the answers job, a [unicode]
      text is the list of its code points and a [str] the string of its
      bytes.
    - A [dict] is a [gmap], a [set] is a [gset]; a [collections.defaultdict]
      is a [gmap] whose reads go through the default value.
    - A function that may raise returns a [result]; only the exception
      classes that the module mentions or that its own operations raise are
      distinguished.
    - Values handed from map to reduce are stringified by the map/reduce
      framework and read back with [ast.literal_eval]; the embedding works
      on the values themselves.
    - Datetimes and millisecond timestamps are only compared, and are
      integers here.
    - Record fields carry a short prefix of their record ([ev_] for the
      event value, [cv_] for the counter value, and so on), since Rocq
      keeps the fields of all records in one name space. *)

From Stdlib Require Import ZArith String Ascii List Lia.
From stdpp Require Import base option list gmap fin_sets strings pretty.

Local Open Scope string_scope.
Local Open Scope Z_scope.

(** ** Module-level constants *)

(** Counts contributions from all versions. *)
Definition VERSION_ALL : string := "all".
(** Indicates that no version has been specified. *)
Definition VERSION_NONE : string := "none".
(** The date we stopped using StateCounterModel: datetime(2014, 10, 11),
    as seconds since the epoch. Datetimes are only compared. *)
Definition _STATE_COUNTER_CUTOFF_DATE : Z := 1412985600.
(** States with this name used to be treated as a pseudoend state. *)
Definition OLD_END_DEST : string := "END".

(** Modelled from the spec: the [feconf.EVENT_TYPE_*] constants are not part
    of this module; the spec names the event kinds [start], [maybe_leave],
    [complete] and [state_hit]. *)
Definition EVENT_TYPE_START_EXPLORATION : string := "start".
Definition EVENT_TYPE_MAYBE_LEAVE_EXPLORATION : string := "maybe_leave".
Definition EVENT_TYPE_COMPLETE_EXPLORATION : string := "complete".
Definition EVENT_TYPE_STATE_HIT : string := "state_hit".

Definition _TYPE_STATE_COUNTER_STRING : string := "counter".
Definition _TYPE_EVENT_STRING : string := "event".

(** ** Exceptions and results *)

Inductive exn : Type :=
| EntityNotFoundError
| ValueError
| IndexError
| KeyError
| CalculationError
| UnicodeDecodeError
| Exception.

Inductive result (A : Type) : Type :=
| Ok (a : A)
| Raise (e : exn).
Arguments Ok {A} a.
Arguments Raise {A} e.

Global Instance result_ret : MRet result := λ A a, Ok a.
Global Instance result_bind : MBind result := λ A B k r,
  match r with
  | Ok a => k a
  | Raise e => Raise e
  end.

(** [[f(x) for x in l]] where [f] may raise: the first exception aborts. *)
Fixpoint for_each {A B} (f : A → result B) (l : list A) : result (list B) :=
  match l with
  | [] => Ok []
  | x :: l' => y ← f x; ys ← for_each f l'; Ok (y :: ys)
  end.

(** ** Python string operations used by the module *)

(** [s.find(c)] for a one-character needle: index of the first occurrence,
    or -1. *)
Fixpoint find_from (c : ascii) (s : string) (i : Z) : Z :=
  match s with
  | EmptyString => -1
  | String a s' => if Ascii.eqb a c then i else find_from c s' (i + 1)
  end.
Definition find (c : ascii) (s : string) : Z := find_from c s 0.

Fixpoint take_str (n : nat) (s : string) : string :=
  match n, s with
  | S n', String a s' => String a (take_str n' s')
  | _, _ => EmptyString
  end.

Fixpoint drop_str (n : nat) (s : string) : string :=
  match n, s with
  | S n', String _ s' => drop_str n' s'
  | _, _ => s
  end.

(** A slice bound [k] as Python resolves it against a string of length
    [len]: negative bounds count from the end, and all bounds are clipped. *)
Definition slice_bound (len : nat) (k : Z) : nat :=
  if k <? 0 then Z.to_nat (Z.max 0 (Z.of_nat len + k))
  else Z.to_nat (Z.min k (Z.of_nat len)).

(** [s[:k]] *)
Definition slice_to (s : string) (k : Z) : string :=
  take_str (slice_bound (String.length s) k) s.
(** [s[k:]] *)
Definition slice_from (s : string) (k : Z) : string :=
  drop_str (slice_bound (String.length s) k) s.

(** [s.split(sep)] for a one-character separator. *)
Fixpoint split (sep : ascii) (s : string) : list string :=
  match s with
  | EmptyString => [EmptyString]
  | String a s' =>
      if Ascii.eqb a sep then EmptyString :: split sep s'
      else match split sep s' with
           | [] => [String a EmptyString]
           | w :: ws => String a w :: ws
           end
  end.

(** ['%s:%s' % (a, b)] *)
Definition format_key (a b : string) : string := (a ++ ":" ++ b)%string.

(** [str(n)] for an integer. *)
Definition str (n : Z) : string := pretty n.

(** ** Unicode texts and their UTF-8 encoding *)

(** A [unicode] text: the list of its code points. A [str] is a byte
    string, a [string] here. *)
Definition unicode : Type := list N.

(** The UTF-8 bytes of one code point, as [unicode.encode('utf-8')] writes
    them: one byte below 0x80, two below 0x800, three below 0x10000
    (Python 2 encodes the surrogates like any other code point of that
    range) and four above. Code points end at 0x10FFFF; of a larger number
    the lead byte keeps its three low bits. *)
Definition encode_code_point (c : N) : string :=
  (if c <? 0x80 then String (ascii_of_N c) ""
   else if c <? 0x800 then
     String (ascii_of_N (0xC0 + c / 0x40))
       (String (ascii_of_N (0x80 + c mod 0x40)) "")
   else if c <? 0x10000 then
     String (ascii_of_N (0xE0 + c / 0x1000))
       (String (ascii_of_N (0x80 + (c / 0x40) mod 0x40))
          (String (ascii_of_N (0x80 + c mod 0x40)) ""))
   else
     String (ascii_of_N (0xF0 + (c / 0x40000) mod 8))
       (String (ascii_of_N (0x80 + (c / 0x1000) mod 0x40))
          (String (ascii_of_N (0x80 + (c / 0x40) mod 0x40))
             (String (ascii_of_N (0x80 + c mod 0x40)) ""))))%N.

(** [u.encode('utf-8')] of a unicode text. *)
Fixpoint encode_utf8 (u : unicode) : string :=
  match u with
  | [] => ""
  | c :: u' => (encode_code_point c ++ encode_utf8 u')%string
  end.

(** Whether all bytes of a byte string are below 0x80. *)
Fixpoint is_ascii (s : string) : bool :=
  match s with
  | EmptyString => true
  | String a s' => (N_of_ascii a <? 0x80)%N && is_ascii s'
  end.

(** The unicode text of a byte string that holds ASCII only: each byte is
    its own code point. *)
Fixpoint ascii_text (s : string) : unicode :=
  match s with
  | EmptyString => []
  | String a s' => N_of_ascii a :: ascii_text s'
  end.

(** [s.decode('ascii')], which Python 2 applies to a byte string before it
    encodes it: a byte of 0x80 or above raises [UnicodeDecodeError]. *)
Definition decode_ascii (s : string) : result unicode :=
  if is_ascii s then Ok (ascii_text s) else Raise UnicodeDecodeError.

(** ** Datastore models *)

(** [StatisticsRealtimeModel]: [num_starts] and [num_completions] default
    to 0; [realtime_layer] comes from the base realtime class. *)
Record StatisticsRealtimeModel : Type := {
  rt_num_starts : Z;
  rt_num_completions : Z;
  rt_realtime_layer : Z
}.

(** One bucket of [state_hit_counts]: a dict from the field names
    ['total_entry_count'], ['first_entry_count'], ['no_answer_count'] to
    integers. *)
Abbreviation bucket := (gmap string Z).
(** [state_hit_counts]: a dict from state name (possibly [None]) to bucket. *)
Abbreviation hit_counts := (gmap (option string) (gmap string Z)).

(** [stats_models.ExplorationAnnotationsModel], as written by [create]. *)
Record ExplorationAnnotationsModel : Type := {
  an_exploration_id : string;
  an_version : string;
  an_num_starts : Z;
  an_num_completions : Z;
  an_state_hit_counts : hit_counts;
  an_last_updated : Z
}.

(** Modelled from the spec: the durable store is outside this module; the
    spec describes it as an abstract keyed store with [get(key, strict)],
    [get_multi(keys)], [put(record)] and [create(...)], where a non-strict
    [get] of a missing key returns an absent marker. The store holds the
    canonical snapshots, the realtime counters and the index of the active
    realtime layer. *)
Record Datastore : Type := {
  annotations : gmap string ExplorationAnnotationsModel;
  realtime : gmap string StatisticsRealtimeModel;
  active_realtime_index : Z
}.

Definition set_annotations (st : Datastore)
    (a : gmap string ExplorationAnnotationsModel) : Datastore :=
  {| annotations := a; realtime := realtime st;
     active_realtime_index := active_realtime_index st |}.

Definition set_realtime (st : Datastore)
    (r : gmap string StatisticsRealtimeModel) : Datastore :=
  {| annotations := annotations st; realtime := r;
     active_realtime_index := active_realtime_index st |}.

(** Modelled from the spec: [get(id, strict=False)] and [get_multi(ids)] of
    a model class; a batched read returns, position by position, what the
    single reads return. *)
Definition get {M} (table : gmap string M) (id : string) : option M :=
  table !! id.
Definition get_multi {M} (table : gmap string M) (ids : list string)
    : list (option M) :=
  get table <$> ids.

(** The dict returned by [get_statistics]. *)
Record statistics : Type := {
  start_exploration_count : Z;
  complete_exploration_count : Z;
  stat_state_hit_counts : hit_counts;
  stat_last_updated : option Z
}.

(** [l[i]] on a Python list. *)
Definition index {A} (l : list A) (i : nat) : result A :=
  match l !! i with
  | Some x => Ok x
  | None => Raise IndexError
  end.

(** ** StatisticsAggregator *)

Module StatisticsAggregator.
Section WithCollaborators.

(** Helpers of other modules, taken as they are: the entity id of a
    snapshot, the id of a realtime counter in a layer, and the conversion
    of a datetime to milliseconds. *)
Variable get_entity_id : string → string → string.
Variable get_realtime_id : Z → string → string.
Variable get_time_in_millisecs : Z → Z.

Definition get_event_types_listened_to : list string :=
  [EVENT_TYPE_START_EXPLORATION; EVENT_TYPE_COMPLETE_EXPLORATION].

Definition _increment_visit_counter (active_realtime_layer : Z)
    (exp_id : string) (st : Datastore) : Datastore :=
  let realtime_model_id := get_realtime_id active_realtime_layer exp_id in
  match get (realtime st) realtime_model_id with
  | None =>
      set_realtime st
        (<[realtime_model_id :=
             {| rt_num_starts := 1; rt_num_completions := 0;
                rt_realtime_layer := active_realtime_layer |}]>
           (realtime st))
  | Some model =>
      set_realtime st
        (<[realtime_model_id :=
             {| rt_num_starts := rt_num_starts model + 1;
                rt_num_completions := rt_num_completions model;
                rt_realtime_layer := rt_realtime_layer model |}]>
           (realtime st))
  end.

Definition _increment_completion_counter (active_realtime_layer : Z)
    (exp_id : string) (st : Datastore) : Datastore :=
  let realtime_model_id := get_realtime_id active_realtime_layer exp_id in
  match get (realtime st) realtime_model_id with
  | None =>
      set_realtime st
        (<[realtime_model_id :=
             {| rt_num_starts := 0; rt_num_completions := 1;
                rt_realtime_layer := active_realtime_layer |}]>
           (realtime st))
  | Some model =>
      set_realtime st
        (<[realtime_model_id :=
             {| rt_num_starts := rt_num_starts model;
                rt_num_completions := rt_num_completions model + 1;
                rt_realtime_layer := rt_realtime_layer model |}]>
           (realtime st))
  end.

(** [run_in_transaction(f)] runs [f] atomically against the store; in a
    sequential model it is the call of [f]. *)
Definition run_in_transaction (f : Datastore → Datastore) (st : Datastore)
    : Datastore := f st.

Definition _handle_incoming_event (active_realtime_layer : Z)
    (event_type : string) (exp_id : string) (st : Datastore) : Datastore :=
  if decide (event_type = EVENT_TYPE_START_EXPLORATION) then
    run_in_transaction
      (_increment_visit_counter active_realtime_layer exp_id) st
  else
    run_in_transaction
      (_increment_completion_counter active_realtime_layer exp_id) st.

(** Modelled from the spec: the base computation manager is outside this
    module; the spec keys a live counter by the exploration id and the
    active generation, and describes the multi variant as the batched
    form of the single one. *)
Definition get_active_realtime_layer_id (st : Datastore)
    (exploration_id : string) : string :=
  get_realtime_id (active_realtime_index st) exploration_id.
Definition get_multi_active_realtime_layer_ids (st : Datastore)
    (exploration_ids : list string) : list string :=
  get_active_realtime_layer_id st <$> exploration_ids.

Definition get_statistics (st : Datastore) (exploration_id : string)
    (exploration_version : string) : statistics :=
  let num_starts := 0 in
  let num_completions := 0 in
  let state_hit_counts : hit_counts := ∅ in
  let last_updated : option Z := None in
  let entity_id := get_entity_id exploration_id exploration_version in
  let mr_model := get (annotations st) entity_id in
  let '(num_starts, num_completions, state_hit_counts, last_updated) :=
    match mr_model with
    | Some mr_model =>
        (num_starts + an_num_starts mr_model,
         num_completions + an_num_completions mr_model,
         an_state_hit_counts mr_model,
         Some (get_time_in_millisecs (an_last_updated mr_model)))
    | None => (num_starts, num_completions, state_hit_counts, last_updated)
    end in
  let realtime_model :=
    get (realtime st) (get_active_realtime_layer_id st exploration_id) in
  let '(num_starts, num_completions) :=
    match realtime_model with
    | Some realtime_model =>
        (num_starts + rt_num_starts realtime_model,
         num_completions + rt_num_completions realtime_model)
    | None => (num_starts, num_completions)
    end in
  {| start_exploration_count := num_starts;
     complete_exploration_count := num_completions;
     stat_state_hit_counts := state_hit_counts;
     stat_last_updated := last_updated |}.

Definition get_views_multi (st : Datastore) (exploration_ids : list string)
    : result (list Z) :=
  let entity_ids :=
    (λ exploration_id, get_entity_id exploration_id VERSION_ALL)
      <$> exploration_ids in
  let mr_models := get_multi (annotations st) entity_ids in
  let realtime_model_ids :=
    get_multi_active_realtime_layer_ids st exploration_ids in
  let realtime_models := get_multi (realtime st) realtime_model_ids in
  for_each
    (λ i,
       mr_model ← index mr_models i;
       realtime_model ← index realtime_models i;
       Ok ((match mr_model with
            | Some m => an_num_starts m
            | None => 0
            end)
           + (match realtime_model with
              | Some m => rt_num_starts m
              | None => 0
              end)))
    (seq 0 (length exploration_ids)).

End WithCollaborators.
End StatisticsAggregator.

(** ** StatisticsMRJobManager *)

(** The entities the job maps over. The four event log entry classes share
    their fields and carry their kind in [event_type]. *)
Inductive item : Type :=
| StateCounterModel (id : string)
    (first_entry_count subsequent_entries_count
     resolved_answer_count active_answer_count : Z)
    (created_on : Z)
| EventLogEntryModel (event_type : string) (session_id : string)
    (state_name : option string) (created_on : Z)
    (exploration_id : string) (exploration_version : option Z).

(** The value dict of [type] ['counter']. *)
Record counter_value : Type := {
  cv_exploration_id : string;
  cv_version : string;
  cv_state_name : string;
  cv_first_entry_count : Z;
  cv_subsequent_entries_count : Z;
  cv_resolved_answer_count : Z;
  cv_active_answer_count : Z
}.

(** The value dict of [type] ['event']. *)
Record event_value : Type := {
  ev_event_type : string;
  ev_session_id : string;
  ev_state_name : option string;
  ev_created_on : Z;
  ev_exploration_id : string;
  ev_version : string
}.

Inductive value : Type :=
| VCounter (c : counter_value)
| VEvent (e : event_value).

(** The ['type'] entry of a value dict. *)
Definition value_type (v : value) : string :=
  match v with
  | VCounter _ => _TYPE_STATE_COUNTER_STRING
  | VEvent _ => _TYPE_EVENT_STRING
  end.

(** What [reduce] reads of a resolved exploration: [states] lists the keys
    of the exploration's state dict. *)
Record Exploration : Type := {
  exp_version : Z;
  exp_last_updated : Z;
  exp_states : list string;
  exp_init_state_name : string
}.

(** The local variables of [reduce] that its loops update. *)
Record reduce_locals : Type := {
  new_models_start_count : Z;
  new_models_complete_count : Z;
  new_models_end_sessions : gset string;
  session_id_to_latest_leave_evt : gmap string (Z * option string);
  old_models_start_count : Z;
  old_models_complete_count : Z;
  state_hit_counts : hit_counts;
  state_session_ids : gmap (option string) (gset string)
}.

Definition set_new_models_start_count (x : Z) (a : reduce_locals) :=
  {| new_models_start_count := x;
     new_models_complete_count := new_models_complete_count a;
     new_models_end_sessions := new_models_end_sessions a;
     session_id_to_latest_leave_evt := session_id_to_latest_leave_evt a;
     old_models_start_count := old_models_start_count a;
     old_models_complete_count := old_models_complete_count a;
     state_hit_counts := state_hit_counts a;
     state_session_ids := state_session_ids a |}.

Definition set_new_models_complete_count (x : Z) (a : reduce_locals) :=
  {| new_models_start_count := new_models_start_count a;
     new_models_complete_count := x;
     new_models_end_sessions := new_models_end_sessions a;
     session_id_to_latest_leave_evt := session_id_to_latest_leave_evt a;
     old_models_start_count := old_models_start_count a;
     old_models_complete_count := old_models_complete_count a;
     state_hit_counts := state_hit_counts a;
     state_session_ids := state_session_ids a |}.

Definition set_new_models_end_sessions (x : gset string) (a : reduce_locals) :=
  {| new_models_start_count := new_models_start_count a;
     new_models_complete_count := new_models_complete_count a;
     new_models_end_sessions := x;
     session_id_to_latest_leave_evt := session_id_to_latest_leave_evt a;
     old_models_start_count := old_models_start_count a;
     old_models_complete_count := old_models_complete_count a;
     state_hit_counts := state_hit_counts a;
     state_session_ids := state_session_ids a |}.

Definition set_session_id_to_latest_leave_evt
    (x : gmap string (Z * option string)) (a : reduce_locals) :=
  {| new_models_start_count := new_models_start_count a;
     new_models_complete_count := new_models_complete_count a;
     new_models_end_sessions := new_models_end_sessions a;
     session_id_to_latest_leave_evt := x;
     old_models_start_count := old_models_start_count a;
     old_models_complete_count := old_models_complete_count a;
     state_hit_counts := state_hit_counts a;
     state_session_ids := state_session_ids a |}.

Definition set_old_models_start_count (x : Z) (a : reduce_locals) :=
  {| new_models_start_count := new_models_start_count a;
     new_models_complete_count := new_models_complete_count a;
     new_models_end_sessions := new_models_end_sessions a;
     session_id_to_latest_leave_evt := session_id_to_latest_leave_evt a;
     old_models_start_count := x;
     old_models_complete_count := old_models_complete_count a;
     state_hit_counts := state_hit_counts a;
     state_session_ids := state_session_ids a |}.

Definition set_old_models_complete_count (x : Z) (a : reduce_locals) :=
  {| new_models_start_count := new_models_start_count a;
     new_models_complete_count := new_models_complete_count a;
     new_models_end_sessions := new_models_end_sessions a;
     session_id_to_latest_leave_evt := session_id_to_latest_leave_evt a;
     old_models_start_count := old_models_start_count a;
     old_models_complete_count := x;
     state_hit_counts := state_hit_counts a;
     state_session_ids := state_session_ids a |}.

Definition set_state_hit_counts (x : hit_counts) (a : reduce_locals) :=
  {| new_models_start_count := new_models_start_count a;
     new_models_complete_count := new_models_complete_count a;
     new_models_end_sessions := new_models_end_sessions a;
     session_id_to_latest_leave_evt := session_id_to_latest_leave_evt a;
     old_models_start_count := old_models_start_count a;
     old_models_complete_count := old_models_complete_count a;
     state_hit_counts := x;
     state_session_ids := state_session_ids a |}.

Definition set_state_session_ids
    (x : gmap (option string) (gset string)) (a : reduce_locals) :=
  {| new_models_start_count := new_models_start_count a;
     new_models_complete_count := new_models_complete_count a;
     new_models_end_sessions := new_models_end_sessions a;
     session_id_to_latest_leave_evt := session_id_to_latest_leave_evt a;
     old_models_start_count := old_models_start_count a;
     old_models_complete_count := old_models_complete_count a;
     state_hit_counts := state_hit_counts a;
     state_session_ids := x |}.

(** The names of the three counters of a bucket. *)
Definition total_entry_count : string := "total_entry_count".
Definition first_entry_count : string := "first_entry_count".
Definition no_answer_count : string := "no_answer_count".

(** The bucket given to every state of the resolved exploration. *)
Definition zero_bucket : bucket :=
  <[total_entry_count := 0]>
    (<[first_entry_count := 0]> (<[no_answer_count := 0]> ∅)).

(** [state_hit_counts[state_name][field] += x] on the defaultdict of
    buckets: a missing bucket is created empty and a missing counter reads
    as 0. The buckets of the exploration's own states are plain dicts that
    hold all three counters from the start, so the read never fails. *)
Definition bucket_add (state_name : option string) (field : string) (x : Z)
    (hc : hit_counts) : hit_counts :=
  let b := default ∅ (hc !! state_name) in
  <[state_name := <[field := default 0 (b !! field) + x]> b]> hc.

(** The default of [session_id_to_latest_leave_evt]: [(0, '')]. *)
Definition no_leave_evt : Z * option string := (0, Some "").

(** [state_session_ids[state_name].add(session_id)] on the defaultdict of
    sets. *)
Definition session_add (state_name : option string) (session_id : string)
    (m : gmap (option string) (gset string))
    : gmap (option string) (gset string) :=
  <[state_name := {[session_id]} ∪ default ∅ (m !! state_name)]> m.

Module StatisticsMRJobManager.
Section WithCollaborators.

(** Helpers of other modules, taken as they are: the cutoff test of the
    base job manager, the datetime conversion, the entity id of a
    snapshot and the two exploration lookups, which raise
    [EntityNotFoundError] for a missing exploration or version. *)
Variable _entity_created_before_job_queued : item → bool.
Variable get_time_in_millisecs : Z → Z.
Variable get_entity_id : string → string → string.
Variable get_exploration_by_id : string → option string → result Exploration.
Variable get_version : string → Z → result Exploration.

Definition map (item : item) : list (string * value) :=
  if _entity_created_before_job_queued item then
    match item with
    | StateCounterModel id first_entry_count subsequent_entries_count
        resolved_answer_count active_answer_count _ =>
        let first_dot_index := find "." id in
        let exploration_id := slice_to id first_dot_index in
        let state_name := slice_from id (first_dot_index + 1) in
        let value :=
          VCounter
            {| cv_exploration_id := exploration_id;
               cv_version := VERSION_NONE;
               cv_state_name := state_name;
               cv_first_entry_count := first_entry_count;
               cv_subsequent_entries_count := subsequent_entries_count;
               cv_resolved_answer_count := resolved_answer_count;
               cv_active_answer_count := active_answer_count |} in
        [(format_key exploration_id VERSION_NONE, value);
         (format_key exploration_id VERSION_ALL, value)]
    | EventLogEntryModel event_type session_id state_name created_on
        exploration_id exploration_version =>
        let version := VERSION_NONE in
        let version :=
          match exploration_version with
          | Some v => str v
          | None => version
          end in
        let value :=
          VEvent
            {| ev_event_type := event_type;
               ev_session_id := session_id;
               ev_state_name := state_name;
               ev_created_on := get_time_in_millisecs created_on;
               ev_exploration_id := exploration_id;
               ev_version := version |} in
        [(format_key exploration_id version, value);
         (format_key exploration_id VERSION_ALL, value)]
    end
  else [].

(** The rewind loop of the ['none'] scope:
    [while exploration.last_updated > cutoff and current_version > 1].
    Every iteration decrements [current_version], so
    [Z.to_nat current_version] iterations always suffice; the fuel
    argument only serves the structural recursion. *)
Fixpoint rewind (fuel : nat) (exp_id : string) (exploration : Exploration)
    (current_version : Z) : result Exploration :=
  if (exp_last_updated exploration >? _STATE_COUNTER_CUTOFF_DATE)
     && (current_version >? 1) then
    match fuel with
    | O => Ok exploration
    | S fuel' =>
        let current_version := current_version - 1 in
        exploration ← get_version exp_id current_version;
        rewind fuel' exp_id exploration current_version
    end
  else Ok exploration.

(** The [try] block of [reduce]. *)
Definition resolve_exploration (exp_id version : string)
    : result Exploration :=
  if decide (version = VERSION_NONE) then
    exploration ← get_exploration_by_id exp_id None;
    let current_version := exp_version exploration in
    rewind (Z.to_nat current_version) exp_id exploration current_version
  else if decide (version = VERSION_ALL) then
    get_exploration_by_id exp_id None
  else
    get_exploration_by_id exp_id (Some version).

(** The locals as they stand when the loop over the values starts. *)
Definition initial_locals (exploration : Exploration) : reduce_locals :=
  {| new_models_start_count := 0;
     new_models_complete_count := 0;
     new_models_end_sessions := ∅;
     session_id_to_latest_leave_evt := ∅;
     old_models_start_count := 0;
     old_models_complete_count := 0;
     state_hit_counts :=
       foldl (λ hc state_name, <[Some state_name := zero_bucket]> hc) ∅
             (exp_states exploration);
     state_session_ids :=
       foldl (λ m state_name, <[Some state_name := ∅]> m) ∅
             (exp_states exploration) |}.

(** The branch of the loop body for a value of type ['counter']. *)
Definition process_counter (exploration : Exploration) (c : counter_value)
    (a : reduce_locals) : reduce_locals :=
  let state_name := Some (cv_state_name c) in
  let a :=
    if decide (state_name = Some (exp_init_state_name exploration)) then
      set_old_models_start_count (cv_first_entry_count c) a
    else a in
  if decide (state_name = Some OLD_END_DEST) then
    set_old_models_complete_count (cv_first_entry_count c) a
  else
    let hc := state_hit_counts a in
    let hc :=
      bucket_add state_name no_answer_count
        (cv_first_entry_count c + cv_subsequent_entries_count c
         - cv_resolved_answer_count c - cv_active_answer_count c) hc in
    let hc :=
      bucket_add state_name first_entry_count (cv_first_entry_count c) hc in
    let hc :=
      bucket_add state_name total_entry_count
        (cv_first_entry_count c + cv_subsequent_entries_count c) hc in
    set_state_hit_counts hc a.

(** The rest of the loop body, for a value of type ['event']. *)
Definition process_event (e : event_value) (a : reduce_locals)
    : reduce_locals :=
  let state_name := ev_state_name e in
  let event_type := ev_event_type e in
  let created_on := ev_created_on e in
  let session_id := ev_session_id e in
  if decide (event_type = EVENT_TYPE_START_EXPLORATION) then
    set_new_models_start_count (new_models_start_count a + 1) a
  else if decide (event_type = EVENT_TYPE_COMPLETE_EXPLORATION) then
    let a :=
      set_new_models_complete_count (new_models_complete_count a + 1) a in
    set_new_models_end_sessions
      ({[session_id]} ∪ new_models_end_sessions a) a
  else if decide (event_type = EVENT_TYPE_MAYBE_LEAVE_EXPLORATION) then
    (* Reading the defaultdict stores the default for a new session. *)
    let evt :=
      default no_leave_evt (session_id_to_latest_leave_evt a !! session_id) in
    let d := <[session_id := evt]> (session_id_to_latest_leave_evt a) in
    let latest_timestamp_so_far := evt.1 in
    if latest_timestamp_so_far <? created_on then
      set_session_id_to_latest_leave_evt
        (<[session_id := (created_on, state_name)]> d) a
    else set_session_id_to_latest_leave_evt d a
  else if decide (event_type = EVENT_TYPE_STATE_HIT) then
    let a :=
      set_state_hit_counts
        (bucket_add state_name total_entry_count 1 (state_hit_counts a)) a in
    set_state_session_ids
      (session_add state_name session_id (state_session_ids a)) a
  else a.

(** One iteration of [for value_str in stringified_values]. *)
Definition process_value (exploration : Exploration) (a : reduce_locals)
    (v : value) : reduce_locals :=
  match v with
  | VCounter c => process_counter exploration c a
  | VEvent e => process_event e a
  end.

Definition process_values (exploration : Exploration) (a : reduce_locals)
    (values : list value) : reduce_locals :=
  foldl (process_value exploration) a values.

(** [for state_name in state_session_ids]: the size of each set of
    session ids is added to the state's first entry count. *)
Definition add_first_entries (ids : gmap (option string) (gset string))
    (hc : hit_counts) : hit_counts :=
  map_fold
    (λ state_name sessions hc,
       bucket_add state_name first_entry_count (Z.of_nat (size sessions)) hc)
    hc ids.

(** The sessions that left without completing. *)
Definition leave_states (a : reduce_locals) : gset string :=
  dom (session_id_to_latest_leave_evt a) ∖ new_models_end_sessions a.

(** [for session_id in leave_states]: one 'no answer' for the state the
    session left on. *)
Definition add_no_answers (evts : gmap string (Z * option string))
    (sessions : gset string) (hc : hit_counts) : hit_counts :=
  set_fold
    (λ session_id hc,
       let state_name := (default no_leave_evt (evts !! session_id)).2 in
       bucket_add state_name no_answer_count 1 hc)
    hc sessions.

(** The [state_hit_counts] handed to [create]. *)
Definition final_state_hit_counts (a : reduce_locals) : hit_counts :=
  add_no_answers (session_id_to_latest_leave_evt a) (leave_states a)
    (add_first_entries (state_session_ids a) (state_hit_counts a)).

(** Modelled from the spec: [ExplorationAnnotationsModel.create] is
    outside this module; the spec has it write one snapshot for the key,
    with the computed totals and a [last_updated] timestamp, replacing
    any prior snapshot of the same key. *)
Definition create (now : Z) (exp_id version : string)
    (num_starts num_completions : Z) (state_hit_counts : hit_counts)
    (st : Datastore) : Datastore :=
  set_annotations st
    (<[get_entity_id exp_id version :=
         {| an_exploration_id := exp_id;
            an_version := version;
            an_num_starts := num_starts;
            an_num_completions := num_completions;
            an_state_hit_counts := state_hit_counts;
            an_last_updated := now |}]> (annotations st)).

(** [reduce(key, stringified_values)], run at time [now] against the
    store [st]: the outcome of the call and the store it leaves. *)
Definition reduce (now : Z) (st : Datastore) (key : string)
    (values : list value) : result unit * Datastore :=
  match split ":" key with
  | [exp_id; version] =>
      match resolve_exploration exp_id version with
      | Raise EntityNotFoundError => (Ok (), st)
      | Raise e => (Raise e, st)
      | Ok exploration =>
          let a :=
            process_values exploration (initial_locals exploration) values in
          let state_hit_counts := final_state_hit_counts a in
          let num_starts :=
            old_models_start_count a + new_models_start_count a in
          let num_completions :=
            old_models_complete_count a + new_models_complete_count a in
          (Ok (),
           create now exp_id version num_starts num_completions
             state_hit_counts st)
      end
  | _ => (Raise ValueError, st)
  end.

End WithCollaborators.
End StatisticsMRJobManager.

(** ** InteractionAnswerSummariesMRJobManager *)

Module InteractionAnswerSummariesMRJobManager.
Section WithCollaborators.

(** Submitted answers and calculation outputs are opaque to the job. *)
Variable answer : Type.
Variable calc_output : Type.

(** The dict emitted by the map function and rebuilt by [reduce]. *)
Record state_answers_dict : Type := {
  sa_exploration_id : string;
  sa_exploration_version : string;
  sa_state_name : string;
  sa_interaction_id : string;
  sa_submitted_answer_list : list answer
}.

(** A registered calculation: its [calculate_from_state_answers_dict]. *)
Definition calculation : Type := state_answers_dict → result calc_output.

(** The two registries, taken as they are:
    [get_interaction_by_id(id).answer_calculation_ids] and
    [get_calculation_by_id(id)]. *)
Variable answer_calculation_ids : string → result (list string).
Variable get_calculation_by_id : string → result calculation.

(** [itertools.chain.from_iterable] over the submitted answer lists. *)
Definition chain_answers (dicts : list state_answers_dict) : list answer :=
  concat (sa_submitted_answer_list <$> dicts).

(** The dict that [reduce] hands to every calculation. *)
Definition combine_state_answers (key : string)
    (state_answers_dicts : list state_answers_dict)
    : result state_answers_dict :=
  match split ":" key with
  | [exploration_id; exploration_version; state_name] =>
      first ← index state_answers_dicts 0;
      let interaction_id := sa_interaction_id first in
      Ok {| sa_exploration_id := exploration_id;
            sa_exploration_version := exploration_version;
            sa_state_name := state_name;
            sa_interaction_id := interaction_id;
            sa_submitted_answer_list := chain_answers state_answers_dicts |}
  | _ => Raise ValueError
  end.

(** [for calc in calculations]: each output is saved before the next
    calculation runs, so the outputs saved before a failure stay. *)
Fixpoint run_calculations (calculations : list calculation)
    (combined_state_answers : state_answers_dict)
    (saved : list calc_output) : result unit * list calc_output :=
  match calculations with
  | [] => (Ok (), saved)
  | calc :: calculations' =>
      match calc combined_state_answers with
      | Ok calc_output =>
          run_calculations calculations' combined_state_answers
            (saved ++ [calc_output])
      | Raise e => (Raise e, saved)
      end
  end.

(** [reduce(key, stringified_state_answers_dicts)]; [saved] lists the
    calculation outputs saved so far, oldest first. *)
Definition reduce (saved : list calc_output) (key : string)
    (state_answers_dicts : list state_answers_dict)
    : result unit * list calc_output :=
  match combine_state_answers key state_answers_dicts with
  | Raise e => (Raise e, saved)
  | Ok combined_state_answers =>
      let interaction_id := sa_interaction_id combined_state_answers in
      match answer_calculation_ids interaction_id with
      | Raise e => (Raise e, saved)
      | Ok calc_ids =>
          match for_each get_calculation_by_id calc_ids with
          | Raise e => (Raise e, saved)
          | Ok calculations =>
              run_calculations calculations combined_state_answers saved
          end
      end
  end.

End WithCollaborators.

Arguments sa_exploration_id {answer} _.
Arguments sa_exploration_version {answer} _.
Arguments sa_state_name {answer} _.
Arguments sa_interaction_id {answer} _.
Arguments sa_submitted_answer_list {answer} _.
Arguments chain_answers {answer} _.
Arguments combine_state_answers {answer} _ _.
Arguments run_calculations {answer calc_output} _ _ _.
Arguments reduce {answer calc_output} _ _ _ _ _.

Section MapSide.

Variable answer : Type.

(** A Python value, as far as [_encode] tells values apart: a [unicode]
    text, a [str] (both are [basestring]), an [int] (a [bool] is one), a
    [float] (never computed with, given by its bits), a [list], a [dict]
    (its items in the order of iteration), or a value of any other type,
    such as [None], a [long] or a [tuple]. *)
Inductive pyval : Type :=
| PyUnicode (u : unicode)
| PyStr (s : string)
| PyInt (n : Z)
| PyFloat (bits : Z)
| PyList (l : list pyval)
| PyDict (d : list (pyval * pyval))
| PyOther (repr : string).

(** [_encode(item)] of [map]. The [encode] of a [unicode] text gives its
    UTF-8 bytes; the [encode] of a [str] decodes it as ASCII first. *)
Fixpoint _encode (item : pyval) : result pyval :=
  match item with
  | PyUnicode u => Ok (PyStr (encode_utf8 u))
  | PyStr s => u ← decode_ascii s; Ok (PyStr (encode_utf8 u))
  | PyInt _ | PyFloat _ => Ok item
  | PyList l => l' ← mapM _encode l; Ok (PyList l')
  | PyDict d =>
      d' ← mapM (λ kv, value ← _encode kv.2; Ok (kv.1, value)) d;
      Ok (PyDict d')
  | PyOther _ => Raise Exception
  end.

(** [stats_models.StateAnswersModel], as far as [map] reads it; the texts
    of a datastore entity are [unicode]. *)
Record StateAnswersModel : Type := {
  sam_exploration_id : unicode;
  sam_exploration_version : Z;
  sam_state_name : unicode;
  sam_interaction_id : unicode;
  sam_submitted_answer_list : list answer
}.

(** The dict that [map] emits: its version is the number of the entity in
    the first emission and the string ['all'] in the second; its state
    name is what [_encode] returns. *)
Record emitted_answers : Type := {
  ea_exploration_id : unicode;
  ea_exploration_version : Z + string;
  ea_state_name : pyval;
  ea_interaction_id : unicode;
  ea_submitted_answer_list : list answer
}.

(** [u'%s:%s:%s' % (a, b, c)] *)
Definition format_key3 (a b c : unicode) : unicode :=
  (a ++ ascii_text ":" ++ b ++ ascii_text ":" ++ c)%list.

(** The cutoff test of the base job manager, taken as it is. *)
Variable _entity_created_before_job_queued : StateAnswersModel → bool.

(** [map(item)]. The version number and ['all'] enter the unicode key as
    the texts of their ASCII characters, and the key is emitted as its
    UTF-8 bytes. The first value is a deep copy, so the later assignment
    of ['all'] to the dict does not reach it. *)
Definition map (item : StateAnswersModel)
    : result (list (string * emitted_answers)) :=
  if _entity_created_before_job_queued item then
    state_name ← _encode (PyUnicode (sam_state_name item));
    let state_answers_dict :=
      {| ea_exploration_id := sam_exploration_id item;
         ea_exploration_version := inl (sam_exploration_version item);
         ea_state_name := state_name;
         ea_interaction_id := sam_interaction_id item;
         ea_submitted_answer_list := sam_submitted_answer_list item |} in
    let versioned_key :=
      format_key3 (sam_exploration_id item)
        (ascii_text (str (sam_exploration_version item)))
        (sam_state_name item) in
    let first := (encode_utf8 versioned_key, state_answers_dict) in
    let state_answers_dict :=
      {| ea_exploration_id := ea_exploration_id state_answers_dict;
         ea_exploration_version := inr VERSION_ALL;
         ea_state_name := ea_state_name state_answers_dict;
         ea_interaction_id := ea_interaction_id state_answers_dict;
         ea_submitted_answer_list :=
           ea_submitted_answer_list state_answers_dict |} in
    let all_versions_key :=
      format_key3 (sam_exploration_id item) (ascii_text VERSION_ALL)
        (sam_state_name item) in
    Ok [first; (encode_utf8 all_versions_key, state_answers_dict)]
  else Ok [].

End MapSide.

Arguments sam_exploration_id {answer} _.
Arguments sam_exploration_version {answer} _.
Arguments sam_state_name {answer} _.
Arguments sam_interaction_id {answer} _.
Arguments sam_submitted_answer_list {answer} _.
Arguments ea_exploration_id {answer} _.
Arguments ea_exploration_version {answer} _.
Arguments ea_state_name {answer} _.
Arguments ea_interaction_id {answer} _.
Arguments ea_submitted_answer_list {answer} _.
Arguments map {answer} _ _.

End InteractionAnswerSummariesMRJobManager.


(** * Vocabulary of the properties *)

(** The exploration a mapped entity belongs to: an event log entry names
    it; a state counter carries it as the part of its id in front of the
    first dot. *)
Definition item_exploration_id (it : item) : string :=
  match it with
  | StateCounterModel id _ _ _ _ _ => slice_to id (find "." id)
  | EventLogEntryModel _ _ _ _ exploration_id _ => exploration_id
  end.

(** The version scope of a mapped entity: state counters and events without
    a version belong to ['none'], other events to their version. *)
Definition item_version_scope (it : item) : string :=
  match it with
  | StateCounterModel _ _ _ _ _ _ => VERSION_NONE
  | EventLogEntryModel _ _ _ _ _ None => VERSION_NONE
  | EventLogEntryModel _ _ _ _ _ (Some v) => str v
  end.

(** The realtime counter [m] after one more start, or after one more
    completion. *)
Definition one_more_start (m : StatisticsRealtimeModel) :=
  {| rt_num_starts := rt_num_starts m + 1;
     rt_num_completions := rt_num_completions m;
     rt_realtime_layer := rt_realtime_layer m |}.
Definition one_more_completion (m : StatisticsRealtimeModel) :=
  {| rt_num_starts := rt_num_starts m;
     rt_num_completions := rt_num_completions m + 1;
     rt_realtime_layer := rt_realtime_layer m |}.

(** Whether the character [c] occurs in [s]. *)
Fixpoint has_char (c : ascii) (s : string) : bool :=
  match s with
  | EmptyString => false
  | String a s' => Ascii.eqb a c || has_char c s'
  end.

(** * Vocabulary of the reduce properties *)

(** The counter [f] of the bucket of state [k], when both exist. *)
Definition field (hc : hit_counts) (k : option string) (f : string)
    : option Z :=
  hc !! k ≫= (.!! f).

(** The counter read the way the defaultdicts read it: 0 when missing. *)
Definition count (hc : hit_counts) (k : option string) (f : string) : Z :=
  default 0 (field hc k f).

Definition is_event (v : value) : bool :=
  match v with
  | VEvent _ => true
  | VCounter _ => false
  end.

Definition is_event_of_type (t : string) (v : value) : bool :=
  match v with
  | VEvent e => bool_decide (ev_event_type e = t)
  | VCounter _ => false
  end.

(** The number of event-origin values of type [t]. *)
Definition count_events (t : string) (values : list value) : Z :=
  Z.of_nat (length (filter (λ v, is_event_of_type t v) values)).

(** The legacy record of the state called [name], if [v] is one. *)
Definition counter_at (name : string) (v : value) : option counter_value :=
  match v with
  | VCounter c => if decide (cv_state_name c = name) then Some c else None
  | VEvent _ => None
  end.

(** What the legacy records contribute for the state called [name]: the
    first entry count of its record (of the last one, should there be
    several), and nothing without a record. *)
Definition legacy_count (name : string) (values : list value) : Z :=
  default 0 (cv_first_entry_count <$> last (omap (counter_at name) values)).

(** The fold of a legacy record into the bucket of its state, in the
    words of the specification. *)
Definition fold_counter (c : counter_value) (hc : hit_counts) : hit_counts :=
  let k := Some (cv_state_name c) in
  let b := default ∅ (hc !! k) in
  <[k :=
      <[total_entry_count :=
          count hc k total_entry_count
          + (cv_first_entry_count c + cv_subsequent_entries_count c)]>
        (<[first_entry_count :=
             count hc k first_entry_count + cv_first_entry_count c]>
           (<[no_answer_count :=
                count hc k no_answer_count
                + (cv_first_entry_count c + cv_subsequent_entries_count c
                   - cv_resolved_answer_count c - cv_active_answer_count c)]>
              b))]> hc.

(** The sentence on legacy records as the specification words it: the
    record is folded into its bucket only when its state is neither the
    initial state nor the old end state. *)
Definition legacy_record_as_specified (exploration : Exploration)
    (c : counter_value) (a : reduce_locals) : Prop :=
  let a' := StatisticsMRJobManager.process_counter exploration c a in
  (cv_state_name c = exp_init_state_name exploration →
   old_models_start_count a' = cv_first_entry_count c)
  ∧ (cv_state_name c = OLD_END_DEST →
     old_models_complete_count a' = cv_first_entry_count c)
  ∧ (cv_state_name c ≠ exp_init_state_name exploration →
     cv_state_name c ≠ OLD_END_DEST →
     state_hit_counts a' = fold_counter c (state_hit_counts a))
  ∧ (cv_state_name c = exp_init_state_name exploration
     ∨ cv_state_name c = OLD_END_DEST →
     state_hit_counts a' = state_hit_counts a).

(** * Vocabulary of the session properties *)

(** Whether [v] is a complete event of session [s]. *)
Definition completes (s : string) (v : value) : bool :=
  match v with
  | VEvent e =>
      bool_decide (ev_event_type e = EVENT_TYPE_COMPLETE_EXPLORATION
                   ∧ ev_session_id e = s)
  | VCounter _ => false
  end.

(** The timestamp and state of [v] when it is a maybe-leave event of
    session [s]. *)
Definition leave_of (s : string) (v : value) : option (Z * option string) :=
  match v with
  | VEvent e =>
      if decide (ev_event_type e = EVENT_TYPE_MAYBE_LEAVE_EXPLORATION
                 ∧ ev_session_id e = s)
      then Some (ev_created_on e, ev_state_name e)
      else None
  | VCounter _ => None
  end.

(** The maybe-leave event at time [t] in state [k] is the one retained for
    session [s]: among the maybe-leave events of [s], in the order of the
    values, it has a positive timestamp, a later timestamp than all before
    it and no earlier timestamp than all after it. *)
Definition retained_leave (values : list value) (s : string) (t : Z)
    (k : option string) : Prop :=
  ∃ before after,
    omap (leave_of s) values = (before ++ (t, k) :: after)%list
    ∧ 0 < t
    ∧ Forall (λ p, p.1 < t) before
    ∧ Forall (λ p, p.1 ≤ t) after.

(** The session of [v] when it is a state hit of the state [k]. *)
Definition hit_at (k : option string) (v : value) : option string :=
  match v with
  | VEvent e =>
      if decide (ev_event_type e = EVENT_TYPE_STATE_HIT ∧ ev_state_name e = k)
      then Some (ev_session_id e)
      else None
  | VCounter _ => None
  end.

(** The sessions of the state hits of [k], one entry per hit. *)
Definition hit_sessions (k : option string) (values : list value)
    : list string :=
  omap (hit_at k) values.

(** What the legacy record [v] adds to the counter [f] of the bucket of
    [k]. *)
Definition legacy_delta (k : option string) (f : string) (v : value) : Z :=
  match v with
  | VCounter c =>
      if decide (Some (cv_state_name c) = k ∧ cv_state_name c ≠ OLD_END_DEST)
      then
        if decide (f = no_answer_count) then
          cv_first_entry_count c + cv_subsequent_entries_count c
          - cv_resolved_answer_count c - cv_active_answer_count c
        else if decide (f = first_entry_count) then cv_first_entry_count c
        else if decide (f = total_entry_count) then
          cv_first_entry_count c + cv_subsequent_entries_count c
        else 0
      else 0
  | VEvent _ => 0
  end.

(** What all legacy records add to the counter [f] of the bucket of [k]. *)
Definition legacy_sum (k : option string) (f : string) (values : list value)
    : Z :=
  foldr Z.add 0 (legacy_delta k f <$> values).

(** The state a session is recorded to have left on. *)
Definition left_on (evts : gmap string (Z * option string)) (s : string)
    : option string :=
  (default no_leave_evt (evts !! s)).2.

(** The sessions that left without completing and are recorded as having
    left on [k], after the loop over [values]. *)
Definition left_without_completing (exploration : Exploration)
    (values : list value) (k : option string) : gset string :=
  let a :=
    StatisticsMRJobManager.process_values exploration
      (StatisticsMRJobManager.initial_locals exploration) values in
  filter (λ s, left_on (session_id_to_latest_leave_evt a) s = k)
         (StatisticsMRJobManager.leave_states a).

(** The maybe-leave event [e] is the one retained for its session among
    the values [before ++ VEvent e :: after]: it has a positive timestamp,
    a later timestamp than the maybe-leave events of its session before
    it and no earlier timestamp than those after it. *)
Definition retained_at (before : list value) (e : event_value)
    (after : list value) : Prop :=
  0 < ev_created_on e
  ∧ Forall (λ p, p.1 < ev_created_on e)
           (omap (leave_of (ev_session_id e)) before)
  ∧ Forall (λ p, p.1 ≤ ev_created_on e)
           (omap (leave_of (ev_session_id e)) after).

(** The sentence on events without a state name as the specification words
    it: such an event creates and changes no bucket, so the buckets that
    [reduce] writes are those of the run without the event, and as a
    start or complete event it adds one to the start or completion
    total. *)
Definition null_state_event_as_specified (exploration : Exploration)
    (before : list value) (e : event_value) (after : list value) : Prop :=
  let a :=
    StatisticsMRJobManager.process_values exploration
      (StatisticsMRJobManager.initial_locals exploration)
      (before ++ VEvent e :: after) in
  let a0 :=
    StatisticsMRJobManager.process_values exploration
      (StatisticsMRJobManager.initial_locals exploration)
      (before ++ after) in
  ev_state_name e = None →
  StatisticsMRJobManager.final_state_hit_counts a =
    StatisticsMRJobManager.final_state_hit_counts a0
  ∧ (ev_event_type e = EVENT_TYPE_START_EXPLORATION →
     new_models_start_count a = new_models_start_count a0 + 1)
  ∧ (ev_event_type e = EVENT_TYPE_COMPLETE_EXPLORATION →
     new_models_complete_count a = new_models_complete_count a0 + 1).

(** The sentence on abandoning sessions as the specification words it: a
    session whose retained maybe-leave event has no later complete event
    is among the sessions that add a 'no answer'. *)
Definition no_later_complete (values : list value) (s : string) (t : Z)
    : Prop :=
  ∀ e, VEvent e ∈ values →
       ev_event_type e = EVENT_TYPE_COMPLETE_EXPLORATION →
       ev_session_id e = s → ev_created_on e ≤ t.

Definition abandoning_as_specified (exploration : Exploration)
    (values : list value) : Prop :=
  ∀ s t k,
    retained_leave values s t k →
    no_later_complete values s t →
    s ∈ StatisticsMRJobManager.leave_states
          (StatisticsMRJobManager.process_values exploration
             (StatisticsMRJobManager.initial_locals exploration) values).

(** The retained event of a session after one more of its events. *)
Definition track (cur : option (Z * option string))
    (p : Z * option string) : option (Z * option string) :=
  let evt := default no_leave_evt cur in
  if evt.1 <? p.1 then Some p else Some evt.

(** * A sample run *)

(** An exploration with two states, a store without snapshots, and the
    values of one key: session [s1] starts, hits the introduction once and
    the quiz twice and leaves on the quiz; session [s2] starts, hits the
    quiz, completes and then leaves. *)
Definition sample_exploration : Exploration :=
  {| exp_version := 1; exp_last_updated := 0;
     exp_states := ["Intro"; "Quiz"]; exp_init_state_name := "Intro" |}.

Definition sample_get_exploration_by_id (exp_id : string)
    (version : option string) : result Exploration :=
  if decide (exp_id = "exp1") then Ok sample_exploration
  else Raise EntityNotFoundError.

Definition sample_get_version (exp_id : string) (version : Z)
    : result Exploration :=
  Raise EntityNotFoundError.

Definition sample_store : Datastore :=
  {| annotations := ∅; realtime := ∅; active_realtime_index := 0 |}.

Definition sample_event (event_type session_id : string)
    (state_name : option string) (created_on : Z) : event_value :=
  {| ev_event_type := event_type; ev_session_id := session_id;
     ev_state_name := state_name; ev_created_on := created_on;
     ev_exploration_id := "exp1"; ev_version := "1" |}.

Definition sample_values : list value :=
  [VEvent (sample_event "start" "s1" (Some "Intro") 10);
   VEvent (sample_event "state_hit" "s1" (Some "Intro") 11);
   VEvent (sample_event "state_hit" "s1" (Some "Quiz") 12);
   VEvent (sample_event "state_hit" "s1" (Some "Quiz") 13);
   VEvent (sample_event "maybe_leave" "s1" (Some "Quiz") 20);
   VEvent (sample_event "start" "s2" (Some "Intro") 21);
   VEvent (sample_event "state_hit" "s2" (Some "Quiz") 22);
   VEvent (sample_event "complete" "s2" (Some "Quiz") 30);
   VEvent (sample_event "maybe_leave" "s2" (Some "Quiz") 31)].

(** A legacy record of the initial state. *)
Definition sample_counter : counter_value :=
  {| cv_exploration_id := "exp1"; cv_version := VERSION_NONE;
     cv_state_name := "Intro"; cv_first_entry_count := 3;
     cv_subsequent_entries_count := 1; cv_resolved_answer_count := 0;
     cv_active_answer_count := 0 |}.

(** Events of session [s1] without a state name, later than the events of
    the sample run: a state hit, a maybe-leave event and a complete
    event. *)
Definition sample_null_hit : event_value :=
  sample_event "state_hit" "s1" None 40.
Definition sample_null_leave : event_value :=
  sample_event "maybe_leave" "s1" None 40.
Definition sample_null_complete : event_value :=
  sample_event "complete" "s1" None 40.

(** Answers of two versions of one state, with two interaction ids. *)
Definition sample_answers : list (InteractionAnswerSummariesMRJobManager.state_answers_dict string) :=
  [InteractionAnswerSummariesMRJobManager.Build_state_answers_dict string
     "exp1" "1" "Quiz" "TextInput" ["a"; "b"];
   InteractionAnswerSummariesMRJobManager.Build_state_answers_dict string
     "exp1" "2" "Quiz" "NumericInput" ["c"]].

(** A registry with one calculation, which counts the answers. *)
Definition sample_calculation_ids (interaction_id : string)
    : result (list string) :=
  if decide (interaction_id = "TextInput") then Ok ["AnswerCount"]
  else Raise KeyError.

Definition sample_get_calculation (calc_id : string)
    : result (InteractionAnswerSummariesMRJobManager.calculation string nat) :=
  if decide (calc_id = "AnswerCount") then
    Ok (λ d, Ok (length
                   (InteractionAnswerSummariesMRJobManager.sa_submitted_answer_list d)))
  else Raise KeyError.

(** * Vocabulary of the further properties *)

(** Whether the loop of [reduce] acts on [v]: every legacy record, and the
    events of the four kinds it knows. *)
Definition recognised (v : value) : bool :=
  match v with
  | VCounter _ => true
  | VEvent e =>
      bool_decide
        (ev_event_type e ∈ [EVENT_TYPE_START_EXPLORATION;
                            EVENT_TYPE_COMPLETE_EXPLORATION;
                            EVENT_TYPE_MAYBE_LEAVE_EXPLORATION;
                            EVENT_TYPE_STATE_HIT])
  end.

(** The snapshot [reduce] writes for a resolved exploration. *)
Definition snapshot_of (now : Z) (exp_id version : string)
    (exploration : Exploration) (values : list value)
    : ExplorationAnnotationsModel :=
  let a :=
    StatisticsMRJobManager.process_values exploration
      (StatisticsMRJobManager.initial_locals exploration) values in
  {| an_exploration_id := exp_id;
     an_version := version;
     an_num_starts := old_models_start_count a + new_models_start_count a;
     an_num_completions :=
       old_models_complete_count a + new_models_complete_count a;
     an_state_hit_counts := StatisticsMRJobManager.final_state_hit_counts a;
     an_last_updated := now |}.

(** The number of occurrences of the character [c] in [s]. *)
Fixpoint count_char (c : ascii) (s : string) : nat :=
  match s with
  | EmptyString => O
  | String a s' => ((if Ascii.eqb a c then 1 else 0) + count_char c s')%nat
  end.

(** The events that reach the aggregator for one realtime layer, given by
    their type and exploration id and handled one after the other. *)
Definition handle_events (get_realtime_id : Z → string → string)
    (active_realtime_layer : Z) (events : list (string * string))
    (st : Datastore) : Datastore :=
  foldl
    (λ st event,
       StatisticsAggregator._handle_incoming_event get_realtime_id
         active_realtime_layer event.1 event.2 st)
    st events.

(** The numbers of start and of other events of an exploration. *)
Definition starts_of (exp_id : string) (events : list (string * string)) : Z :=
  Z.of_nat
    (length
       (filter
          (λ event, event.1 = EVENT_TYPE_START_EXPLORATION ∧ event.2 = exp_id)
          events)).
Definition completions_of (exp_id : string) (events : list (string * string))
    : Z :=
  Z.of_nat
    (length
       (filter
          (λ event, event.1 ≠ EVENT_TYPE_START_EXPLORATION ∧ event.2 = exp_id)
          events)).

(** The two counts of a realtime counter that may be missing. *)
Definition live_starts (model : option StatisticsRealtimeModel) : Z :=
  default 0 (rt_num_starts <$> model).
Definition live_completions (model : option StatisticsRealtimeModel) : Z :=
  default 0 (rt_num_completions <$> model).

(** Whether [c] can occur in the decimal form of an integer. *)
Definition is_number_char (c : ascii) : bool :=
  bool_decide
    (c ∈ ["0"; "1"; "2"; "3"; "4"; "5"; "6"; "7"; "8"; "9"; "-"]%char).





(** The code point of the colon. *)
Definition colon : N := N_of_ascii ":".

(** * Further sample data *)

(** An exploration with three versions: the first committed before the
    cut-off date, the other two after it. *)
Definition sample_version (version last_updated : Z) : Exploration :=
  {| exp_version := version; exp_last_updated := last_updated;
     exp_states := ["Intro"; "Quiz"]; exp_init_state_name := "Intro" |}.

Definition sample_history_latest (exp_id : string) (version : option string)
    : result Exploration :=
  if decide (exp_id = "exp2") then Ok (sample_version 3 1500000000)
  else Raise EntityNotFoundError.

Definition sample_history_version (exp_id : string) (version : Z)
    : result Exploration :=
  if decide (exp_id = "exp2" ∧ version = 2) then
    Ok (sample_version 2 1450000000)
  else if decide (exp_id = "exp2" ∧ version = 1) then
    Ok (sample_version 1 1400000000)
  else Raise EntityNotFoundError.

(** The id of a realtime counter, in the form of the other keys. *)
Definition sample_get_realtime_id (layer : Z) (exp_id : string) : string :=
  format_key (str layer) exp_id.

(** Events of one layer: two starts and a completion of [exp1], and a start
    of [exp2]. *)
Definition sample_events : list (string * string) :=
  [("start", "exp1"); ("start", "exp2"); ("complete", "exp1");
   ("start", "exp1")].


(** An event log entry of version 4, and one of an exploration whose id
    holds a colon. *)
Definition sample_item : item :=
  EventLogEntryModel "start" "s1" (Some "Intro") 1000 "exp1" (Some 4).
Definition sample_item_with_colon : item :=
  EventLogEntryModel "start" "s1" (Some "Intro") 1000 "exp:1" None.

(** Answers to the state [Café] of the exploration [exp1], whose name
    holds a code point above 0x7F, and the UTF-8 bytes of that name; and
    answers to a state whose name holds a colon. *)
Definition sample_answers_model
    : InteractionAnswerSummariesMRJobManager.StateAnswersModel string :=
  InteractionAnswerSummariesMRJobManager.Build_StateAnswersModel string
    (ascii_text "exp1") 2 (ascii_text "Caf" ++ [0xE9%N])%list
    (ascii_text "TextInput") ["a"; "b"].
Definition sample_state_name_bytes : string :=
  ("Caf" ++ String (ascii_of_N 0xC3) (String (ascii_of_N 0xA9) ""))%string.
Definition sample_answers_model_with_colon
    : InteractionAnswerSummariesMRJobManager.StateAnswersModel string :=
  InteractionAnswerSummariesMRJobManager.Build_StateAnswersModel string
    (ascii_text "exp1") 2 (ascii_text "Quiz: part 1")
    (ascii_text "TextInput") ["a"; "b"].


(** A registry with a calculation that counts the answers and one that
    fails. *)
Definition sample_two_calculation_ids (interaction_id : string)
    : result (list string) :=
  if decide (interaction_id = "TextInput") then
    Ok ["AnswerCount"; "Broken"; "AnswerCount"]
  else Raise KeyError.

Definition sample_count_answers
    : InteractionAnswerSummariesMRJobManager.calculation string nat :=
  λ d, Ok (length
             (InteractionAnswerSummariesMRJobManager.sa_submitted_answer_list
                d)).

Definition sample_broken
    : InteractionAnswerSummariesMRJobManager.calculation string nat :=
  λ _, Raise CalculationError.

Definition sample_get_two_calculations (calc_id : string)
    : result (InteractionAnswerSummariesMRJobManager.calculation string nat) :=
  if decide (calc_id = "AnswerCount") then Ok sample_count_answers
  else if decide (calc_id = "Broken") then Ok sample_broken
  else Raise KeyError.

(** * Proof automation *)

(** Takes one iteration of the loop of [reduce] apart into its cases. *)
Ltac step_cases :=
  unfold StatisticsMRJobManager.process_value,
    StatisticsMRJobManager.process_counter,
    StatisticsMRJobManager.process_event,
    is_event_of_type, counter_at, completes, leave_of, hit_at, legacy_delta,
    EVENT_TYPE_START_EXPLORATION, EVENT_TYPE_COMPLETE_EXPLORATION,
    EVENT_TYPE_MAYBE_LEAVE_EXPLORATION, EVENT_TYPE_STATE_HIT in *;
  repeat case_decide; repeat case_bool_decide;
  try destruct (_ <? _) eqn:?; simpl in *.

(** Closes a goal of the case analyses below: by arithmetic, or because
    the case contradicts itself. *)
Ltac absurd_or_lia :=
  solve [ lia
        | exfalso;
          match goal with
          | H : is_Some None |- _ => by destruct H
          | H : ¬ (_ ∧ _) |- _ =>
              apply H; split; first [congruence | by eexists]
          end
        | exfalso; congruence ].

(** * Properties of StatisticsAggregator *)

Section AggregatorProperties.

Variable get_entity_id : string → string → string.
Variable get_realtime_id : Z → string → string.
Variable get_time_in_millisecs : Z → Z.

Local Abbreviation handle :=
  (StatisticsAggregator._handle_incoming_event get_realtime_id).
Local Abbreviation get_statistics :=
  (StatisticsAggregator.get_statistics get_entity_id get_realtime_id
     get_time_in_millisecs).
Local Abbreviation get_views_multi :=
  (StatisticsAggregator.get_views_multi get_entity_id get_realtime_id).

Lemma complete_is_not_start :
  EVENT_TYPE_COMPLETE_EXPLORATION ≠ EVENT_TYPE_START_EXPLORATION.
Proof. discriminate. Qed.

Lemma handle_start_realtime layer exp_id st :
  realtime (handle layer EVENT_TYPE_START_EXPLORATION exp_id st) =
  <[get_realtime_id layer exp_id :=
      match realtime st !! get_realtime_id layer exp_id with
      | None => {| rt_num_starts := 1; rt_num_completions := 0;
                   rt_realtime_layer := layer |}
      | Some m => one_more_start m
      end]> (realtime st).
Proof.
  unfold StatisticsAggregator._handle_incoming_event.
  rewrite decide_True by reflexivity.
  unfold StatisticsAggregator.run_in_transaction,
    StatisticsAggregator._increment_visit_counter, get.
  destruct (realtime st !! get_realtime_id layer exp_id); reflexivity.
Qed.

Lemma handle_complete_realtime layer exp_id st :
  realtime (handle layer EVENT_TYPE_COMPLETE_EXPLORATION exp_id st) =
  <[get_realtime_id layer exp_id :=
      match realtime st !! get_realtime_id layer exp_id with
      | None => {| rt_num_starts := 0; rt_num_completions := 1;
                   rt_realtime_layer := layer |}
      | Some m => one_more_completion m
      end]> (realtime st).
Proof.
  unfold StatisticsAggregator._handle_incoming_event.
  rewrite decide_False by apply complete_is_not_start.
  unfold StatisticsAggregator.run_in_transaction,
    StatisticsAggregator._increment_completion_counter, get.
  destruct (realtime st !! get_realtime_id layer exp_id); reflexivity.
Qed.

(** C9. A start event creates the realtime counter of (layer, exploration)
    with one start and no completion when it is missing, and otherwise
    adds one to its starts and leaves its completions alone; a complete
    event does the same with starts and completions swapped. No other
    counter changes. *)
Theorem handle_incoming_event_increments layer exp_id st :
  let id := get_realtime_id layer exp_id in
  let started := handle layer EVENT_TYPE_START_EXPLORATION exp_id st in
  let completed := handle layer EVENT_TYPE_COMPLETE_EXPLORATION exp_id st in
  realtime started !! id =
    Some (match realtime st !! id with
          | None => {| rt_num_starts := 1; rt_num_completions := 0;
                       rt_realtime_layer := layer |}
          | Some m =>
              {| rt_num_starts := rt_num_starts m + 1;
                 rt_num_completions := rt_num_completions m;
                 rt_realtime_layer := rt_realtime_layer m |}
          end)
  ∧ realtime completed !! id =
    Some (match realtime st !! id with
          | None => {| rt_num_starts := 0; rt_num_completions := 1;
                       rt_realtime_layer := layer |}
          | Some m =>
              {| rt_num_starts := rt_num_starts m;
                 rt_num_completions := rt_num_completions m + 1;
                 rt_realtime_layer := rt_realtime_layer m |}
          end)
  ∧ delete id (realtime started) = delete id (realtime st)
  ∧ delete id (realtime completed) = delete id (realtime st)
  ∧ annotations started = annotations st
  ∧ annotations completed = annotations st.
Proof.
  cbv zeta. rewrite handle_start_realtime, handle_complete_realtime.
  rewrite !lookup_insert_eq, !delete_insert_eq.
  repeat split;
    try (destruct (realtime st !! get_realtime_id layer exp_id);
         reflexivity).
  - unfold StatisticsAggregator._handle_incoming_event.
    rewrite decide_True by reflexivity.
    unfold StatisticsAggregator.run_in_transaction,
      StatisticsAggregator._increment_visit_counter.
    destruct (get _ _); reflexivity.
  - unfold StatisticsAggregator._handle_incoming_event.
    rewrite decide_False by apply complete_is_not_start.
    unfold StatisticsAggregator.run_in_transaction,
      StatisticsAggregator._increment_completion_counter.
    destruct (get _ _); reflexivity.
Qed.

(** A comprehension whose body succeeds on every element succeeds with
    the list of the bodies' values. *)
Lemma for_each_Ok {A B} (g : A → result B) (h : A → B) (l : list A) :
  (∀ x, x ∈ l → g x = Ok (h x)) → for_each g l = Ok (h <$> l).
Proof.
  induction l as [|x l IH]; intros Hg; simpl; [reflexivity|].
  rewrite (Hg x) by left. simpl.
  rewrite IH by (intros y Hy; apply Hg; by right). reflexivity.
Qed.

Lemma index_fmap {A B} (f : A → B) (l : list A) (i : nat) (x : A) :
  l !! i = Some x → index (f <$> l) i = Ok (f x).
Proof. intros H. unfold index. by rewrite list_lookup_fmap, H. Qed.

(** The start count of [get_statistics] is the snapshot's [num_starts]
    plus the live counter's, each read as 0 when absent. *)
Lemma get_statistics_start_count st exploration_id version :
  start_exploration_count (get_statistics st exploration_id version) =
  default 0 (an_num_starts <$>
               annotations st !! get_entity_id exploration_id version)
  + default 0 (rt_num_starts <$>
                 realtime st !!
                   get_realtime_id (active_realtime_index st) exploration_id).
Proof.
  unfold StatisticsAggregator.get_statistics,
    StatisticsAggregator.get_active_realtime_layer_id, get.
  destruct (annotations st !! _), (realtime st !! _); simpl; lia.
Qed.

(** C8. [get_views_multi] returns, position by position, the start count
    that [get_statistics] reports for the ['all'] scope, which is the
    snapshot's [num_starts] plus the live counter's [num_starts], each 0
    when absent. *)
Theorem get_views_multi_get_statistics st exploration_ids :
  get_views_multi st exploration_ids =
    Ok ((λ exploration_id,
           start_exploration_count
             (get_statistics st exploration_id VERSION_ALL))
        <$> exploration_ids)
  ∧ ∀ exploration_id,
      start_exploration_count
        (get_statistics st exploration_id VERSION_ALL) =
      default 0 (an_num_starts <$>
                   annotations st !!
                     get_entity_id exploration_id VERSION_ALL)
      + default 0 (rt_num_starts <$>
                     realtime st !!
                       get_realtime_id (active_realtime_index st)
                         exploration_id).
Proof.
  split; [|intros; apply get_statistics_start_count].
  unfold StatisticsAggregator.get_views_multi.
  set (views := λ o : option string,
         match o with
         | Some e =>
             start_exploration_count (get_statistics st e VERSION_ALL)
         | None => 0
         end).
  rewrite (for_each_Ok _ (λ i, views (exploration_ids !! i))).
  - f_equal. apply list_eq. intros i.
    rewrite !list_lookup_fmap.
    destruct (decide (i < length exploration_ids)%nat) as [Hi|Hi].
    + rewrite lookup_seq_lt by done. simpl.
      destruct (lookup_lt_is_Some_2 exploration_ids i Hi) as [e He].
      by rewrite He.
    + rewrite lookup_seq_ge by lia.
      rewrite lookup_ge_None_2 by lia. reflexivity.
  - intros i [_ Hi]%elem_of_seq. simpl in Hi.
    destruct (lookup_lt_is_Some_2 exploration_ids i Hi) as [e He].
    unfold get_multi, StatisticsAggregator.get_multi_active_realtime_layer_ids.
    rewrite He.
    rewrite (index_fmap (get (annotations st)) _ i
               (get_entity_id e VERSION_ALL)) by
      (by rewrite list_lookup_fmap, He).
    cbn [mbind result_bind].
    rewrite (index_fmap (get (realtime st)) _ i
               (StatisticsAggregator.get_active_realtime_layer_id
                  get_realtime_id st e)) by
      (by rewrite list_lookup_fmap, He).
    simpl. f_equal.
    rewrite get_statistics_start_count.
    unfold get, StatisticsAggregator.get_active_realtime_layer_id.
    destruct (annotations st !! _), (realtime st !! _); reflexivity.
Qed.

End AggregatorProperties.

(** * Properties of the string helpers *)

Lemma find_from_app c e s i :
  has_char c e = false →
  find_from c (e ++ String c s) i = i + Z.of_nat (String.length e).
Proof.
  revert i. induction e as [|a e IH]; intros i He; simpl in *.
  - rewrite Ascii.eqb_refl. lia.
  - apply orb_false_iff in He as [Ha He]. rewrite Ha.
    rewrite IH by done. lia.
Qed.

Lemma take_str_app e t : take_str (String.length e) (e ++ t) = e.
Proof.
  induction e as [|a e IH]; simpl; [by destruct t|]. by rewrite IH.
Qed.

Lemma drop_str_app e t : drop_str (String.length e) (e ++ t) = t.
Proof. induction e as [|a e IH]; simpl; [by destruct t|]. done. Qed.

Lemma drop_str_past e c t :
  drop_str (S (String.length e)) (e ++ String c t) = t.
Proof. induction e as [|a e IH]; simpl; [by destruct t|]. done. Qed.

Lemma length_app_str e t :
  String.length (e ++ t) = (String.length e + String.length t)%nat.
Proof. induction e as [|a e IH]; simpl; [done|]. by rewrite IH. Qed.

(** The id ['<exploration_id>.<state_name>'] of a state counter is taken
    apart at its first dot. *)
Lemma counter_id_parts (e s : string) :
  has_char "." e = false →
  let id := (e ++ "." ++ s)%string in
  slice_to id (find "." id) = e ∧ slice_from id (find "." id + 1) = s.
Proof.
  intros He id. unfold find.
  change id with (e ++ String "." s)%string. clear id.
  rewrite find_from_app by done.
  unfold slice_to, slice_from, slice_bound.
  rewrite length_app_str. simpl String.length.
  destruct (Z.ltb_spec (0 + Z.of_nat (String.length e)) 0); [lia|].
  destruct (Z.ltb_spec (0 + Z.of_nat (String.length e) + 1) 0); [lia|].
  split.
  - replace (Z.to_nat _) with (String.length e) by lia.
    apply take_str_app.
  - replace (Z.to_nat _) with (S (String.length e)) by lia.
    apply drop_str_past.
Qed.

Lemma find_from_absent c s i : has_char c s = false → find_from c s i = -1.
Proof.
  revert i. induction s as [|a s IH]; intros i; simpl; [done|].
  intros [-> Hs]%orb_false_iff. by apply IH.
Qed.

Lemma take_str_length n s :
  (n ≤ String.length s)%nat → String.length (take_str n s) = n.
Proof.
  revert s. induction n as [|n IH]; intros [|a s]; simpl; try lia.
  intros. rewrite IH; lia.
Qed.

(** A string that holds [c] is taken apart at the first [c]. *)
Lemma has_char_first c s :
  has_char c s = true →
  ∃ e t, s = (e ++ String c t)%string ∧ has_char c e = false.
Proof.
  induction s as [|a s IH]; simpl; [done|].
  destruct (Ascii.eqb_spec a c) as [->|Hac]; simpl.
  - intros _. by exists EmptyString, s.
  - intros (e & t & -> & He)%IH. exists (String a e), t. split; [done|].
    simpl. rewrite He. by apply Ascii.eqb_neq in Hac as ->.
Qed.

(** The place of the first [c] in a string is unique. *)
Lemma first_char_unique c e t e' t' :
  (e ++ String c t)%string = (e' ++ String c t')%string →
  has_char c e = false → has_char c e' = false →
  e = e' ∧ t = t'.
Proof.
  revert e'. induction e as [|a e IH]; intros [|a' e']; simpl.
  - by intros [= ->].
  - intros [= <- _] _. by rewrite Ascii.eqb_refl.
  - intros [= -> _]. by rewrite Ascii.eqb_refl.
  - intros [= -> H] [_ He]%orb_false_iff [_ He']%orb_false_iff.
    destruct (IH _ H He He') as [-> ->]. done.
Qed.

(** A string that is not empty is the string without its last character,
    and that character. *)
Lemma take_str_all_but_last a s :
  ∃ c,
    String a s =
    (take_str (String.length (String a s) - 1) (String a s) ++ String c "")%string.
Proof.
  revert a. induction s as [|b s IH]; intros a.
  - by exists a.
  - destruct (IH b) as [c Hc]. exists c.
    replace (String.length (String a (String b s)) - 1)%nat
      with (S (String.length (String b s) - 1)) by (simpl; lia).
    cbn [take_str].
    change (String a ?x ++ ?y)%string with (String a (x ++ y)%string).
    by rewrite <- Hc.
Qed.

(** The id of a state counter that holds no dot: [find] gives -1, so the
    slice in front of it ends before the last character and the slice
    behind it starts at 0. *)
Lemma counter_id_without_dot (id : string) :
  has_char "." id = false →
  slice_to id (find "." id) = take_str (String.length id - 1) id
  ∧ slice_from id (find "." id + 1) = id.
Proof.
  intros Hdot. unfold find. rewrite (find_from_absent "." id 0 Hdot).
  unfold slice_to, slice_from, slice_bound. simpl Z.ltb. cbn iota.
  replace (Z.to_nat (Z.max 0 (Z.of_nat (String.length id) + -1)))
    with (String.length id - 1)%nat by lia.
  replace (Z.to_nat (Z.min (-1 + 1) (Z.of_nat (String.length id))))
    with O by lia.
  by destruct id.
Qed.

Lemma split_no_sep sep s : has_char sep s = false → split sep s = [s].
Proof.
  induction s as [|a s IH]; simpl; [done|].
  intros [Ha Hs]%orb_false_iff. rewrite Ha, IH; done.
Qed.

(** A key built by the map function from an exploration id and a scope
    without colons is taken apart into the two by the reduce function. *)
Lemma split_format_key exp_id version :
  has_char ":" exp_id = false →
  has_char ":" version = false →
  split ":" (format_key exp_id version) = [exp_id; version].
Proof.
  intros Hid Hversion. unfold format_key.
  induction exp_id as [|a exp_id IH]; simpl in *.
  - by rewrite split_no_sep.
  - apply orb_false_iff in Hid as [Ha Hid]. rewrite Ha.
    change (exp_id ++ String ":" version)%string
      with (exp_id ++ ":" ++ version)%string.
    by rewrite IH.
Qed.

(** * Properties of StatisticsMRJobManager: map and exploration lookup *)

Section MapProperties.

Variable _entity_created_before_job_queued : item → bool.
Variable get_time_in_millisecs : Z → Z.

(** C6. An entity created before the job's cutoff is emitted exactly
    twice, with one and the same value: under the key
    ['<exploration id>:<scope>'] of its exploration and its own version
    scope, and under ['<exploration id>:all']; an entity not created before
    the cutoff is not emitted at all. For an event log entry the scope is
    the decimal form of its version, or ['none'] when it has no version.
    For a state counter the scope is ['none'], and the exploration id is
    the part of its id in front of the first dot; of an id without a dot
    it is the id without its last character. *)
Theorem map_emits_own_scope_and_all (it : item) :
  ∃ exp_id scope value,
    StatisticsMRJobManager.map
      _entity_created_before_job_queued get_time_in_millisecs it =
    (if _entity_created_before_job_queued it then
       [((exp_id ++ ":" ++ scope)%string, value);
        ((exp_id ++ ":all")%string, value)]
     else [])
    ∧ match it with
      | EventLogEntryModel event_type session_id state_name created_on
          exploration_id exploration_version =>
          exp_id = exploration_id
          ∧ scope = match exploration_version with
                    | Some v => pretty v
                    | None => "none"
                    end
          ∧ value =
            VEvent
              {| ev_event_type := event_type; ev_session_id := session_id;
                 ev_state_name := state_name;
                 ev_created_on := get_time_in_millisecs created_on;
                 ev_exploration_id := exploration_id;
                 ev_version := scope |}
      | StateCounterModel id fec sec rac aac _ =>
          scope = "none"
          ∧ ∃ state_name,
              value =
              VCounter
                {| cv_exploration_id := exp_id; cv_version := "none";
                   cv_state_name := state_name;
                   cv_first_entry_count := fec;
                   cv_subsequent_entries_count := sec;
                   cv_resolved_answer_count := rac;
                   cv_active_answer_count := aac |}
              ∧ (id = (exp_id ++ "." ++ state_name)%string
                 ∧ has_char "." exp_id = false
                 ∨ has_char "." id = false
                   ∧ state_name = id
                   ∧ (id = "" ∧ exp_id = ""
                      ∨ ∃ c, id = (exp_id ++ String c "")%string))
      end.
Proof.
  unfold StatisticsMRJobManager.map.
  destruct it as [id fec sec rac aac created
                 |event_type session_id state_name created exp_id version].
  - destruct (has_char "." id) eqn:Hdot.
    + destruct (has_char_first _ _ Hdot) as (e & t & -> & He).
      destruct (counter_id_parts e t He) as [Hto Hfrom].
      cbv zeta in Hto, Hfrom.
      change (e ++ "." ++ t)%string with (e ++ String "." t)%string
        in Hto, Hfrom.
      exists e, "none"%string. eexists. split.
      * cbv zeta. rewrite Hto, Hfrom. reflexivity.
      * split; [done|]. exists t. split; [done|]. by left.
    + destruct (counter_id_without_dot id Hdot) as [Hto Hfrom].
      exists (take_str (String.length id - 1) id), "none"%string.
      eexists. split.
      * cbv zeta. rewrite Hto, Hfrom. reflexivity.
      * split; [done|]. exists id. split; [done|]. right.
        split; [done|]. split; [done|].
        destruct id as [|a id]; [by left|]. right.
        apply take_str_all_but_last.
  - exists exp_id. destruct version as [v|]; eexists _, _;
      (split; [reflexivity|done]).
Qed.

End MapProperties.

Section ResolveProperties.

Variable get_entity_id : string → string → string.
Variable get_exploration_by_id : string → option string → result Exploration.
Variable get_version : string → Z → result Exploration.

Local Abbreviation resolve_exploration :=
  (StatisticsMRJobManager.resolve_exploration
     get_exploration_by_id get_version).
Local Abbreviation rewind :=
  (StatisticsMRJobManager.rewind get_version).
Local Abbreviation reduce :=
  (StatisticsMRJobManager.reduce
     get_entity_id get_exploration_by_id get_version).

(** The rewind loop is the unfolding of the [while] statement whenever
    the fuel covers the current version, as it does in
    [resolve_exploration]. *)
Lemma rewind_unfold fuel exp_id exploration current_version :
  (Z.to_nat current_version ≤ fuel)%nat →
  rewind fuel exp_id exploration current_version =
  if (exp_last_updated exploration >? _STATE_COUNTER_CUTOFF_DATE)
     && (current_version >? 1) then
    exploration' ← get_version exp_id (current_version - 1);
    rewind (pred fuel) exp_id exploration' (current_version - 1)
  else Ok exploration.
Proof.
  intros Hfuel. destruct fuel as [|fuel]; simpl.
  - destruct (Z.gtb_spec current_version 1); [lia|].
    by rewrite andb_false_r.
  - reflexivity.
Qed.

(** More fuel than the current version never changes the result. *)
Lemma rewind_fuel fuel fuel' exp_id exploration current_version :
  (Z.to_nat current_version ≤ fuel)%nat →
  (Z.to_nat current_version ≤ fuel')%nat →
  rewind fuel exp_id exploration current_version =
  rewind fuel' exp_id exploration current_version.
Proof.
  revert fuel' exploration current_version.
  induction fuel as [|fuel IH]; intros fuel' exploration cv H1 H2.
  - rewrite !rewind_unfold by done.
    destruct (Z.gtb_spec cv 1); [lia|]. by rewrite andb_false_r.
  - rewrite (rewind_unfold (S fuel)), (rewind_unfold fuel') by done.
    destruct (_ && _) eqn:Hc; [|done].
    apply andb_true_iff in Hc as [_ Hcv].
    destruct (Z.gtb_spec cv 1); [|done].
    destruct (get_version exp_id (cv - 1)); simpl; [|done].
    apply IH; lia.
Qed.

(** A deleted exploration makes the lookup of every scope fail. *)
Lemma resolve_exploration_deleted exp_id version :
  (∀ v, get_exploration_by_id exp_id v = Raise EntityNotFoundError) →
  resolve_exploration exp_id version = Raise EntityNotFoundError.
Proof.
  intros Hdel. unfold StatisticsMRJobManager.resolve_exploration.
  repeat case_decide; by rewrite Hdel.
Qed.

(** C7. When the exploration of a key cannot be found, [reduce] returns
    normally and leaves the store as it was: no snapshot is written for
    the key and the snapshots of all other keys stay. *)
Theorem reduce_exploration_not_found now st key values exp_id version :
  split ":" key = [exp_id; version] →
  resolve_exploration exp_id version = Raise EntityNotFoundError →
  reduce now st key values = (Ok (), st).
Proof.
  intros Hkey Hresolve. unfold StatisticsMRJobManager.reduce.
  by rewrite Hkey, Hresolve.
Qed.

End ResolveProperties.

(** * Properties of InteractionAnswerSummariesMRJobManager *)

Section AnswerSummaryProperties.

Variable answer : Type.
Variable calc_output : Type.
Variable answer_calculation_ids : string → result (list string).
Variable get_calculation_by_id :
  string →
  result (InteractionAnswerSummariesMRJobManager.calculation
            answer calc_output).

Import InteractionAnswerSummariesMRJobManager.

Lemma length_chain_answers (dicts : list (state_answers_dict answer)) :
  length (chain_answers dicts) =
  sum_list (length <$> (sa_submitted_answer_list <$> dicts)).
Proof.
  unfold chain_answers.
  induction dicts as [|d dicts IH]; [done|].
  rewrite !fmap_cons. cbn [concat sum_list sum_list_with].
  by rewrite length_app, IH.
Qed.

(** C10. For a non-empty list of inputs, the combined record lists the
    submitted answers of all inputs, in order, so that it is as long as
    the inputs' lists together; its interaction id is the one of the
    first input, whatever the later inputs carry; and the calculations
    that run on it are those registered for that interaction id. *)
Theorem reduce_combines_answers_of_first_interaction
    saved key exploration_id exploration_version state_name
    (first : state_answers_dict answer)
    (rest : list (state_answers_dict answer)) :
  split ":" key = [exploration_id; exploration_version; state_name] →
  ∃ combined,
    combine_state_answers key (first :: rest) = Ok combined
    ∧ sa_submitted_answer_list combined =
        concat (sa_submitted_answer_list <$> first :: rest)
    ∧ length (sa_submitted_answer_list combined) =
        sum_list (length <$> (sa_submitted_answer_list <$> first :: rest))
    ∧ sa_interaction_id combined = sa_interaction_id first
    ∧ reduce answer_calculation_ids get_calculation_by_id saved key
        (first :: rest) =
      match answer_calculation_ids (sa_interaction_id first) with
      | Raise e => (Raise e, saved)
      | Ok calc_ids =>
          match for_each get_calculation_by_id calc_ids with
          | Raise e => (Raise e, saved)
          | Ok calculations =>
              run_calculations calculations combined saved
          end
      end.
Proof.
  intros Hkey. unfold reduce, combine_state_answers. rewrite Hkey. simpl.
  eexists. split; [reflexivity|]. simpl.
  repeat split.
  apply (length_chain_answers (first :: rest)).
Qed.

(** When every calculation succeeds, its output is saved, in the order
    of the registered calculation ids. *)
Lemma run_calculations_all_ok
    (calculations : list (calculation answer calc_output)) combined saved
    (outputs : list calc_output) :
  Forall2 (λ calc out, calc combined = Ok out) calculations outputs →
  run_calculations calculations combined saved =
  (Ok (), (saved ++ outputs)%list).
Proof.
  intros H. revert saved.
  induction H as [|calc out calcs outs Hcalc _ IH]; intros saved; simpl.
  - by rewrite app_nil_r.
  - rewrite Hcalc, IH. by rewrite <- app_assoc.
Qed.

End AnswerSummaryProperties.

(** * Properties of the reduce loop *)

Section LoopProperties.

Import StatisticsMRJobManager.

Lemma field_bucket_add k f x hc k' f' :
  field (bucket_add k f x hc) k' f' =
  if decide (k = k' ∧ f = f') then Some (count hc k f + x)
  else field hc k' f'.
Proof.
  unfold field, count, field, bucket_add.
  destruct (decide (k = k')) as [<-|Hk].
  - rewrite lookup_insert_eq. simpl.
    destruct (decide (f = f')) as [<-|Hf].
    + rewrite lookup_insert_eq, decide_True by done.
      destruct (hc !! k); done.
    + rewrite lookup_insert_ne, decide_False by tauto.
      destruct (hc !! k); done.
  - rewrite lookup_insert_ne, decide_False by tauto. done.
Qed.

Lemma count_bucket_add k f x hc k' f' :
  count (bucket_add k f x hc) k' f' =
  if decide (k = k' ∧ f = f') then count hc k f + x else count hc k' f'.
Proof.
  unfold count at 1. rewrite field_bucket_add. by case_decide.
Qed.

Lemma bucket_add_lookup_ne k f x hc k' :
  k ≠ k' → bucket_add k f x hc !! k' = hc !! k'.
Proof. intros. unfold bucket_add. by rewrite lookup_insert_ne. Qed.

Lemma fold_counter_bucket_adds c hc :
  bucket_add (Some (cv_state_name c)) total_entry_count
    (cv_first_entry_count c + cv_subsequent_entries_count c)
    (bucket_add (Some (cv_state_name c)) first_entry_count
       (cv_first_entry_count c)
       (bucket_add (Some (cv_state_name c)) no_answer_count
          (cv_first_entry_count c + cv_subsequent_entries_count c
           - cv_resolved_answer_count c - cv_active_answer_count c) hc)) =
  fold_counter c hc.
Proof.
  unfold fold_counter, count, field, bucket_add.
  rewrite !lookup_insert_eq, !insert_insert_eq. simpl.
  rewrite !lookup_insert_ne by done.
  destruct (hc !! Some (cv_state_name c)); done.
Qed.

(** C4. A legacy record sets the legacy start count when its state is
    the initial state of the resolved exploration, sets the legacy
    completion count when its state is the old end state ['END'], and is
    folded into the bucket of its state exactly when its state is not
    ['END']: a record of the initial state does both. Nothing else
    changes. *)
Theorem process_counter_legacy_record exploration c a :
  let a' := process_counter exploration c a in
  old_models_start_count a' =
    (if decide (cv_state_name c = exp_init_state_name exploration)
     then cv_first_entry_count c else old_models_start_count a)
  ∧ old_models_complete_count a' =
    (if decide (cv_state_name c = OLD_END_DEST)
     then cv_first_entry_count c else old_models_complete_count a)
  ∧ state_hit_counts a' =
    (if decide (cv_state_name c = OLD_END_DEST)
     then state_hit_counts a else fold_counter c (state_hit_counts a))
  ∧ new_models_start_count a' = new_models_start_count a
  ∧ new_models_complete_count a' = new_models_complete_count a
  ∧ new_models_end_sessions a' = new_models_end_sessions a
  ∧ session_id_to_latest_leave_evt a' = session_id_to_latest_leave_evt a
  ∧ state_session_ids a' = state_session_ids a.
Proof.
  cbv zeta. unfold process_counter.
  destruct (decide (Some (cv_state_name c)
                    = Some (exp_init_state_name exploration)))
    as [Hi|Hi];
    destruct (decide (Some (cv_state_name c) = Some OLD_END_DEST))
      as [He|He];
    simplify_eq; simpl;
    repeat (rewrite decide_True by congruence);
    repeat (rewrite decide_False by congruence);
    rewrite ?fold_counter_bucket_adds; repeat split; try done;
    case_decide; congruence.
Qed.

End LoopProperties.

(** * Totals of the reduce loop *)

Section LoopTotals.

Import StatisticsMRJobManager.

Lemma process_values_snoc exploration a values v :
  process_values exploration a (values ++ [v]) =
  process_value exploration (process_values exploration a values) v.
Proof. unfold process_values. by rewrite foldl_snoc. Qed.

Lemma count_events_snoc t values v :
  count_events t (values ++ [v]) =
  count_events t values + (if is_event_of_type t v then 1 else 0).
Proof.
  unfold count_events. rewrite filter_app, length_app.
  rewrite filter_cons, filter_nil.
  destruct (decide (is_event_of_type t v)) as [H|H];
    destruct (is_event_of_type t v); simpl in *; try done; lia.
Qed.

Lemma legacy_count_snoc name values v :
  legacy_count name (values ++ [v]) =
  match counter_at name v with
  | Some c => cv_first_entry_count c
  | None => legacy_count name values
  end.
Proof.
  unfold legacy_count. rewrite omap_app. simpl.
  destruct (counter_at name v) as [c|]; simpl.
  - by rewrite last_snoc.
  - by rewrite app_nil_r.
Qed.

Lemma new_models_start_count_step exploration a v :
  new_models_start_count (process_value exploration a v) =
  new_models_start_count a
  + (if is_event_of_type EVENT_TYPE_START_EXPLORATION v then 1 else 0).
Proof. destruct v; step_cases; congruence || lia. Qed.

Lemma new_models_complete_count_step exploration a v :
  new_models_complete_count (process_value exploration a v) =
  new_models_complete_count a
  + (if is_event_of_type EVENT_TYPE_COMPLETE_EXPLORATION v then 1 else 0).
Proof. destruct v; step_cases; congruence || lia. Qed.

Lemma old_models_start_count_step exploration a v :
  old_models_start_count (process_value exploration a v) =
  match counter_at (exp_init_state_name exploration) v with
  | Some c => cv_first_entry_count c
  | None => old_models_start_count a
  end.
Proof. destruct v; step_cases; congruence. Qed.

Lemma old_models_complete_count_step exploration a v :
  old_models_complete_count (process_value exploration a v) =
  match counter_at OLD_END_DEST v with
  | Some c => cv_first_entry_count c
  | None => old_models_complete_count a
  end.
Proof. destruct v; step_cases; congruence. Qed.

Lemma new_models_start_count_loop exploration values :
  new_models_start_count
    (process_values exploration (initial_locals exploration) values) =
  count_events EVENT_TYPE_START_EXPLORATION values.
Proof.
  induction values as [|v values IH] using rev_ind; [done|].
  rewrite process_values_snoc, new_models_start_count_step, IH.
  by rewrite count_events_snoc.
Qed.

Lemma new_models_complete_count_loop exploration values :
  new_models_complete_count
    (process_values exploration (initial_locals exploration) values) =
  count_events EVENT_TYPE_COMPLETE_EXPLORATION values.
Proof.
  induction values as [|v values IH] using rev_ind; [done|].
  rewrite process_values_snoc, new_models_complete_count_step, IH.
  by rewrite count_events_snoc.
Qed.

Lemma old_models_start_count_loop exploration values :
  old_models_start_count
    (process_values exploration (initial_locals exploration) values) =
  legacy_count (exp_init_state_name exploration) values.
Proof.
  induction values as [|v values IH] using rev_ind; [done|].
  rewrite process_values_snoc, old_models_start_count_step, IH.
  by rewrite legacy_count_snoc.
Qed.

Lemma old_models_complete_count_loop exploration values :
  old_models_complete_count
    (process_values exploration (initial_locals exploration) values) =
  legacy_count OLD_END_DEST values.
Proof.
  induction values as [|v values IH] using rev_ind; [done|].
  rewrite process_values_snoc, old_models_complete_count_step, IH.
  by rewrite legacy_count_snoc.
Qed.

(** Without legacy records there is no legacy contribution. *)
Lemma legacy_count_events name values :
  Forall (λ v, is_event v) values → legacy_count name values = 0.
Proof.
  intros H. unfold legacy_count.
  replace (omap (counter_at name) values) with (@nil counter_value);
    [done|].
  induction H as [|v values Hv _ IH]; [done|].
  destruct v; simpl in *; done.
Qed.

End LoopTotals.

(** * Sessions in the reduce loop *)

Section LoopSessions.

Import StatisticsMRJobManager.

Lemma new_models_end_sessions_step exploration a v s :
  s ∈ new_models_end_sessions (process_value exploration a v) ↔
  completes s v ∨ s ∈ new_models_end_sessions a.
Proof.
  destruct v; step_cases; destruct_and?;
    try (exfalso; congruence); set_solver.
Qed.

Lemma new_models_end_sessions_loop exploration values s :
  s ∈ new_models_end_sessions
        (process_values exploration (initial_locals exploration) values) ↔
  Exists (λ v, completes s v) values.
Proof.
  induction values as [|v values IH] using rev_ind.
  - simpl. rewrite Exists_nil. set_solver.
  - rewrite process_values_snoc, new_models_end_sessions_step, IH.
    rewrite Exists_app, Exists_cons, Exists_nil. tauto.
Qed.

Lemma completed_session_not_left exploration values s :
  Exists (λ v, completes s v) values →
  s ∉ leave_states
        (process_values exploration (initial_locals exploration) values).
Proof.
  intros Hcomplete [_ Hnot]%elem_of_difference. apply Hnot.
  by rewrite new_models_end_sessions_loop.
Qed.

Lemma session_id_to_latest_leave_evt_step exploration a v s :
  session_id_to_latest_leave_evt (process_value exploration a v) !! s =
  match leave_of s v with
  | Some p => track (session_id_to_latest_leave_evt a !! s) p
  | None => session_id_to_latest_leave_evt a !! s
  end.
Proof.
  unfold track.
  destruct v as [c|e]; step_cases; destruct_and?; simplify_eq;
    try done; try tauto;
    rewrite ?lookup_insert_eq, ?lookup_insert_ne by tauto;
    try done; try congruence;
    match goal with H : (_ <? _) = _ |- _ => by rewrite H end.
Qed.

Lemma session_id_to_latest_leave_evt_loop exploration values s :
  session_id_to_latest_leave_evt
    (process_values exploration (initial_locals exploration) values) !! s =
  foldl track None (omap (leave_of s) values).
Proof.
  induction values as [|v values IH] using rev_ind; [done|].
  rewrite process_values_snoc, session_id_to_latest_leave_evt_step, IH.
  rewrite omap_app. simpl.
  destruct (leave_of s v); simpl.
  - by rewrite foldl_snoc.
  - by rewrite app_nil_r.
Qed.

Lemma track_before cur before t :
  (default no_leave_evt cur).1 < t →
  Forall (λ p, p.1 < t) before →
  (default no_leave_evt (foldl track cur before)).1 < t.
Proof.
  intros Hcur H. revert cur Hcur.
  induction H as [|p before Hp _ IH]; intros cur Hcur; simpl; [done|].
  apply IH. unfold track. by destruct (_ <? _).
Qed.

Lemma track_after t k after :
  Forall (λ p, p.1 ≤ t) after →
  foldl track (Some (t, k)) after = Some (t, k).
Proof.
  induction 1 as [|p after Hp _ IH]; simpl; [done|].
  unfold track at 2. simpl.
  destruct (Z.ltb_spec t p.1); [lia|]. done.
Qed.

Lemma retained_leave_tracked values s t k :
  retained_leave values s t k →
  foldl track None (omap (leave_of s) values) = Some (t, k).
Proof.
  intros (before & after & -> & Ht & Hbefore & Hafter).
  rewrite foldl_app. simpl.
  pose proof (track_before None before t Ht Hbefore) as Hlt.
  unfold track at 2.
  destruct (Z.ltb_spec (default no_leave_evt (foldl track None before)).1
              (t, k).1); simpl in *; [|lia].
  by apply track_after.
Qed.

End LoopSessions.

(** * Buckets in the reduce loop *)

Section LoopBuckets.

Import StatisticsMRJobManager.

Local Arguments field : simpl never.
Local Arguments count : simpl never.

Lemma field_Some_count hc k f :
  is_Some (field hc k f) → field hc k f = Some (count hc k f).
Proof. intros [x Hx]. unfold count. by rewrite Hx. Qed.

Lemma initial_state_hit_counts exploration k :
  state_hit_counts (initial_locals exploration) !! k =
  if decide (k ∈ Some <$> exp_states exploration) then Some zero_bucket
  else None.
Proof.
  unfold initial_locals. simpl.
  induction (exp_states exploration) as [|s states IH] using rev_ind.
  - cbn [foldl]. rewrite lookup_empty.
    case_decide as H; [by apply elem_of_nil in H|done].
  - rewrite foldl_snoc, fmap_app, lookup_insert, IH. simpl.
    repeat case_decide; set_solver.
Qed.

Lemma initial_state_session_ids exploration k :
  state_session_ids (initial_locals exploration) !! k =
  if decide (k ∈ Some <$> exp_states exploration) then Some ∅ else None.
Proof.
  unfold initial_locals. simpl.
  induction (exp_states exploration) as [|s states IH] using rev_ind.
  - cbn [foldl]. rewrite lookup_empty.
    case_decide as H; [by apply elem_of_nil in H|done].
  - rewrite foldl_snoc, fmap_app, lookup_insert, IH. simpl.
    repeat case_decide; set_solver.
Qed.

Lemma initial_count exploration k f :
  count (state_hit_counts (initial_locals exploration)) k f = 0.
Proof.
  unfold count, field. rewrite initial_state_hit_counts.
  case_decide; [|done]. simpl. unfold zero_bucket.
  rewrite !lookup_insert, lookup_empty. by repeat case_decide.
Qed.

Lemma initial_field_known exploration s f :
  s ∈ exp_states exploration →
  f ∈ [total_entry_count; first_entry_count; no_answer_count] →
  is_Some (field (state_hit_counts (initial_locals exploration)) (Some s) f).
Proof.
  intros Hs Hf. unfold field. rewrite initial_state_hit_counts.
  rewrite decide_True by (by apply list_elem_of_fmap_2).
  simpl. unfold zero_bucket.
  rewrite !lookup_insert, lookup_empty.
  repeat case_decide; try done. set_solver.
Qed.

Lemma count_step exploration a v k f :
  count (state_hit_counts (process_value exploration a v)) k f =
  count (state_hit_counts a) k f + legacy_delta k f v
  + (if decide (f = total_entry_count ∧ is_Some (hit_at k v))
     then 1 else 0).
Proof.
  destruct v as [c|e].
  - unfold process_value, process_counter, legacy_delta, hit_at.
    rewrite (decide_False (P := _ ∧ is_Some None)) by
      (intros [_ [? ?]]; done).
    destruct (decide (Some (cv_state_name c) = Some OLD_END_DEST))
      as [Hend|Hend].
    + rewrite (decide_False (P := _ ∧ _ ≠ OLD_END_DEST)) by
        (intros [_ ?]; congruence).
      destruct (decide (_ = Some (exp_init_state_name _))); simpl; lia.
    + assert (state_hit_counts
                (if decide (Some (cv_state_name c)
                            = Some (exp_init_state_name exploration))
                 then set_old_models_start_count (cv_first_entry_count c) a
                 else a) = state_hit_counts a) as ->
        by (by case_decide).
      simpl. rewrite !count_bucket_add.
      unfold total_entry_count, first_entry_count, no_answer_count.
      repeat case_decide; destruct_and?; simplify_eq; absurd_or_lia.
  - unfold legacy_delta.
    destruct (decide (f = total_entry_count ∧ is_Some (hit_at k (VEvent e))))
      as [[-> Hhit]|Hhit]; step_cases;
      rewrite ?count_bucket_add; repeat case_decide;
      destruct_and?; simplify_eq; absurd_or_lia.
Qed.

Lemma field_step_mono exploration a v k f :
  is_Some (field (state_hit_counts a) k f) →
  is_Some (field (state_hit_counts (process_value exploration a v)) k f).
Proof.
  intros H. destruct v as [c|e]; step_cases;
    rewrite ?field_bucket_add; repeat case_decide; done.
Qed.

Lemma field_step_hit exploration a v k s :
  hit_at k v = Some s →
  is_Some (field (state_hit_counts (process_value exploration a v)) k
             total_entry_count).
Proof.
  intros H. destruct v as [c|e]; step_cases;
    destruct_and?; simplify_eq; try absurd_or_lia.
  rewrite field_bucket_add, decide_True by done. done.
Qed.

Lemma state_session_ids_step exploration a v k :
  default ∅ (state_session_ids (process_value exploration a v) !! k) =
  match hit_at k v with
  | Some s => {[s]} ∪ default ∅ (state_session_ids a !! k)
  | None => default ∅ (state_session_ids a !! k)
  end.
Proof.
  destruct v as [c|e]; step_cases;
    destruct_and?; simplify_eq; try done; try absurd_or_lia;
    unfold session_add.
  - by rewrite lookup_insert_eq.
  - rewrite lookup_insert_ne; [done|]. naive_solver.
Qed.

Lemma state_session_ids_step_mono exploration a v k :
  is_Some (state_session_ids a !! k) →
  is_Some (state_session_ids (process_value exploration a v) !! k).
Proof.
  intros H. destruct v as [c|e]; step_cases; try done; unfold session_add.
  rewrite lookup_insert. by case_decide.
Qed.

Lemma state_session_ids_step_hit exploration a v k s :
  hit_at k v = Some s →
  is_Some (state_session_ids (process_value exploration a v) !! k).
Proof.
  intros H. destruct v as [c|e]; step_cases;
    destruct_and?; simplify_eq; try absurd_or_lia.
  unfold session_add. by rewrite lookup_insert_eq.
Qed.

End LoopBuckets.

(** * The buckets after the loop and after the two closing loops *)

Section FinalBuckets.

Import StatisticsMRJobManager.

Local Arguments field : simpl never.
Local Arguments count : simpl never.

Lemma foldr_add_acc (x : Z) (l : list Z) :
  foldr Z.add x l = foldr Z.add 0 l + x.
Proof. induction l as [|y l IH]; simpl; lia. Qed.

Lemma legacy_sum_snoc k f values v :
  legacy_sum k f (values ++ [v]) =
  legacy_sum k f values + legacy_delta k f v.
Proof.
  unfold legacy_sum. rewrite fmap_app, foldr_app. simpl.
  rewrite foldr_add_acc. lia.
Qed.

Lemma legacy_sum_events k f values :
  Forall (λ v, is_event v) values → legacy_sum k f values = 0.
Proof.
  unfold legacy_sum.
  induction 1 as [|v values Hv _ IH]; [done|].
  rewrite fmap_cons. simpl. rewrite IH. by destruct v.
Qed.

Lemma hit_sessions_snoc k values v :
  hit_sessions k (values ++ [v]) =
  (hit_sessions k values ++ option_list (hit_at k v))%list.
Proof.
  unfold hit_sessions. rewrite omap_app. simpl.
  by destruct (hit_at k v).
Qed.

Lemma count_loop exploration values k f :
  count (state_hit_counts
           (process_values exploration (initial_locals exploration) values))
    k f =
  legacy_sum k f values
  + (if decide (f = total_entry_count)
     then Z.of_nat (length (hit_sessions k values)) else 0).
Proof.
  induction values as [|v values IH] using rev_ind.
  - unfold process_values. cbn [foldl].
    rewrite initial_count. by case_decide.
  - rewrite process_values_snoc, count_step, IH, legacy_sum_snoc,
      hit_sessions_snoc, length_app.
    destruct (hit_at k v) as [s|]; simpl;
      repeat case_decide; destruct_and?; absurd_or_lia.
Qed.

Lemma field_loop_known exploration values s f :
  s ∈ exp_states exploration →
  f ∈ [total_entry_count; first_entry_count; no_answer_count] →
  is_Some
    (field (state_hit_counts
              (process_values exploration (initial_locals exploration)
                 values)) (Some s) f).
Proof.
  intros Hs Hf. induction values as [|v values IH] using rev_ind.
  - by apply initial_field_known.
  - rewrite process_values_snoc. by apply field_step_mono.
Qed.

Lemma field_loop_hit exploration values k :
  hit_sessions k values ≠ [] →
  is_Some
    (field (state_hit_counts
              (process_values exploration (initial_locals exploration)
                 values)) k total_entry_count).
Proof.
  induction values as [|v values IH] using rev_ind; [done|].
  rewrite hit_sessions_snoc, process_values_snoc. intros Hne.
  destruct (hit_at k v) as [s|] eqn:Hv.
  - by eapply field_step_hit.
  - simpl in Hne. rewrite app_nil_r in Hne.
    by apply field_step_mono, IH.
Qed.

Lemma state_session_ids_loop exploration values k :
  default ∅
    (state_session_ids
       (process_values exploration (initial_locals exploration) values)
     !! k) =
  list_to_set (hit_sessions k values).
Proof.
  induction values as [|v values IH] using rev_ind.
  - unfold process_values. cbn [foldl].
    rewrite initial_state_session_ids. by case_decide.
  - rewrite process_values_snoc, state_session_ids_step, IH,
      hit_sessions_snoc, list_to_set_app_L.
    destruct (hit_at k v); simpl; set_solver.
Qed.

Lemma state_session_ids_loop_Some exploration values k :
  k ∈ Some <$> exp_states exploration ∨ hit_sessions k values ≠ [] →
  is_Some
    (state_session_ids
       (process_values exploration (initial_locals exploration) values)
     !! k).
Proof.
  induction values as [|v values IH] using rev_ind.
  - intros [Hk|Hne]; [|done]. unfold process_values. cbn [foldl].
    rewrite initial_state_session_ids, decide_True by done. done.
  - rewrite hit_sessions_snoc, process_values_snoc. intros Hk.
    destruct (hit_at k v) as [s|] eqn:Hv.
    + by eapply state_session_ids_step_hit.
    + simpl in Hk. rewrite app_nil_r in Hk.
      by apply state_session_ids_step_mono, IH.
Qed.

Lemma field_add_first_entries ids hc k f :
  field (add_first_entries ids hc) k f =
  match ids !! k with
  | Some sessions =>
      if decide (f = first_entry_count)
      then Some (count hc k f + Z.of_nat (size sessions))
      else field hc k f
  | None => field hc k f
  end.
Proof.
  unfold add_first_entries. revert k f.
  apply (map_fold_weak_ind
           (λ r (m : gmap (option string) (gset string)),
              ∀ k f, field r k f =
                     match m !! k with
                     | Some sessions =>
                         if decide (f = first_entry_count)
                         then Some (count hc k f + Z.of_nat (size sessions))
                         else field hc k f
                     | None => field hc k f
                     end)).
  - intros k f. by rewrite lookup_empty.
  - intros i sessions m r Hi IH k f.
    rewrite field_bucket_add.
    destruct (decide (i = k)) as [<-|Hik].
    + rewrite lookup_insert_eq.
      destruct (decide (f = first_entry_count)) as [->|Hf].
      * rewrite decide_True by done. unfold count at 1.
        by rewrite IH, Hi.
      * rewrite decide_False by naive_solver. by rewrite IH, Hi.
    + rewrite lookup_insert_ne, decide_False by naive_solver. apply IH.
Qed.

Lemma field_add_no_answers_other evts sessions hc k f :
  f ≠ no_answer_count →
  field (add_no_answers evts sessions hc) k f = field hc k f.
Proof.
  intros Hf. unfold add_no_answers.
  apply (set_fold_ind_L (λ r (_ : gset string), field r k f = field hc k f));
    [done|].
  intros s X r _ IH. rewrite field_bucket_add, decide_False; [done|].
  naive_solver.
Qed.

Lemma field_add_no_answers_Some evts sessions hc s :
  s ∈ sessions →
  is_Some (field (add_no_answers evts sessions hc) (left_on evts s)
             no_answer_count).
Proof.
  unfold add_no_answers. revert s.
  apply (set_fold_ind_L
           (λ r (X : gset string),
              ∀ s, s ∈ X →
                   is_Some (field r (left_on evts s) no_answer_count))).
  - intros s Hs. by apply not_elem_of_empty in Hs.
  - intros x X r _ IH s Hs. rewrite field_bucket_add.
    case_decide; [done|]. apply IH.
    apply elem_of_union in Hs as [->%elem_of_singleton|Hs]; [|done].
    exfalso. naive_solver.
Qed.

Lemma count_add_no_answers evts sessions hc k :
  count (add_no_answers evts sessions hc) k no_answer_count =
  count hc k no_answer_count
  + Z.of_nat (size (filter (λ s, left_on evts s = k) sessions)).
Proof.
  unfold add_no_answers.
  apply (set_fold_ind_L
           (λ r (X : gset string),
              count r k no_answer_count =
              count hc k no_answer_count
              + Z.of_nat (size (filter (λ s, left_on evts s = k) X)))).
  - rewrite filter_empty_L by apply _. rewrite size_empty. lia.
  - intros x X r Hx IH. rewrite count_bucket_add.
    rewrite filter_union_L by apply _.
    rewrite size_union by set_solver.
    fold (left_on evts x).
    destruct (decide (left_on evts x = k)) as [Hk|Hk].
    + rewrite decide_True by done.
      rewrite filter_singleton_True_L by (done || apply _).
      rewrite size_singleton.
      subst k. rewrite IH. lia.
    + rewrite decide_False by naive_solver.
      rewrite filter_singleton_False_L by (done || apply _).
      rewrite size_empty.
      rewrite IH. lia.
Qed.

Lemma lookup_add_first_entries ids hc k :
  add_first_entries ids hc !! k =
  match ids !! k with
  | Some sessions =>
      Some (<[first_entry_count :=
                count hc k first_entry_count + Z.of_nat (size sessions)]>
              (default ∅ (hc !! k)))
  | None => hc !! k
  end.
Proof.
  unfold add_first_entries. revert k.
  apply (map_fold_weak_ind
           (λ r (m : gmap (option string) (gset string)),
              ∀ k, r !! k =
                   match m !! k with
                   | Some sessions =>
                       Some (<[first_entry_count :=
                                 count hc k first_entry_count
                                 + Z.of_nat (size sessions)]>
                               (default ∅ (hc !! k)))
                   | None => hc !! k
                   end)).
  - intros k. by rewrite lookup_empty.
  - intros i sessions m r Hi IH k. unfold bucket_add.
    destruct (decide (i = k)) as [<-|Hik].
    + rewrite !lookup_insert_eq. specialize (IH i). rewrite Hi in IH.
      rewrite IH. unfold count, field. by destruct (hc !! i).
    + rewrite !lookup_insert_ne by done. apply IH.
Qed.

End FinalBuckets.

(** * Properties of the snapshot written by reduce *)

Section ReduceProperties.

Variable get_entity_id : string → string → string.
Variable get_exploration_by_id : string → option string → result Exploration.
Variable get_version : string → Z → result Exploration.

Import StatisticsMRJobManager.

Local Arguments field : simpl never.
Local Arguments count : simpl never.

Local Abbreviation resolve_exploration :=
  (resolve_exploration get_exploration_by_id get_version).
Local Abbreviation reduce :=
  (reduce get_entity_id get_exploration_by_id get_version).
Local Abbreviation loop exploration values :=
  (process_values exploration (initial_locals exploration) values).

(** With a resolved exploration, [reduce] returns normally and the store
    holds, under the entity id of the key, the snapshot of the totals and
    buckets computed from the values. *)
Lemma reduce_resolved now st key values exp_id version exploration :
  split ":" key = [exp_id; version] →
  resolve_exploration exp_id version = Ok exploration →
  (reduce now st key values).1 = Ok ()
  ∧ annotations (reduce now st key values).2
      !! get_entity_id exp_id version =
    Some {| an_exploration_id := exp_id;
            an_version := version;
            an_num_starts :=
              old_models_start_count (loop exploration values)
              + new_models_start_count (loop exploration values);
            an_num_completions :=
              old_models_complete_count (loop exploration values)
              + new_models_complete_count (loop exploration values);
            an_state_hit_counts :=
              final_state_hit_counts (loop exploration values);
            an_last_updated := now |}.
Proof.
  intros Hkey Hresolve. unfold StatisticsMRJobManager.reduce.
  rewrite Hkey, Hresolve. simpl. split; [done|].
  by rewrite lookup_insert_eq.
Qed.

(** C1. The snapshot written for a key counts as starts the legacy start
    count plus the number of start events among the values, and as
    completions the legacy completion count plus the number of complete
    events; without legacy records these are the numbers of start and of
    complete events. *)
Theorem reduce_start_and_completion_totals
    now st key values exp_id version exploration :
  split ":" key = [exp_id; version] →
  resolve_exploration exp_id version = Ok exploration →
  ∃ snapshot,
    (reduce now st key values).1 = Ok ()
    ∧ annotations (reduce now st key values).2
        !! get_entity_id exp_id version = Some snapshot
    ∧ an_num_starts snapshot =
        legacy_count (exp_init_state_name exploration) values
        + count_events EVENT_TYPE_START_EXPLORATION values
    ∧ an_num_completions snapshot =
        legacy_count OLD_END_DEST values
        + count_events EVENT_TYPE_COMPLETE_EXPLORATION values
    ∧ (Forall (λ v, is_event v) values →
       an_num_starts snapshot =
         count_events EVENT_TYPE_START_EXPLORATION values
       ∧ an_num_completions snapshot =
         count_events EVENT_TYPE_COMPLETE_EXPLORATION values).
Proof.
  intros Hkey Hresolve.
  destruct (reduce_resolved now st key values _ _ _ Hkey Hresolve)
    as [Hret Hsnap].
  eexists. split; [exact Hret|]. split; [exact Hsnap|]. simpl.
  rewrite old_models_start_count_loop, new_models_start_count_loop,
    old_models_complete_count_loop, new_models_complete_count_loop.
  repeat split; try done; rewrite legacy_count_events by done; lia.
Qed.

Lemma count_final_total exploration values k :
  count (final_state_hit_counts (loop exploration values)) k
    total_entry_count =
  legacy_sum k total_entry_count values
  + Z.of_nat (length (hit_sessions k values)).
Proof.
  unfold final_state_hit_counts, count at 1.
  rewrite field_add_no_answers_other, field_add_first_entries by done.
  pose proof (count_loop exploration values k total_entry_count) as Hc.
  rewrite decide_True in Hc by done. unfold count in Hc.
  destruct (_ !! k); rewrite ?decide_False by done; exact Hc.
Qed.

Lemma count_final_first exploration values k :
  count (final_state_hit_counts (loop exploration values)) k
    first_entry_count =
  legacy_sum k first_entry_count values
  + Z.of_nat (size (list_to_set (hit_sessions k values) : gset string)).
Proof.
  unfold final_state_hit_counts, count at 1.
  rewrite field_add_no_answers_other, field_add_first_entries by done.
  pose proof (state_session_ids_loop exploration values k) as Hids.
  pose proof (count_loop exploration values k first_entry_count) as Hc.
  rewrite decide_False in Hc by done.
  rewrite Z.add_0_r in Hc. rewrite <- Hids, <- Hc.
  destruct (_ !! k) as [sessions|]; cbn [default from_option id].
  - by rewrite decide_True.
  - rewrite size_empty. unfold count. lia.
Qed.

Lemma field_final_total exploration values k :
  k ∈ Some <$> exp_states exploration ∨ hit_sessions k values ≠ [] →
  is_Some (field (final_state_hit_counts (loop exploration values)) k
             total_entry_count).
Proof.
  intros Hk. unfold final_state_hit_counts.
  rewrite field_add_no_answers_other, field_add_first_entries by done.
  assert (is_Some (field (state_hit_counts (loop exploration values)) k
                     total_entry_count)) as Hsome.
  { destruct Hk as [(s & -> & Hs)%list_elem_of_fmap|Hne].
    - apply field_loop_known; [done|]. set_solver.
    - by apply field_loop_hit. }
  by destruct (_ !! k).
Qed.

Lemma field_final_first exploration values k :
  k ∈ Some <$> exp_states exploration ∨ hit_sessions k values ≠ [] →
  is_Some (field (final_state_hit_counts (loop exploration values)) k
             first_entry_count).
Proof.
  intros Hk. unfold final_state_hit_counts.
  rewrite field_add_no_answers_other, field_add_first_entries by done.
  destruct (state_session_ids_loop_Some exploration values k Hk)
    as [sessions ->].
  by rewrite decide_True.
Qed.

(** C2. Without legacy records, the snapshot written for a key holds for
    every state the number of its state hit events as total entry count
    and the number of distinct sessions of these events as first entry
    count: both counters read so when a missing counter reads as 0, and
    both counters are present for every state of the resolved
    exploration and every state that was hit. *)
Theorem reduce_entry_counts
    now st key values exp_id version exploration (k : option string) :
  split ":" key = [exp_id; version] →
  resolve_exploration exp_id version = Ok exploration →
  Forall (λ v, is_event v) values →
  let total_hits := Z.of_nat (length (hit_sessions k values)) in
  let distinct_sessions :=
    Z.of_nat (size (list_to_set (hit_sessions k values) : gset string)) in
  ∃ snapshot,
    annotations (reduce now st key values).2
      !! get_entity_id exp_id version = Some snapshot
    ∧ count (an_state_hit_counts snapshot) k total_entry_count = total_hits
    ∧ count (an_state_hit_counts snapshot) k first_entry_count =
        distinct_sessions
    ∧ (k ∈ Some <$> exp_states exploration ∨ hit_sessions k values ≠ [] →
       field (an_state_hit_counts snapshot) k total_entry_count =
         Some total_hits
       ∧ field (an_state_hit_counts snapshot) k first_entry_count =
         Some distinct_sessions).
Proof.
  intros Hkey Hresolve Hevents total_hits distinct_sessions.
  destruct (reduce_resolved now st key values _ _ _ Hkey Hresolve)
    as [_ Hsnap].
  eexists. split; [exact Hsnap|]. simpl.
  pose proof (count_final_total exploration values k) as Htotal.
  pose proof (count_final_first exploration values k) as Hfirst.
  rewrite legacy_sum_events in Htotal, Hfirst by done.
  split; [by rewrite Htotal|]. split; [by rewrite Hfirst|].
  intros Hk. split.
  - rewrite field_Some_count by (by apply field_final_total).
    by rewrite Htotal.
  - rewrite field_Some_count by (by apply field_final_first).
    by rewrite Hfirst.
Qed.

Lemma count_final_no_answer exploration values k :
  count (final_state_hit_counts (loop exploration values)) k
    no_answer_count =
  legacy_sum k no_answer_count values
  + Z.of_nat
      (size (filter
               (λ s, left_on (session_id_to_latest_leave_evt
                                (loop exploration values)) s = k)
               (leave_states (loop exploration values)))).
Proof.
  unfold final_state_hit_counts.
  rewrite count_add_no_answers. f_equal.
  unfold count. rewrite field_add_first_entries.
  pose proof (count_loop exploration values k no_answer_count) as Hc.
  rewrite decide_False in Hc by done. unfold count in Hc.
  destruct (_ !! k); rewrite ?decide_False by done; rewrite Hc; lia.
Qed.

(** C3. A session whose retained maybe-leave event is in state [k] and
    that has no complete event among the values of the key is one of the
    sessions that left without completing, recorded as having left on
    [k]; a session with a complete event, earlier or later, is not one of
    them. The no answer count of a bucket is what the legacy records
    fold into it plus one for each session that left without completing
    and is recorded as having left on its state. *)
Theorem reduce_no_answer_of_abandoning_sessions
    now st key values exp_id version exploration
    (s : string) (t : Z) (k : option string) :
  split ":" key = [exp_id; version] →
  resolve_exploration exp_id version = Ok exploration →
  retained_leave values s t k →
  let a := loop exploration values in
  let left_without_completing (k' : option string) : gset string :=
    filter (λ s', left_on (session_id_to_latest_leave_evt a) s' = k')
           (leave_states a) in
  ∃ snapshot,
    annotations (reduce now st key values).2
      !! get_entity_id exp_id version = Some snapshot
    ∧ (∀ k', count (an_state_hit_counts snapshot) k' no_answer_count =
             legacy_sum k' no_answer_count values
             + Z.of_nat (size (left_without_completing k')))
    ∧ (¬ Exists (λ v, completes s v) values →
       s ∈ left_without_completing k
       ∧ field (an_state_hit_counts snapshot) k no_answer_count =
         Some (legacy_sum k no_answer_count values
               + Z.of_nat (size (left_without_completing k))))
    ∧ (Exists (λ v, completes s v) values →
       ∀ k', s ∉ left_without_completing k').
Proof.
  intros Hkey Hresolve Hretained a left_without_completing.
  destruct (reduce_resolved now st key values _ _ _ Hkey Hresolve)
    as [_ Hsnap].
  eexists. split; [exact Hsnap|]. simpl.
  assert (session_id_to_latest_leave_evt a !! s = Some (t, k)) as Hevt.
  { unfold a. rewrite session_id_to_latest_leave_evt_loop.
    by apply retained_leave_tracked. }
  split; [intros k'; apply count_final_no_answer|]. split.
  - intros Hnone.
    assert (s ∈ leave_states a) as Hleft.
    { unfold leave_states. apply elem_of_difference. split.
      - apply elem_of_dom. by eexists.
      - unfold a. by rewrite new_models_end_sessions_loop. }
    assert (left_on (session_id_to_latest_leave_evt a) s = k) as Hon
      by (unfold left_on; by rewrite Hevt).
    split; [by apply elem_of_filter|].
    rewrite field_Some_count; [by rewrite count_final_no_answer|].
    unfold final_state_hit_counts. rewrite <- Hon.
    by apply field_add_no_answers_Some.
  - intros Hcomplete k' [_ Hin]%elem_of_filter.
    unfold leave_states in Hin. apply elem_of_difference in Hin as [_ Hin].
    apply Hin. unfold a. by rewrite new_models_end_sessions_loop.
Qed.

End ReduceProperties.

(** * The loop with and without one value *)

Section LoopWithoutOneValue.

Import StatisticsMRJobManager.

Local Arguments field : simpl never.
Local Arguments count : simpl never.

Local Abbreviation loop exploration values :=
  (process_values exploration (initial_locals exploration) values).

Lemma process_values_app exploration a values1 values2 :
  process_values exploration a (values1 ++ values2) =
  process_values exploration (process_values exploration a values1) values2.
Proof. unfold process_values. apply foldl_app. Qed.

(** The bucket of [k'] after an addition depends on the bucket of [k']
    before it alone; and likewise for the session sets. *)
Lemma bucket_add_key (k : option string) (f : string) (x : Z)
    (hc hc' : hit_counts) (k' : option string) :
  hc !! k' = hc' !! k' →
  bucket_add k f x hc !! k' = bucket_add k f x hc' !! k'.
Proof.
  intros H. unfold bucket_add. destruct (decide (k = k')) as [->|Hne].
  - by rewrite !lookup_insert_eq, H.
  - by rewrite !lookup_insert_ne.
Qed.

Lemma session_add_key (k : option string) (s : string)
    (m m' : gmap (option string) (gset string)) (k' : option string) :
  m !! k' = m' !! k' →
  session_add k s m !! k' = session_add k s m' !! k'.
Proof.
  intros H. unfold session_add. destruct (decide (k = k')) as [->|Hne].
  - by rewrite !lookup_insert_eq, H.
  - by rewrite !lookup_insert_ne.
Qed.

(** One iteration acts on each bucket, each session set and each
    retained event by itself. *)
Lemma state_hit_counts_step_key exploration a a' v k :
  state_hit_counts a !! k = state_hit_counts a' !! k →
  state_hit_counts (process_value exploration a v) !! k =
  state_hit_counts (process_value exploration a' v) !! k.
Proof.
  intros H. destruct v as [c|e]; unfold process_value, process_counter,
    process_event; repeat case_decide; repeat destruct (_ <? _); simpl;
    try done; auto using bucket_add_key.
Qed.

Lemma state_session_ids_step_key exploration a a' v k :
  state_session_ids a !! k = state_session_ids a' !! k →
  state_session_ids (process_value exploration a v) !! k =
  state_session_ids (process_value exploration a' v) !! k.
Proof.
  intros H. destruct v as [c|e]; unfold process_value, process_counter,
    process_event; repeat case_decide; repeat destruct (_ <? _); simpl;
    try done; auto using session_add_key.
Qed.

Lemma state_hit_counts_from_key exploration values a a' k :
  state_hit_counts a !! k = state_hit_counts a' !! k →
  state_hit_counts (process_values exploration a values) !! k =
  state_hit_counts (process_values exploration a' values) !! k.
Proof.
  revert a a'. induction values as [|v values IH]; intros a a' H; [done|].
  apply IH. by apply state_hit_counts_step_key.
Qed.

Lemma state_session_ids_from_key exploration values a a' k :
  state_session_ids a !! k = state_session_ids a' !! k →
  state_session_ids (process_values exploration a values) !! k =
  state_session_ids (process_values exploration a' values) !! k.
Proof.
  revert a a'. induction values as [|v values IH]; intros a a' H; [done|].
  apply IH. by apply state_session_ids_step_key.
Qed.

Lemma session_id_to_latest_leave_evt_from_key exploration values a a' s :
  session_id_to_latest_leave_evt a !! s =
    session_id_to_latest_leave_evt a' !! s →
  session_id_to_latest_leave_evt (process_values exploration a values) !! s =
  session_id_to_latest_leave_evt (process_values exploration a' values) !! s.
Proof.
  revert a a'. induction values as [|v values IH]; intros a a' H; [done|].
  apply IH. rewrite !session_id_to_latest_leave_evt_step. by rewrite H.
Qed.

Lemma new_models_end_sessions_from exploration values a s :
  s ∈ new_models_end_sessions (process_values exploration a values) ↔
  Exists (λ v, completes s v) values ∨ s ∈ new_models_end_sessions a.
Proof.
  revert a. induction values as [|v values IH]; intros a.
  - simpl. rewrite Exists_nil. tauto.
  - change (process_values exploration a (v :: values))
      with (process_values exploration (process_value exploration a v)
              values).
    rewrite IH, new_models_end_sessions_step, Exists_cons. tauto.
Qed.

Lemma new_models_start_count_from exploration values a :
  new_models_start_count (process_values exploration a values) =
  new_models_start_count a
  + count_events EVENT_TYPE_START_EXPLORATION values.
Proof.
  induction values as [|v values IH] using rev_ind.
  - unfold count_events. simpl. lia.
  - rewrite process_values_snoc, new_models_start_count_step, IH,
      count_events_snoc. lia.
Qed.

Lemma new_models_complete_count_from exploration values a :
  new_models_complete_count (process_values exploration a values) =
  new_models_complete_count a
  + count_events EVENT_TYPE_COMPLETE_EXPLORATION values.
Proof.
  induction values as [|v values IH] using rev_ind.
  - unfold count_events. simpl. lia.
  - rewrite process_values_snoc, new_models_complete_count_step, IH,
      count_events_snoc. lia.
Qed.

Lemma old_models_start_count_from exploration values a a' :
  old_models_start_count a = old_models_start_count a' →
  old_models_start_count (process_values exploration a values) =
  old_models_start_count (process_values exploration a' values).
Proof.
  intros H. induction values as [|v values IH] using rev_ind; [done|].
  rewrite !process_values_snoc, !old_models_start_count_step. by rewrite IH.
Qed.

Lemma old_models_complete_count_from exploration values a a' :
  old_models_complete_count a = old_models_complete_count a' →
  old_models_complete_count (process_values exploration a values) =
  old_models_complete_count (process_values exploration a' values).
Proof.
  intros H. induction values as [|v values IH] using rev_ind; [done|].
  rewrite !process_values_snoc, !old_models_complete_count_step.
  by rewrite IH.
Qed.

End LoopWithoutOneValue.

(** ** The retained maybe-leave event *)

Lemma track_is_Some cur p : is_Some (track cur p).
Proof. unfold track. destruct (_ <? _); by eexists. Qed.

Lemma foldl_track_is_Some cur l : l ≠ [] → is_Some (foldl track cur l).
Proof.
  revert cur. induction l as [|p l IH]; intros cur Hl; [done|]. simpl.
  destruct l as [|q l]; [apply track_is_Some|]. by apply IH.
Qed.

Lemma foldl_track_default cur l :
  l ≠ [] → foldl track (Some (default no_leave_evt cur)) l = foldl track cur l.
Proof. destruct l as [|p l]; [done|]. intros _. by destruct cur. Qed.

(** The timestamp of the retained event is below [t] exactly when it was
    so before and all events seen since have a timestamp below [t]. *)
Lemma track_timestamp cur l t :
  (default no_leave_evt (foldl track cur l)).1 < t ↔
  (default no_leave_evt cur).1 < t ∧ Forall (λ p, p.1 < t) l.
Proof.
  revert cur. induction l as [|p l IH]; intros cur; simpl.
  - rewrite Forall_nil. tauto.
  - rewrite IH, Forall_cons. unfold track.
    destruct (Z.ltb_spec (default no_leave_evt cur).1 p.1); simpl in *;
      intuition lia.
Qed.

(** An event that is followed by one with a later timestamp is not
    retained: the outcome is as if it had not been seen. *)
Lemma track_overtaken cur p l :
  (default no_leave_evt cur).1 ≤ p.1 →
  Exists (λ q, p.1 < q.1) l →
  foldl track (Some p) l = foldl track cur l.
Proof.
  intros Hcur Hl. revert cur Hcur.
  induction Hl as [q l Hq|q l _ IH]; intros cur Hcur; simpl.
  - f_equal. unfold track. simpl.
    destruct (Z.ltb_spec p.1 q.1); [|lia].
    by destruct (Z.ltb_spec (default no_leave_evt cur).1 q.1); [|lia].
  - destruct (decide (p.1 < q.1)) as [Hq|Hq].
    + f_equal. unfold track. simpl.
      destruct (Z.ltb_spec p.1 q.1); [|lia].
      by destruct (Z.ltb_spec (default no_leave_evt cur).1 q.1); [|lia].
    + assert (track (Some p) q = Some p) as ->.
      { unfold track. simpl. by destruct (Z.ltb_spec p.1 q.1); [lia|]. }
      apply IH. unfold track.
      destruct (Z.ltb_spec (default no_leave_evt cur).1 q.1); simpl; lia.
Qed.

(** A maybe-leave event that is not the retained one of its session, in a
    session with other maybe-leave events, leaves the retained event as
    it is without it. *)
Lemma foldl_track_not_retained (l1 l2 : list (Z * option string)) p :
  ¬ (0 < p.1 ∧ Forall (λ q, q.1 < p.1) l1 ∧ Forall (λ q, q.1 ≤ p.1) l2) →
  (l1 ++ l2)%list ≠ [] →
  foldl track None (l1 ++ p :: l2) = foldl track None (l1 ++ l2).
Proof.
  intros Hnot Hne. rewrite !foldl_app. simpl.
  destruct (decide ((default no_leave_evt (foldl track None l1)).1 < p.1))
    as [Hlt|Hge].
  - pose proof Hlt as [H0 H1]%track_timestamp. simpl in H0.
    assert (Exists (λ q, p.1 < q.1) l2) as Hlater.
    { destruct (decide (Forall (λ q, q.1 ≤ p.1) l2)) as [H2|H2];
        [by destruct Hnot|].
      apply not_Forall_Exists in H2; [|apply _].
      eapply Exists_impl; [exact H2|]. simpl. intros. lia. }
    assert (track (foldl track None l1) p = Some p) as ->.
    { unfold track at 1. cbv zeta.
      by destruct (Z.ltb_spec
                     (default no_leave_evt (foldl track None l1)).1 p.1);
        [|lia]. }
    apply track_overtaken; [lia|done].
  - assert (track (foldl track None l1) p =
            Some (default no_leave_evt (foldl track None l1))) as ->.
    { unfold track at 1. cbv zeta.
      by destruct (Z.ltb_spec
                     (default no_leave_evt (foldl track None l1)).1 p.1);
        [lia|]. }
    destruct l2 as [|q l2]; [|by apply foldl_track_default].
    simpl. rewrite app_nil_r in Hne.
    by destruct (foldl_track_is_Some None l1 Hne) as [evt ->].
Qed.

Section SessionsWithoutOneValue.

Import StatisticsMRJobManager.

Local Abbreviation loop exploration values :=
  (process_values exploration (initial_locals exploration) values).

(** The sessions that left without completing are those with a
    maybe-leave event and without a complete event. *)
Lemma leave_states_loop exploration values s :
  s ∈ leave_states (loop exploration values) ↔
  omap (leave_of s) values ≠ [] ∧ ¬ Exists (λ v, completes s v) values.
Proof.
  unfold leave_states.
  rewrite elem_of_difference, elem_of_dom, new_models_end_sessions_loop,
    session_id_to_latest_leave_evt_loop.
  split; intros [Hl Hc]; (split; [|done]).
  - intros Hnil. rewrite Hnil in Hl. by destruct Hl.
  - by apply foldl_track_is_Some.
Qed.

Lemma left_without_completing_loop exploration values s k :
  s ∈ left_without_completing exploration values k ↔
  omap (leave_of s) values ≠ []
  ∧ ¬ Exists (λ v, completes s v) values
  ∧ (default no_leave_evt
       (foldl track None (omap (leave_of s) values))).2 = k.
Proof.
  unfold left_without_completing. rewrite elem_of_filter, leave_states_loop.
  unfold left_on. rewrite session_id_to_latest_leave_evt_loop. tauto.
Qed.

End SessionsWithoutOneValue.

(** * The snapshot with and without one event *)

Section FinalWithoutOneValue.

Import StatisticsMRJobManager.

Local Arguments field : simpl never.
Local Arguments count : simpl never.

Local Abbreviation loop exploration values :=
  (process_values exploration (initial_locals exploration) values).
Local Abbreviation final exploration values :=
  (final_state_hit_counts (loop exploration values)).

(** ** The closing loops act on each bucket by itself *)

Lemma add_no_answers_key (evts : gmap string (Z * option string))
    (sessions : gset string) (hc hc' : hit_counts) (k : option string) :
  hc !! k = hc' !! k →
  add_no_answers evts sessions hc !! k =
  add_no_answers evts sessions hc' !! k.
Proof.
  intros H. unfold add_no_answers, set_fold. simpl.
  induction (elements sessions) as [|s l IH]; simpl; [done|].
  by apply bucket_add_key.
Qed.

Lemma add_no_answers_ext (evts evts' : gmap string (Z * option string))
    (sessions : gset string) (hc : hit_counts) :
  (∀ s, s ∈ sessions → evts !! s = evts' !! s) →
  add_no_answers evts sessions hc = add_no_answers evts' sessions hc.
Proof.
  intros H. unfold add_no_answers, set_fold. simpl.
  assert (Forall (λ s, evts !! s = evts' !! s) (elements sessions)) as Hall.
  { apply Forall_forall. intros s Hs. apply H. by apply elem_of_elements. }
  induction Hall as [|s l Hs _ IH]; simpl; [done|]. by rewrite Hs, IH.
Qed.

Lemma field_add_no_answers_congr (evts : gmap string (Z * option string))
    (sessions : gset string) (hc hc' : hit_counts) (k : option string)
    (f : string) :
  field hc k f = field hc' k f →
  field (add_no_answers evts sessions hc) k f =
  field (add_no_answers evts sessions hc') k f.
Proof.
  intros H. unfold add_no_answers, set_fold. simpl.
  induction (elements sessions) as [|s l IH]; simpl; [done|].
  rewrite !field_bucket_add. case_decide as Hk; [|done].
  destruct Hk as [<- <-]. unfold count. by rewrite IH.
Qed.

Lemma field_add_first_entries_other
    (ids : gmap (option string) (gset string)) (hc : hit_counts)
    (k : option string) (f : string) :
  f ≠ first_entry_count →
  field (add_first_entries ids hc) k f = field hc k f.
Proof.
  intros Hf. rewrite field_add_first_entries.
  destruct (ids !! k); [by rewrite decide_False|done].
Qed.

Lemma add_first_entries_key (ids ids' : gmap (option string) (gset string))
    (hc hc' : hit_counts) (k : option string) :
  ids !! k = ids' !! k → hc !! k = hc' !! k →
  add_first_entries ids hc !! k = add_first_entries ids' hc' !! k.
Proof.
  intros Hids Hhc. rewrite !lookup_add_first_entries.
  unfold count, field. by rewrite Hids, Hhc.
Qed.

Lemma size_without (X : gset string) (s : string) :
  size X = (size (X ∖ {[s]}) + (if decide (s ∈ X) then 1 else 0))%nat.
Proof.
  case_decide as Hs.
  - rewrite (union_difference_L {[s]} X) at 1 by set_solver.
    rewrite size_union by set_solver. rewrite size_singleton. lia.
  - rewrite difference_disjoint_L by set_solver. lia.
Qed.

(** ** What an event does not touch *)

Lemma loop_with exploration before v after :
  loop exploration (before ++ v :: after)%list =
  process_values exploration
    (process_value exploration (loop exploration before) v) after.
Proof. by rewrite process_values_app. Qed.

Lemma loop_without exploration before after :
  loop exploration (before ++ after)%list =
  process_values exploration (loop exploration before) after.
Proof. by rewrite process_values_app. Qed.

Lemma state_hit_counts_without exploration before e after k :
  (ev_event_type e = EVENT_TYPE_STATE_HIT → ev_state_name e ≠ k) →
  state_hit_counts (loop exploration (before ++ VEvent e :: after)%list) !! k =
  state_hit_counts (loop exploration (before ++ after)%list) !! k.
Proof.
  intros He. rewrite loop_with, loop_without.
  apply state_hit_counts_from_key.
  unfold process_value, process_event.
  repeat case_decide; repeat destruct (_ <? _); simpl; try done.
  apply bucket_add_lookup_ne. auto.
Qed.

Lemma state_session_ids_without exploration before e after k :
  (ev_event_type e = EVENT_TYPE_STATE_HIT → ev_state_name e ≠ k) →
  state_session_ids (loop exploration (before ++ VEvent e :: after)%list) !! k =
  state_session_ids (loop exploration (before ++ after)%list) !! k.
Proof.
  intros He. rewrite loop_with, loop_without.
  apply state_session_ids_from_key.
  unfold process_value, process_event.
  repeat case_decide; repeat destruct (_ <? _); simpl; try done.
  unfold session_add. apply lookup_insert_ne. auto.
Qed.

Lemma leave_of_without before e after s :
  leave_of s (VEvent e) = None →
  omap (leave_of s) (before ++ VEvent e :: after)%list =
  omap (leave_of s) (before ++ after)%list.
Proof. intros He. rewrite !omap_app. simpl in *. by rewrite He. Qed.

Lemma leave_of_with before e after :
  ev_event_type e = EVENT_TYPE_MAYBE_LEAVE_EXPLORATION →
  omap (leave_of (ev_session_id e)) (before ++ VEvent e :: after)%list =
  (omap (leave_of (ev_session_id e)) before
   ++ (ev_created_on e, ev_state_name e)
      :: omap (leave_of (ev_session_id e)) after)%list.
Proof.
  intros He. rewrite !omap_app. simpl. by rewrite decide_True.
Qed.

Lemma completes_without before e after s :
  completes s (VEvent e) = false →
  Exists (λ v, completes s v) (before ++ VEvent e :: after)%list ↔
  Exists (λ v, completes s v) (before ++ after)%list.
Proof.
  intros He. rewrite !Exists_app, Exists_cons. rewrite He.
  naive_solver.
Qed.

Lemma completes_with before e after :
  ev_event_type e = EVENT_TYPE_COMPLETE_EXPLORATION →
  Exists (λ v, completes (ev_session_id e) v) (before ++ VEvent e :: after)%list.
Proof.
  intros He. apply Exists_app. right. left. simpl.
  by apply bool_decide_pack.
Qed.

(** The sessions other than the one of the event are counted as without
    the event. *)
Lemma left_without_completing_other exploration before e after s k :
  s ≠ ev_session_id e →
  s ∈ left_without_completing exploration (before ++ VEvent e :: after)%list k ↔
  s ∈ left_without_completing exploration (before ++ after)%list k.
Proof.
  intros Hs. rewrite !left_without_completing_loop.
  rewrite leave_of_without, completes_without; [done| |].
  - simpl. apply bool_decide_eq_false. naive_solver.
  - simpl. apply decide_False. naive_solver.
Qed.

Lemma legacy_sum_app k f values1 values2 :
  legacy_sum k f (values1 ++ values2)%list =
  legacy_sum k f values1 + legacy_sum k f values2.
Proof.
  unfold legacy_sum. rewrite fmap_app, foldr_app.
  rewrite foldr_add_acc. lia.
Qed.

Lemma legacy_sum_without k f before e after :
  legacy_sum k f (before ++ VEvent e :: after)%list =
  legacy_sum k f (before ++ after)%list.
Proof.
  rewrite !legacy_sum_app.
  change (VEvent e :: after) with ([VEvent e] ++ after)%list.
  rewrite legacy_sum_app. unfold legacy_sum at 2. simpl. lia.
Qed.

Lemma legacy_count_without name before e after :
  legacy_count name (before ++ VEvent e :: after)%list =
  legacy_count name (before ++ after)%list.
Proof. unfold legacy_count. by rewrite !omap_app. Qed.

Lemma count_events_without t before e after :
  count_events t (before ++ VEvent e :: after)%list =
  count_events t (before ++ after)%list
  + (if decide (ev_event_type e = t) then 1 else 0).
Proof.
  unfold count_events. rewrite !filter_app, filter_cons, !length_app.
  destruct (decide (ev_event_type e = t)) as [Ht|Ht].
  - rewrite decide_True by (simpl; by apply bool_decide_pack).
    simpl. lia.
  - rewrite decide_False by (simpl; by intros H%bool_decide_unpack).
    simpl. lia.
Qed.

Lemma hit_sessions_without k before e after :
  hit_sessions k (before ++ VEvent e :: after)%list =
  (hit_sessions k before
   ++ (if decide (ev_event_type e = EVENT_TYPE_STATE_HIT ∧ ev_state_name e = k)
       then [ev_session_id e] else [])
   ++ hit_sessions k after)%list.
Proof.
  unfold hit_sessions. rewrite omap_app. simpl. by case_decide.
Qed.

(** ** The totals *)

Lemma totals_without exploration before e after :
  let a := loop exploration (before ++ VEvent e :: after)%list in
  let a0 := loop exploration (before ++ after)%list in
  old_models_start_count a + new_models_start_count a =
    old_models_start_count a0 + new_models_start_count a0
    + (if decide (ev_event_type e = EVENT_TYPE_START_EXPLORATION)
       then 1 else 0)
  ∧ old_models_complete_count a + new_models_complete_count a =
    old_models_complete_count a0 + new_models_complete_count a0
    + (if decide (ev_event_type e = EVENT_TYPE_COMPLETE_EXPLORATION)
       then 1 else 0).
Proof.
  cbv zeta.
  rewrite !old_models_start_count_loop, !new_models_start_count_loop,
    !old_models_complete_count_loop, !new_models_complete_count_loop.
  rewrite !legacy_count_without, !count_events_without. lia.
Qed.

(** ** The no answer counts *)

(** Whatever the event, the no answer count of a bucket differs from the
    one without it by the session of the event alone. *)
Lemma count_no_answer_without exploration before e after k :
  let values := (before ++ VEvent e :: after)%list in
  let values0 := (before ++ after)%list in
  let s := ev_session_id e in
  count (final exploration values) k no_answer_count =
  count (final exploration values0) k no_answer_count
  - (if decide (s ∈ left_without_completing exploration values0 k)
     then 1 else 0)
  + (if decide (s ∈ left_without_completing exploration values k)
     then 1 else 0).
Proof.
  cbv zeta. rewrite !count_final_no_answer, legacy_sum_without.
  change (filter (λ s, left_on (session_id_to_latest_leave_evt
                                  (loop exploration ?values)) s = k)
                 (leave_states (loop exploration ?values)))
    with (left_without_completing exploration values k).
  rewrite (size_without
             (left_without_completing exploration
                (before ++ VEvent e :: after)%list k) (ev_session_id e)).
  rewrite (size_without
             (left_without_completing exploration (before ++ after)%list k)
             (ev_session_id e)).
  assert (left_without_completing exploration
            (before ++ VEvent e :: after)%list k ∖ {[ev_session_id e]} =
          left_without_completing exploration (before ++ after)%list k
            ∖ {[ev_session_id e]}) as ->.
  { apply set_eq. intros s. rewrite !elem_of_difference, !elem_of_singleton.
    destruct (decide (s = ev_session_id e)) as [->|Hs]; [tauto|].
    by rewrite left_without_completing_other. }
  repeat case_decide; lia.
Qed.

Lemma field_no_answer_counted exploration values s k :
  s ∈ left_without_completing exploration values k →
  is_Some (field (final exploration values) k no_answer_count).
Proof.
  unfold left_without_completing. intros [<- Hs]%elem_of_filter.
  unfold final_state_hit_counts. by apply field_add_no_answers_Some.
Qed.

End FinalWithoutOneValue.

(** * Events of each kind, with and without the event *)

Section EventKinds.

Import StatisticsMRJobManager.

Local Arguments field : simpl never.
Local Arguments count : simpl never.

Local Abbreviation loop exploration values :=
  (process_values exploration (initial_locals exploration) values).
Local Abbreviation final exploration values :=
  (final_state_hit_counts (loop exploration values)).

Lemma state_hit_counts_step_field exploration a a' v k f :
  field (state_hit_counts a) k f = field (state_hit_counts a') k f →
  field (state_hit_counts (process_value exploration a v)) k f =
  field (state_hit_counts (process_value exploration a' v)) k f.
Proof.
  intros H. destruct v as [c|e]; unfold process_value, process_counter,
    process_event; repeat case_decide; repeat destruct (_ <? _); simpl;
    try done;
    rewrite ?field_bucket_add, ?count_bucket_add;
    repeat case_decide; destruct_and?; simplify_eq; try done;
    unfold count; by rewrite ?H.
Qed.

Lemma state_hit_counts_from_field exploration values a a' k f :
  field (state_hit_counts a) k f = field (state_hit_counts a') k f →
  field (state_hit_counts (process_values exploration a values)) k f =
  field (state_hit_counts (process_values exploration a' values)) k f.
Proof.
  revert a a'. induction values as [|v values IH]; intros a a' H; [done|].
  apply IH. by apply state_hit_counts_step_field.
Qed.

(** An event that is no state hit leaves the buckets and the session sets
    of the loop; one that is no maybe-leave event leaves the retained
    events; one that is no complete event leaves the completed
    sessions. *)
Lemma state_hit_counts_eq exploration before e after :
  ev_event_type e ≠ EVENT_TYPE_STATE_HIT →
  state_hit_counts (loop exploration (before ++ VEvent e :: after)%list) =
  state_hit_counts (loop exploration (before ++ after)%list).
Proof.
  intros He. apply map_eq. intros k. by apply state_hit_counts_without.
Qed.

Lemma state_session_ids_eq exploration before e after :
  ev_event_type e ≠ EVENT_TYPE_STATE_HIT →
  state_session_ids (loop exploration (before ++ VEvent e :: after)%list) =
  state_session_ids (loop exploration (before ++ after)%list).
Proof.
  intros He. apply map_eq. intros k. by apply state_session_ids_without.
Qed.

Lemma session_id_to_latest_leave_evt_other exploration before e after s :
  ev_event_type e ≠ EVENT_TYPE_MAYBE_LEAVE_EXPLORATION
  ∨ ev_session_id e ≠ s →
  session_id_to_latest_leave_evt
    (loop exploration (before ++ VEvent e :: after)%list) !! s =
  session_id_to_latest_leave_evt
    (loop exploration (before ++ after)%list) !! s.
Proof.
  intros He. rewrite !session_id_to_latest_leave_evt_loop.
  rewrite leave_of_without; [done|]. simpl. apply decide_False. tauto.
Qed.

Lemma session_id_to_latest_leave_evt_eq exploration before e after :
  ev_event_type e ≠ EVENT_TYPE_MAYBE_LEAVE_EXPLORATION →
  session_id_to_latest_leave_evt
    (loop exploration (before ++ VEvent e :: after)%list) =
  session_id_to_latest_leave_evt (loop exploration (before ++ after)%list).
Proof.
  intros He. apply map_eq. intros s.
  apply session_id_to_latest_leave_evt_other. by left.
Qed.

Lemma new_models_end_sessions_eq exploration before e after :
  ev_event_type e ≠ EVENT_TYPE_COMPLETE_EXPLORATION →
  new_models_end_sessions
    (loop exploration (before ++ VEvent e :: after)%list) =
  new_models_end_sessions (loop exploration (before ++ after)%list).
Proof.
  intros He. apply set_eq. intros s.
  rewrite !new_models_end_sessions_loop. apply completes_without.
  simpl. apply bool_decide_eq_false. tauto.
Qed.

(** What is handed to the second closing loop is the same unless the
    event is a state hit. *)
Lemma add_first_entries_eq exploration before e after :
  ev_event_type e ≠ EVENT_TYPE_STATE_HIT →
  let a := loop exploration (before ++ VEvent e :: after)%list in
  let a0 := loop exploration (before ++ after)%list in
  add_first_entries (state_session_ids a) (state_hit_counts a) =
  add_first_entries (state_session_ids a0) (state_hit_counts a0).
Proof.
  intros He. cbv zeta.
  by rewrite state_hit_counts_eq, state_session_ids_eq.
Qed.

(** An event that is neither a state hit nor a maybe-leave nor a complete
    event leaves all buckets. *)
Lemma final_without exploration before e after :
  ev_event_type e ≠ EVENT_TYPE_STATE_HIT →
  ev_event_type e ≠ EVENT_TYPE_MAYBE_LEAVE_EXPLORATION →
  ev_event_type e ≠ EVENT_TYPE_COMPLETE_EXPLORATION →
  final exploration (before ++ VEvent e :: after)%list =
  final exploration (before ++ after)%list.
Proof.
  intros Hhit Hleave Hcomplete. unfold final_state_hit_counts, leave_states.
  by rewrite state_hit_counts_eq, state_session_ids_eq,
    session_id_to_latest_leave_evt_eq, new_models_end_sessions_eq.
Qed.

(** The counters other than the no answer count are the same unless the
    event is a state hit. *)
Lemma field_final_other exploration before e after k f :
  ev_event_type e ≠ EVENT_TYPE_STATE_HIT →
  f ≠ no_answer_count →
  field (final exploration (before ++ VEvent e :: after)%list) k f =
  field (final exploration (before ++ after)%list) k f.
Proof.
  intros Hhit Hf. unfold final_state_hit_counts.
  rewrite !field_add_no_answers_other by done.
  by rewrite (add_first_entries_eq exploration before e after Hhit).
Qed.

(** ** A complete event *)

Lemma complete_not_counted exploration before e after k :
  ev_event_type e = EVENT_TYPE_COMPLETE_EXPLORATION →
  ev_session_id e
    ∉ left_without_completing exploration (before ++ VEvent e :: after)%list
        k.
Proof.
  intros He (_ & Hnot & _)%left_without_completing_loop.
  apply Hnot. by apply completes_with.
Qed.

Lemma final_without_complete exploration before e after :
  ev_event_type e = EVENT_TYPE_COMPLETE_EXPLORATION →
  (∀ k, ev_session_id e
          ∉ left_without_completing exploration (before ++ after)%list k) →
  final exploration (before ++ VEvent e :: after)%list =
  final exploration (before ++ after)%list.
Proof.
  intros He Hnot.
  assert (ev_event_type e ≠ EVENT_TYPE_STATE_HIT) as Hhit
    by (by rewrite He).
  assert (ev_event_type e ≠ EVENT_TYPE_MAYBE_LEAVE_EXPLORATION) as Hleave
    by (by rewrite He).
  assert (leave_states (loop exploration (before ++ VEvent e :: after)%list) =
          leave_states (loop exploration (before ++ after)%list)) as HL.
  { apply set_eq. intros s. rewrite !leave_states_loop.
    rewrite leave_of_without
      by (simpl; apply decide_False; intros [? _]; congruence).
    destruct (decide (s = ev_session_id e)) as [->|Hs].
    - split; intros [Hl Hc].
      + destruct Hc. by apply completes_with.
      + destruct (Hnot (default no_leave_evt
                          (foldl track None
                             (omap (leave_of (ev_session_id e))
                                (before ++ after)%list))).2).
        by apply left_without_completing_loop.
    - rewrite completes_without; [done|].
      simpl. apply bool_decide_eq_false. intros [_ ?]. congruence. }
  unfold final_state_hit_counts. rewrite HL.
  by rewrite state_hit_counts_eq, state_session_ids_eq,
    session_id_to_latest_leave_evt_eq.
Qed.

(** ** A state hit without a state name *)

Lemma final_named_without_null_hit exploration before e after name :
  ev_event_type e = EVENT_TYPE_STATE_HIT →
  ev_state_name e = None →
  final exploration (before ++ VEvent e :: after)%list !! Some name =
  final exploration (before ++ after)%list !! Some name.
Proof.
  intros He Hnull.
  assert (ev_event_type e ≠ EVENT_TYPE_MAYBE_LEAVE_EXPLORATION) as Hleave
    by (by rewrite He).
  assert (ev_event_type e ≠ EVENT_TYPE_COMPLETE_EXPLORATION) as Hcomplete
    by (by rewrite He).
  unfold final_state_hit_counts, leave_states.
  rewrite session_id_to_latest_leave_evt_eq, new_models_end_sessions_eq
    by done.
  apply add_no_answers_key, add_first_entries_key.
  - apply state_session_ids_without. intros _. by rewrite Hnull.
  - apply state_hit_counts_without. intros _. by rewrite Hnull.
Qed.

Lemma hit_sessions_with_null_hit before e after :
  ev_event_type e = EVENT_TYPE_STATE_HIT →
  ev_state_name e = None →
  hit_sessions None (before ++ VEvent e :: after)%list =
  (hit_sessions None before ++ ev_session_id e :: hit_sessions None after)%list
  ∧ hit_sessions None (before ++ after)%list =
    (hit_sessions None before ++ hit_sessions None after)%list.
Proof.
  intros He Hnull. unfold hit_sessions. rewrite !omap_app. simpl.
  by rewrite decide_True.
Qed.

Lemma field_total_with_null_hit exploration before e after :
  ev_event_type e = EVENT_TYPE_STATE_HIT →
  ev_state_name e = None →
  field (final exploration (before ++ VEvent e :: after)%list) None
    total_entry_count =
  Some (count (final exploration (before ++ after)%list) None
          total_entry_count + 1).
Proof.
  intros He Hnull.
  destruct (hit_sessions_with_null_hit before e after He Hnull)
    as [Hwith Hwithout].
  rewrite field_Some_count.
  - rewrite !count_final_total, legacy_sum_without, Hwith, Hwithout.
    rewrite !length_app. simpl. f_equal. lia.
  - unfold final_state_hit_counts.
    rewrite field_add_no_answers_other, field_add_first_entries_other
      by done.
    apply field_loop_hit. rewrite Hwith.
    by destruct (hit_sessions None before).
Qed.

Lemma field_first_with_null_hit exploration before e after :
  ev_event_type e = EVENT_TYPE_STATE_HIT →
  ev_state_name e = None →
  field (final exploration (before ++ VEvent e :: after)%list) None
    first_entry_count =
  Some (count (final exploration (before ++ after)%list) None
          first_entry_count
        + (if decide (ev_session_id e
                        ∈ hit_sessions None (before ++ after)%list)
           then 0 else 1)).
Proof.
  intros He Hnull.
  destruct (hit_sessions_with_null_hit before e after He Hnull)
    as [Hwith Hwithout].
  rewrite field_Some_count.
  - rewrite !count_final_first, legacy_sum_without, Hwith, Hwithout.
    f_equal.
    assert ((list_to_set
               (hit_sessions None before
                ++ ev_session_id e :: hit_sessions None after)
             : gset string) =
            {[ev_session_id e]}
              ∪ list_to_set
                  (hit_sessions None before ++ hit_sessions None after))
      as -> by set_solver.
    case_decide as Hs.
    + assert (({[ev_session_id e]}
                 ∪ list_to_set
                     (hit_sessions None before ++ hit_sessions None after)
               : gset string) =
              list_to_set
                (hit_sessions None before ++ hit_sessions None after)) as ->
        by set_solver.
      lia.
    + rewrite size_union by set_solver. rewrite size_singleton. lia.
  - apply field_final_first. right. rewrite Hwith.
    by destruct (hit_sessions None before).
Qed.

Lemma field_no_answer_with_hit exploration before e after k :
  ev_event_type e = EVENT_TYPE_STATE_HIT →
  field (final exploration (before ++ VEvent e :: after)%list) k
    no_answer_count =
  field (final exploration (before ++ after)%list) k no_answer_count.
Proof.
  intros He.
  assert (ev_event_type e ≠ EVENT_TYPE_MAYBE_LEAVE_EXPLORATION) as Hleave
    by (by rewrite He).
  assert (ev_event_type e ≠ EVENT_TYPE_COMPLETE_EXPLORATION) as Hcomplete
    by (by rewrite He).
  unfold final_state_hit_counts, leave_states.
  rewrite session_id_to_latest_leave_evt_eq, new_models_end_sessions_eq
    by done.
  apply field_add_no_answers_congr.
  rewrite !field_add_first_entries_other by done.
  rewrite loop_with, loop_without. apply state_hit_counts_from_field.
  unfold process_value, process_event.
  rewrite decide_False, decide_False, decide_False, decide_True
    by (done || by rewrite He).
  simpl. rewrite field_bucket_add. by rewrite decide_False by (by intros [_ ?]).
Qed.

(** ** A maybe-leave event *)

Lemma leave_states_other exploration before e after s :
  ev_event_type e = EVENT_TYPE_MAYBE_LEAVE_EXPLORATION →
  s ≠ ev_session_id e →
  s ∈ leave_states (loop exploration (before ++ VEvent e :: after)%list) ↔
  s ∈ leave_states (loop exploration (before ++ after)%list).
Proof.
  intros He Hs. rewrite !leave_states_loop.
  rewrite leave_of_without
    by (simpl; apply decide_False; intros [_ ?]; congruence).
  rewrite completes_without; [done|].
  simpl. apply bool_decide_eq_false. intros [_ ?]. congruence.
Qed.

Lemma completes_without_leave before e after s :
  ev_event_type e = EVENT_TYPE_MAYBE_LEAVE_EXPLORATION →
  Exists (λ v, completes s v) (before ++ VEvent e :: after)%list ↔
  Exists (λ v, completes s v) (before ++ after)%list.
Proof.
  intros He. apply completes_without. simpl. apply bool_decide_eq_false.
  intros [Ht _]. by rewrite He in Ht.
Qed.

(** A maybe-leave event of a session that completes leaves all buckets. *)
Lemma final_without_leave_completed exploration before e after :
  ev_event_type e = EVENT_TYPE_MAYBE_LEAVE_EXPLORATION →
  Exists (λ v, completes (ev_session_id e) v) (before ++ after)%list →
  final exploration (before ++ VEvent e :: after)%list =
  final exploration (before ++ after)%list.
Proof.
  intros He Hcompletes.
  assert (ev_event_type e ≠ EVENT_TYPE_STATE_HIT) as Hhit by (by rewrite He).
  assert (leave_states (loop exploration (before ++ VEvent e :: after)%list) =
          leave_states (loop exploration (before ++ after)%list)) as HL.
  { apply set_eq. intros s.
    destruct (decide (s = ev_session_id e)) as [->|Hs];
      [|by apply leave_states_other].
    rewrite !leave_states_loop, completes_without_leave by done. tauto. }
  unfold final_state_hit_counts. rewrite HL.
  rewrite (add_first_entries_eq exploration before e after Hhit).
  apply add_no_answers_ext. intros s Hs.
  apply session_id_to_latest_leave_evt_other. right. intros <-.
  apply leave_states_loop in Hs as [_ Hs]. done.
Qed.

(** A maybe-leave event that is not the retained one of its session, in a
    session with other maybe-leave events, leaves all buckets. *)
Lemma final_without_leave_not_retained exploration before e after :
  ev_event_type e = EVENT_TYPE_MAYBE_LEAVE_EXPLORATION →
  ¬ retained_at before e after →
  omap (leave_of (ev_session_id e)) (before ++ after)%list ≠ [] →
  final exploration (before ++ VEvent e :: after)%list =
  final exploration (before ++ after)%list.
Proof.
  intros He Hnot Hothers.
  assert (ev_event_type e ≠ EVENT_TYPE_STATE_HIT) as Hhit by (by rewrite He).
  assert (ev_event_type e ≠ EVENT_TYPE_COMPLETE_EXPLORATION) as Hcomplete
    by (by rewrite He).
  assert (session_id_to_latest_leave_evt
            (loop exploration (before ++ VEvent e :: after)%list) =
          session_id_to_latest_leave_evt
            (loop exploration (before ++ after)%list)) as Hevts.
  { apply map_eq. intros s.
    destruct (decide (ev_session_id e = s)) as [<-|Hs];
      [|apply session_id_to_latest_leave_evt_other; by right].
    rewrite !session_id_to_latest_leave_evt_loop, leave_of_with by done.
    rewrite omap_app in Hothers |- *.
    by apply (foldl_track_not_retained _ _ (ev_created_on e, ev_state_name e)). }
  unfold final_state_hit_counts, leave_states.
  by rewrite Hevts, state_hit_counts_eq, state_session_ids_eq,
    new_models_end_sessions_eq.
Qed.

(** The retained maybe-leave event of a session that does not complete
    decides where the session is counted. *)
Lemma counted_retained exploration before e after k :
  ev_event_type e = EVENT_TYPE_MAYBE_LEAVE_EXPLORATION →
  ¬ Exists (λ v, completes (ev_session_id e) v) (before ++ after)%list →
  retained_at before e after →
  ev_session_id e
    ∈ left_without_completing exploration (before ++ VEvent e :: after)%list k
  ↔ k = ev_state_name e.
Proof.
  intros He Hnone (Ht & Hbefore & Hafter).
  rewrite left_without_completing_loop, completes_without_leave by done.
  rewrite (retained_leave_tracked _ (ev_session_id e) (ev_created_on e)
             (ev_state_name e)).
  - rewrite leave_of_with by done. simpl.
    split; [by intros (_ & _ & <-)|intros ->].
    split; [by destruct (omap _ before)|done].
  - eexists _, _. split; [by apply leave_of_with|done].
Qed.

(** The only maybe-leave event of a session, with a timestamp of 0 or
    less: the session is recorded on the state with the empty name. *)
Lemma counted_undated exploration before e after k :
  ev_event_type e = EVENT_TYPE_MAYBE_LEAVE_EXPLORATION →
  ¬ Exists (λ v, completes (ev_session_id e) v) (before ++ after)%list →
  omap (leave_of (ev_session_id e)) (before ++ after)%list = [] →
  ev_created_on e ≤ 0 →
  ev_session_id e
    ∈ left_without_completing exploration (before ++ VEvent e :: after)%list k
  ↔ k = Some ""%string.
Proof.
  intros He Hnone Hothers Ht.
  rewrite left_without_completing_loop, completes_without_leave by done.
  rewrite leave_of_with by done.
  rewrite omap_app in Hothers. apply app_eq_nil in Hothers as [-> ->].
  simpl. unfold track. simpl.
  destruct (Z.ltb_spec 0 (ev_created_on e)); [lia|]. simpl.
  split; [by intros (_ & _ & <-)|by intros ->].
Qed.

End EventKinds.

(** * Events without a state name in reduce *)

Section NullStateNameProperties.

Variable get_entity_id : string → string → string.
Variable get_exploration_by_id : string → option string → result Exploration.
Variable get_version : string → Z → result Exploration.

Import StatisticsMRJobManager.

Local Arguments field : simpl never.
Local Arguments count : simpl never.

Local Abbreviation resolve_exploration :=
  (resolve_exploration get_exploration_by_id get_version).
Local Abbreviation reduce :=
  (reduce get_entity_id get_exploration_by_id get_version).

(** C5. What an event without a state name does to the snapshot of its
    key, against the run on the same values without the event. It counts
    in the totals like any event: a start event adds one start, a
    complete event one completion. It is not left out of the buckets: as
    a state hit it is counted in the bucket of the missing name, with
    one more total entry and its session among the first entries, and
    leaves every bucket of a named state as it is; as a maybe-leave event
    that is the retained one of a session that never completes it puts
    the 'no answer' of the session in the bucket of the missing name, in
    place of the bucket the session was counted in without it. A start
    event and an event of an unknown kind leave all buckets as they are. A
    complete event leaves the entry counts of all buckets and, as every
    complete event, takes its session out of the sessions that left
    without completing. *)
Theorem reduce_null_state_name_event
    now st key before e after exp_id version exploration :
  split ":" key = [exp_id; version] →
  resolve_exploration exp_id version = Ok exploration →
  ev_state_name e = None →
  let values := (before ++ VEvent e :: after)%list in
  let values0 := (before ++ after)%list in
  let s := ev_session_id e in
  let counted k := s ∈ left_without_completing exploration values k in
  let counted0 k := s ∈ left_without_completing exploration values0 k in
  ∃ snapshot snapshot0,
    annotations (reduce now st key values).2
      !! get_entity_id exp_id version = Some snapshot
    ∧ annotations (reduce now st key values0).2
        !! get_entity_id exp_id version = Some snapshot0
    ∧ let hc := an_state_hit_counts snapshot in
      let hc0 := an_state_hit_counts snapshot0 in
      an_num_starts snapshot =
        an_num_starts snapshot0
        + (if decide (ev_event_type e = EVENT_TYPE_START_EXPLORATION)
           then 1 else 0)
      ∧ an_num_completions snapshot =
        an_num_completions snapshot0
        + (if decide (ev_event_type e = EVENT_TYPE_COMPLETE_EXPLORATION)
           then 1 else 0)
      ∧ (∀ k, count hc k no_answer_count =
              count hc0 k no_answer_count
              - (if decide (counted0 k) then 1 else 0)
              + (if decide (counted k) then 1 else 0))
      ∧ (∀ k, counted k → is_Some (field hc k no_answer_count))
      ∧ (ev_event_type e ≠ EVENT_TYPE_COMPLETE_EXPLORATION →
         ev_event_type e ≠ EVENT_TYPE_MAYBE_LEAVE_EXPLORATION →
         ev_event_type e ≠ EVENT_TYPE_STATE_HIT →
         hc = hc0)
      ∧ (ev_event_type e = EVENT_TYPE_COMPLETE_EXPLORATION →
         (∀ k f, f ≠ no_answer_count → field hc k f = field hc0 k f)
         ∧ (∀ k, ¬ counted k)
         ∧ ((∀ k, ¬ counted0 k) → hc = hc0))
      ∧ (ev_event_type e = EVENT_TYPE_STATE_HIT →
         (∀ name, hc !! Some name = hc0 !! Some name)
         ∧ field hc None total_entry_count =
           Some (count hc0 None total_entry_count + 1)
         ∧ field hc None first_entry_count =
           Some (count hc0 None first_entry_count
                 + (if decide (s ∈ hit_sessions None values0)
                    then 0 else 1))
         ∧ field hc None no_answer_count = field hc0 None no_answer_count)
      ∧ (ev_event_type e = EVENT_TYPE_MAYBE_LEAVE_EXPLORATION →
         (∀ k f, f ≠ no_answer_count → field hc k f = field hc0 k f)
         ∧ (Exists (λ v, completes s v) values0 → hc = hc0)
         ∧ (¬ retained_at before e after →
            omap (leave_of s) values0 ≠ [] → hc = hc0)
         ∧ (¬ Exists (λ v, completes s v) values0 →
            (retained_at before e after → ∀ k, counted k ↔ k = None)
            ∧ (omap (leave_of s) values0 = [] → ev_created_on e ≤ 0 →
               ∀ k, counted k ↔ k = Some ""%string))).
Proof.
  intros Hkey Hresolve Hnull values values0 s counted counted0.
  destruct (reduce_resolved get_entity_id get_exploration_by_id get_version
              now st key values _ _ _ Hkey Hresolve) as [_ Hsnap].
  destruct (reduce_resolved get_entity_id get_exploration_by_id get_version
              now st key values0 _ _ _ Hkey Hresolve) as [_ Hsnap0].
  eexists _, _. split; [exact Hsnap|]. split; [exact Hsnap0|].
  cbv zeta.
  cbn [an_num_starts an_num_completions an_state_hit_counts].
  destruct (totals_without exploration before e after) as [Hstarts Hcompletions].
  split; [exact Hstarts|]. split; [exact Hcompletions|].
  split; [intros k; apply count_no_answer_without|].
  split; [intros k; apply field_no_answer_counted|].
  split; [intros; by apply final_without|].
  split; [|split].
  - intros He.
    assert (ev_event_type e ≠ EVENT_TYPE_STATE_HIT) as Hhit
      by (by rewrite He).
    split; [intros k f Hf; by apply field_final_other|].
    split; [intros k; by apply complete_not_counted|].
    by apply final_without_complete.
  - intros He.
    split; [intros name; by apply final_named_without_null_hit|].
    split; [by apply field_total_with_null_hit|].
    split; [by apply field_first_with_null_hit|].
    by apply field_no_answer_with_hit.
  - intros He.
    assert (ev_event_type e ≠ EVENT_TYPE_STATE_HIT) as Hhit
      by (by rewrite He).
    split; [intros k f Hf; by apply field_final_other|].
    split; [by apply final_without_leave_completed|].
    split; [by apply final_without_leave_not_retained|].
    intros Hnone. split.
    + intros Hretained k. unfold counted, values, s.
      rewrite (counted_retained exploration before e after k He Hnone
                 Hretained).
      by rewrite Hnull.
    + intros Hothers Ht k.
      by apply counted_undated.
Qed.

End NullStateNameProperties.

(** * The properties on the sample run *)

Lemma reduce_exploration_not_found_witness :
  split ":" "gone:1" = ["gone"; "1"]
  ∧ StatisticsMRJobManager.resolve_exploration
      sample_get_exploration_by_id sample_get_version "gone" "1" =
    Raise EntityNotFoundError
  ∧ StatisticsMRJobManager.reduce format_key
      sample_get_exploration_by_id sample_get_version 100 sample_store
      "gone:1" sample_values = (Ok (), sample_store).
Proof.
  split; [reflexivity|]. split; [reflexivity|].
  apply (reduce_exploration_not_found format_key
           sample_get_exploration_by_id sample_get_version 100 sample_store
           "gone:1" sample_values "gone" "1"); reflexivity.
Defined.

Lemma reduce_start_and_completion_totals_witness :
  split ":" "exp1:1" = ["exp1"; "1"]
  ∧ StatisticsMRJobManager.resolve_exploration
      sample_get_exploration_by_id sample_get_version "exp1" "1" =
    Ok sample_exploration
  ∧ ∃ snapshot,
      annotations
        (StatisticsMRJobManager.reduce format_key
           sample_get_exploration_by_id sample_get_version 100 sample_store
           "exp1:1" sample_values).2 !! format_key "exp1" "1" = Some snapshot
      ∧ an_num_starts snapshot = 2
      ∧ an_num_completions snapshot = 1.
Proof.
  split; [reflexivity|]. split; [reflexivity|].
  destruct (reduce_start_and_completion_totals format_key
              sample_get_exploration_by_id sample_get_version 100
              sample_store "exp1:1" sample_values "exp1" "1"
              sample_exploration eq_refl eq_refl)
    as (snapshot & _ & Hsnap & Hstarts & Hcompletions & _).
  exists snapshot. split; [exact Hsnap|]. split.
  - rewrite Hstarts. reflexivity.
  - rewrite Hcompletions. reflexivity.
Defined.

Lemma sample_values_are_events : Forall (λ v, is_event v) sample_values.
Proof. repeat constructor. Qed.

Lemma reduce_entry_counts_witness :
  split ":" "exp1:1" = ["exp1"; "1"]
  ∧ StatisticsMRJobManager.resolve_exploration
      sample_get_exploration_by_id sample_get_version "exp1" "1" =
    Ok sample_exploration
  ∧ Forall (λ v, is_event v) sample_values
  ∧ ∃ snapshot,
      annotations
        (StatisticsMRJobManager.reduce format_key
           sample_get_exploration_by_id sample_get_version 100 sample_store
           "exp1:1" sample_values).2 !! format_key "exp1" "1" = Some snapshot
      ∧ field (an_state_hit_counts snapshot) (Some "Quiz") total_entry_count =
          Some 3
      ∧ field (an_state_hit_counts snapshot) (Some "Quiz") first_entry_count =
          Some 2.
Proof.
  split; [reflexivity|]. split; [reflexivity|].
  split; [exact sample_values_are_events|].
  destruct (reduce_entry_counts format_key
              sample_get_exploration_by_id sample_get_version 100
              sample_store "exp1:1" sample_values "exp1" "1"
              sample_exploration (Some "Quiz") eq_refl eq_refl
              sample_values_are_events)
    as (snapshot & Hsnap & _ & _ & Hfields).
  exists snapshot. split; [exact Hsnap|].
  destruct Hfields as [Htotal Hfirst].
  - left. vm_compute. by right; left.
  - split; [rewrite Htotal|rewrite Hfirst]; reflexivity.
Defined.

Lemma sample_retained_leave :
  retained_leave sample_values "s1" 20 (Some "Quiz").
Proof.
  exists [], []. split; [reflexivity|]. split; [lia|]. split; constructor.
Qed.

Lemma sample_no_complete :
  ¬ Exists (λ v, completes "s1" v) sample_values.
Proof.
  intros H. apply Exists_exists in H as (v & Hv & Hc).
  unfold sample_values in Hv.
  repeat (apply elem_of_cons in Hv as [->|Hv]; [by vm_compute in Hc|]).
  by apply elem_of_nil in Hv.
Qed.

Lemma reduce_no_answer_of_abandoning_sessions_witness :
  split ":" "exp1:1" = ["exp1"; "1"]
  ∧ StatisticsMRJobManager.resolve_exploration
      sample_get_exploration_by_id sample_get_version "exp1" "1" =
    Ok sample_exploration
  ∧ retained_leave sample_values "s1" 20 (Some "Quiz")
  ∧ ∃ snapshot,
      annotations
        (StatisticsMRJobManager.reduce format_key
           sample_get_exploration_by_id sample_get_version 100 sample_store
           "exp1:1" sample_values).2 !! format_key "exp1" "1" = Some snapshot
      ∧ field (an_state_hit_counts snapshot) (Some "Quiz") no_answer_count =
          Some 1.
Proof.
  split; [reflexivity|]. split; [reflexivity|].
  split; [exact sample_retained_leave|].
  destruct (reduce_no_answer_of_abandoning_sessions format_key
              sample_get_exploration_by_id sample_get_version 100
              sample_store "exp1:1" sample_values "exp1" "1"
              sample_exploration "s1" 20 (Some "Quiz") eq_refl eq_refl
              sample_retained_leave)
    as (snapshot & Hsnap & _ & Hleft & _).
  exists snapshot. split; [exact Hsnap|].
  destruct (Hleft sample_no_complete) as [_ ->].
  reflexivity.
Defined.

Lemma sample_null_leave_retained :
  retained_at sample_values sample_null_leave [].
Proof.
  split; [done|]. split; [|constructor].
  repeat constructor; simpl; lia.
Qed.

Lemma sample_no_complete_of_s1 :
  ¬ Exists (λ v, completes (ev_session_id sample_null_leave) v)
      (sample_values ++ []).
Proof. rewrite app_nil_r. exact sample_no_complete. Qed.

Lemma sample_s1_left_on_quiz k :
  "s1" ∈ left_without_completing sample_exploration (sample_values ++ []) k ↔
  k = Some "Quiz".
Proof.
  rewrite left_without_completing_loop. rewrite app_nil_r. split.
  - by intros (_ & _ & <-).
  - intros ->. split; [done|]. split; [exact sample_no_complete|done].
Qed.

(** Session [s1] left on the quiz; with a later maybe-leave event without
    a state name, its 'no answer' is counted in the bucket of the missing
    name and no longer in the bucket of the quiz. *)
Lemma reduce_null_state_name_event_witness :
  split ":" "exp1:1" = ["exp1"; "1"]
  ∧ StatisticsMRJobManager.resolve_exploration
      sample_get_exploration_by_id sample_get_version "exp1" "1" =
    Ok sample_exploration
  ∧ ev_state_name sample_null_leave = None
  ∧ ∃ snapshot snapshot0,
      annotations
        (StatisticsMRJobManager.reduce format_key
           sample_get_exploration_by_id sample_get_version 100 sample_store
           "exp1:1" (sample_values ++ [VEvent sample_null_leave])).2
        !! format_key "exp1" "1" = Some snapshot
      ∧ annotations
          (StatisticsMRJobManager.reduce format_key
             sample_get_exploration_by_id sample_get_version 100
             sample_store "exp1:1" (sample_values ++ [])).2
          !! format_key "exp1" "1" = Some snapshot0
      ∧ count (an_state_hit_counts snapshot0) (Some "Quiz") no_answer_count
        = 1
      ∧ count (an_state_hit_counts snapshot0) None no_answer_count = 0
      ∧ count (an_state_hit_counts snapshot) (Some "Quiz") no_answer_count
        = 0
      ∧ field (an_state_hit_counts snapshot) None no_answer_count = Some 1.
Proof.
  split; [reflexivity|]. split; [reflexivity|]. split; [reflexivity|].
  destruct (reduce_null_state_name_event format_key
              sample_get_exploration_by_id sample_get_version 100
              sample_store "exp1:1" sample_values sample_null_leave []
              "exp1" "1" sample_exploration eq_refl eq_refl eq_refl)
    as (snapshot & snapshot0 & Hsnap & Hsnap0 & _ & _ & Hcount & Hsome & _
        & _ & _ & Hleave).
  destruct (Hleave eq_refl) as (_ & _ & _ & Hcounted).
  destruct (Hcounted sample_no_complete_of_s1) as [Hcounted' _].
  specialize (Hcounted' sample_null_leave_retained).
  exists snapshot, snapshot0.
  split; [exact Hsnap|]. split; [exact Hsnap0|].
  assert (count (an_state_hit_counts snapshot0) (Some "Quiz")
            no_answer_count = 1
          ∧ count (an_state_hit_counts snapshot0) None no_answer_count = 0)
    as [Hquiz0 Hnone0].
  { vm_compute in Hsnap0. injection Hsnap0 as <-. split; reflexivity. }
  split; [exact Hquiz0|]. split; [exact Hnone0|]. split.
  - rewrite (Hcount (Some "Quiz")), Hquiz0.
    rewrite decide_True by (by apply sample_s1_left_on_quiz).
    rewrite decide_False by (by rewrite Hcounted').
    reflexivity.
  - rewrite (field_Some_count _ _ _ (Hsome None (proj2 (Hcounted' None) eq_refl))).
    rewrite (Hcount None), Hnone0.
    rewrite decide_False by (by rewrite sample_s1_left_on_quiz).
    rewrite decide_True by (by apply Hcounted').
    reflexivity.
Defined.

Lemma reduce_combines_answers_of_first_interaction_witness :
  split ":" "exp1:all:Quiz" = ["exp1"; "all"; "Quiz"]
  ∧ ∃ combined,
      InteractionAnswerSummariesMRJobManager.combine_state_answers
        "exp1:all:Quiz" sample_answers = Ok combined
      ∧ InteractionAnswerSummariesMRJobManager.sa_submitted_answer_list
          combined = ["a"; "b"; "c"]
      ∧ InteractionAnswerSummariesMRJobManager.sa_interaction_id combined =
          "TextInput"
      ∧ InteractionAnswerSummariesMRJobManager.reduce
          sample_calculation_ids sample_get_calculation [] "exp1:all:Quiz"
          sample_answers = (Ok (), [3%nat]).
Proof.
  split; [reflexivity|].
  destruct (reduce_combines_answers_of_first_interaction string nat
              sample_calculation_ids sample_get_calculation []
              "exp1:all:Quiz" "exp1" "all" "Quiz"
              (InteractionAnswerSummariesMRJobManager.Build_state_answers_dict
                 string "exp1" "1" "Quiz" "TextInput" ["a"; "b"])
              [InteractionAnswerSummariesMRJobManager.Build_state_answers_dict
                 string "exp1" "2" "Quiz" "NumericInput" ["c"]]
              eq_refl)
    as (combined & Hcombined & Hanswers & _ & Hid & Hreduce).
  exists combined. split; [exact Hcombined|].
  split; [rewrite Hanswers; reflexivity|].
  split; [rewrite Hid; reflexivity|].
  unfold sample_answers. rewrite Hreduce. simpl.
  injection Hcombined as <-. reflexivity.
Defined.

(** An event log entry of version 4 and the state counter of the state
    [Quiz.1]: the keys that [map] emits for them. *)
Lemma map_emits_own_scope_and_all_witness :
  (λ kv, kv.1)
    <$> StatisticsMRJobManager.map (λ _, true) (λ t, t) sample_item =
    ["exp1:4"; "exp1:all"]
  ∧ (λ kv, kv.1)
      <$> StatisticsMRJobManager.map (λ _, true) (λ t, t)
            (StateCounterModel "exp1.Quiz.1" 3 1 0 2 1000) =
    ["exp1:none"; "exp1:all"].
Proof.
  split.
  - destruct (map_emits_own_scope_and_all (λ _, true) (λ t, t) sample_item)
      as (exp_id & scope & value & Hmap & -> & -> & _).
    rewrite Hmap. reflexivity.
  - destruct (map_emits_own_scope_and_all (λ _, true) (λ t, t)
                (StateCounterModel "exp1.Quiz.1" 3 1 0 2 1000))
      as (exp_id & scope & value & Hmap & -> & state_name & _ & Hid).
    rewrite Hmap.
    destruct Hid as [[Hid Hdot]|[Hdot _]]; [|discriminate Hdot].
    destruct (first_char_unique "." "exp1" "Quiz.1" exp_id state_name
                Hid eq_refl Hdot) as [<- _].
    reflexivity.
Defined.

(** * Where the code departs from the wording of the specification *)

(** A legacy record of the initial state is folded into the bucket of the
    initial state. *)
Lemma legacy_record_of_initial_state_is_folded :
  ¬ legacy_record_as_specified sample_exploration sample_counter
      (StatisticsMRJobManager.initial_locals sample_exploration).
Proof.
  intros (_ & _ & _ & Hkept).
  specialize (Hkept (or_introl eq_refl)).
  apply (f_equal (λ hc, field hc (Some "Intro") first_entry_count)) in Hkept.
  vm_compute in Hkept. discriminate.
Qed.

(** Events without a state name are not left out of the buckets. After
    the sample run, a state hit of session [s1] without a state name
    creates the bucket of the missing name; a maybe-leave event of [s1]
    without a state name moves the 'no answer' of [s1] from the bucket of
    the quiz to the bucket of the missing name; and a complete event of
    [s1] without a state name takes the 'no answer' of [s1] out of the
    bucket of the quiz. *)
Lemma null_state_events_are_accounted :
  ¬ null_state_event_as_specified sample_exploration sample_values
      sample_null_hit []
  ∧ ¬ null_state_event_as_specified sample_exploration sample_values
        sample_null_leave []
  ∧ ¬ null_state_event_as_specified sample_exploration sample_values
        sample_null_complete [].
Proof.
  split; [|split]; intros H; destruct (H eq_refl) as [Hkept _].
  - apply (f_equal (λ hc, field hc None total_entry_count)) in Hkept.
    vm_compute in Hkept. discriminate.
  - apply (f_equal (λ hc, field hc None no_answer_count)) in Hkept.
    vm_compute in Hkept. discriminate.
  - apply (f_equal (λ hc, field hc (Some "Quiz") no_answer_count)) in Hkept.
    vm_compute in Hkept. discriminate.
Qed.

(** Session [s2] completes at time 30 and leaves at time 31: no complete
    event follows its retained maybe-leave event, and still it adds no
    'no answer'. *)
Lemma sample_completed_retained_leave :
  retained_leave sample_values "s2" 31 (Some "Quiz").
Proof.
  exists [], []. split; [reflexivity|]. split; [lia|]. split; constructor.
Qed.

Lemma sample_completed_no_later_complete :
  no_later_complete sample_values "s2" 31.
Proof.
  intros e He Htype Hsession. unfold sample_values in He.
  repeat (apply elem_of_cons in He as [He|He];
          [injection He as ->; try discriminate; simpl; lia|]).
  by apply elem_of_nil in He.
Qed.

Lemma completed_session_with_later_leave_not_counted :
  ¬ abandoning_as_specified sample_exploration sample_values.
Proof.
  intros H.
  apply (completed_session_not_left sample_exploration sample_values "s2").
  - apply Exists_exists.
    exists (VEvent (sample_event "complete" "s2" (Some "Quiz") 30)).
    split; [|by vm_compute].
    unfold sample_values. do 7 right. left.
  - exact (H "s2" 31 (Some "Quiz") sample_completed_retained_leave
             sample_completed_no_later_complete).
Qed.

(** * Further properties of reduce: what it writes and what it leaves *)

Section ReduceFrame.

Variable get_entity_id : string → string → string.
Variable get_exploration_by_id : string → option string → result Exploration.
Variable get_version : string → Z → result Exploration.

Import StatisticsMRJobManager.

Local Arguments field : simpl never.
Local Arguments count : simpl never.

Local Abbreviation resolve_exploration :=
  (resolve_exploration get_exploration_by_id get_version).
Local Abbreviation reduce :=
  (reduce get_entity_id get_exploration_by_id get_version).
Local Abbreviation loop exploration values :=
  (process_values exploration (initial_locals exploration) values).

(** The store that [reduce] leaves is the store it found, or that store
    with the snapshot of the key put under the key's entity id. *)
Lemma reduce_store now st key values :
  (reduce now st key values).2 =
  match split ":" key with
  | [exp_id; version] =>
      match resolve_exploration exp_id version with
      | Ok exploration =>
          set_annotations st
            (<[get_entity_id exp_id version :=
                 snapshot_of now exp_id version exploration values]>
               (annotations st))
      | Raise _ => st
      end
  | _ => st
  end.
Proof.
  unfold StatisticsMRJobManager.reduce.
  destruct (split ":" key) as [|exp_id [|version [|]]]; try done.
  destruct (resolve_exploration exp_id version) as [exploration|[]]; done.
Qed.

(** X1. Whatever the key and the values, [reduce] changes nothing but the
    snapshot under the entity id of its own key: the realtime counters, the
    active layer and the snapshots of all other entity ids stay. *)
Theorem reduce_changes_own_snapshot_only now st key values :
  let st' := (reduce now st key values).2 in
  realtime st' = realtime st
  ∧ active_realtime_index st' = active_realtime_index st
  ∧ (st' = st
     ∨ ∃ exp_id version,
         split ":" key = [exp_id; version]
         ∧ delete (get_entity_id exp_id version) (annotations st') =
           delete (get_entity_id exp_id version) (annotations st)).
Proof.
  cbv zeta. rewrite reduce_store.
  destruct (split ":" key) as [|exp_id [|version [|]]]; try by auto.
  destruct (resolve_exploration exp_id version) as [exploration|e];
    [|by auto].
  repeat split. right. exists exp_id, version. split; [done|].
  simpl. by rewrite delete_insert_eq.
Qed.

(** X2. A run of [reduce] for a key replaces what an earlier run for the
    same key left: the store after the second run is the same as if the
    first run had never happened. *)
Theorem reduce_replaces_earlier_run now now0 st key values values0 :
  (reduce now (reduce now0 st key values0).2 key values).2 =
  (reduce now st key values).2.
Proof.
  rewrite !reduce_store.
  destruct (split ":" key) as [|exp_id [|version [|]]]; try done.
  destruct (resolve_exploration exp_id version) as [exploration|e];
    [|done].
  unfold set_annotations. simpl. by rewrite insert_insert_eq.
Qed.

Lemma process_value_unrecognised exploration a v :
  recognised v = false → process_value exploration a v = a.
Proof.
  destruct v as [c|e]; [done|]. simpl. unfold process_event.
  intros Hv%bool_decide_eq_false.
  rewrite !decide_False; [done|..]; intros Heq; apply Hv; rewrite Heq;
    set_solver.
Qed.

Lemma process_values_recognised exploration a values :
  process_values exploration a values =
  process_values exploration a (filter (λ v, recognised v) values).
Proof.
  revert a. induction values as [|v values IH]; intros a; [done|].
  rewrite filter_cons. case_decide as Hv.
  - simpl. apply IH.
  - simpl. rewrite process_value_unrecognised; [apply IH|].
    by destruct (recognised v).
Qed.

(** X3. Events of a kind the loop does not know leave no trace: [reduce]
    returns the same outcome and the same store as on the values without
    these events. *)
Theorem reduce_ignores_unrecognised_events now st key values :
  reduce now st key values =
  reduce now st key (filter (λ v, recognised v) values).
Proof.
  unfold StatisticsMRJobManager.reduce.
  destruct (split ":" key) as [|exp_id [|version [|]]]; try done.
  destruct (resolve_exploration exp_id version) as [exploration|e];
    [|done].
  by rewrite <- process_values_recognised.
Qed.

End ReduceFrame.

(** * Further properties of reduce: the buckets of the snapshot *)

Section ReduceBuckets.

Variable get_entity_id : string → string → string.
Variable get_exploration_by_id : string → option string → result Exploration.
Variable get_version : string → Z → result Exploration.

Import StatisticsMRJobManager.

Local Arguments field : simpl never.
Local Arguments count : simpl never.

Local Abbreviation resolve_exploration :=
  (resolve_exploration get_exploration_by_id get_version).
Local Abbreviation reduce :=
  (reduce get_entity_id get_exploration_by_id get_version).
Local Abbreviation loop exploration values :=
  (process_values exploration (initial_locals exploration) values).

Lemma reduce_snapshot now st key values exp_id version exploration :
  split ":" key = [exp_id; version] →
  resolve_exploration exp_id version = Ok exploration →
  reduce now st key values =
  (Ok (),
   set_annotations st
     (<[get_entity_id exp_id version :=
          snapshot_of now exp_id version exploration values]>
        (annotations st))).
Proof.
  intros Hkey Hresolve. unfold StatisticsMRJobManager.reduce.
  by rewrite Hkey, Hresolve.
Qed.

Lemma zero_bucket_first_entries :
  <[first_entry_count := 0 + Z.of_nat (size (∅ : gset string))]> zero_bucket =
  zero_bucket.
Proof.
  rewrite size_empty. apply map_eq. intros f.
  unfold zero_bucket, total_entry_count, first_entry_count, no_answer_count.
  rewrite !lookup_insert, lookup_empty.
  repeat case_decide; simplify_eq; done.
Qed.

Lemma final_state_hit_counts_initial exploration k :
  final_state_hit_counts (initial_locals exploration) !! k =
  if decide (k ∈ Some <$> exp_states exploration) then Some zero_bucket
  else None.
Proof.
  unfold final_state_hit_counts, leave_states.
  change (session_id_to_latest_leave_evt (initial_locals exploration))
    with (∅ : gmap string (Z * option string)).
  change (new_models_end_sessions (initial_locals exploration))
    with (∅ : gset string).
  rewrite dom_empty_L, difference_diag_L.
  unfold add_no_answers. rewrite set_fold_empty.
  rewrite lookup_add_first_entries, initial_state_session_ids,
    initial_state_hit_counts, initial_count.
  case_decide; [|done]. cbn [default from_option id].
  by rewrite zero_bucket_first_entries.
Qed.

(** X4. On no values at all, [reduce] writes a snapshot with no start and no
    completion, whose buckets are exactly those of the states of the
    resolved exploration, each with its three counters at 0. *)
Theorem reduce_no_values now st key exp_id version exploration :
  split ":" key = [exp_id; version] →
  resolve_exploration exp_id version = Ok exploration →
  ∃ snapshot,
    annotations (reduce now st key []).2 !! get_entity_id exp_id version =
      Some snapshot
    ∧ an_num_starts snapshot = 0
    ∧ an_num_completions snapshot = 0
    ∧ ∀ k, an_state_hit_counts snapshot !! k =
           if decide (k ∈ Some <$> exp_states exploration)
           then Some zero_bucket else None.
Proof.
  intros Hkey Hresolve.
  rewrite (reduce_snapshot _ _ _ _ _ _ _ Hkey Hresolve).
  cbn [snd annotations set_annotations]. rewrite lookup_insert_eq.
  eexists. split; [done|]. repeat split.
  intros k. apply final_state_hit_counts_initial.
Qed.

Lemma field_add_no_answers_mono evts sessions hc k f :
  is_Some (field hc k f) →
  is_Some (field (add_no_answers evts sessions hc) k f).
Proof.
  intros Hsome. unfold add_no_answers.
  apply (set_fold_ind_L (λ r (_ : gset string), is_Some (field r k f)));
    [done|].
  intros s X r _ IH. rewrite field_bucket_add. by case_decide.
Qed.

Lemma field_add_first_entries_mono ids hc k f :
  is_Some (field hc k f) → is_Some (field (add_first_entries ids hc) k f).
Proof.
  intros Hsome. rewrite field_add_first_entries.
  destruct (ids !! k); [|done]. by case_decide.
Qed.

(** X5. Whatever the values, the snapshot holds a bucket for every state
    of the resolved exploration, and the bucket holds all three counters. *)
Theorem reduce_buckets_of_exploration_states
    now st key values exp_id version exploration s :
  split ":" key = [exp_id; version] →
  resolve_exploration exp_id version = Ok exploration →
  s ∈ exp_states exploration →
  ∃ snapshot b total first no_answer,
    annotations (reduce now st key values).2 !! get_entity_id exp_id version =
      Some snapshot
    ∧ an_state_hit_counts snapshot !! Some s = Some b
    ∧ b !! total_entry_count = Some total
    ∧ b !! first_entry_count = Some first
    ∧ b !! no_answer_count = Some no_answer.
Proof.
  intros Hkey Hresolve Hs.
  rewrite (reduce_snapshot _ _ _ _ _ _ _ Hkey Hresolve).
  cbn [snd annotations set_annotations]. rewrite lookup_insert_eq.
  assert (∀ f, f ∈ [total_entry_count; first_entry_count; no_answer_count] →
               is_Some (field (final_state_hit_counts (loop exploration values))
                          (Some s) f)) as Hfields.
  { intros f Hf. unfold final_state_hit_counts.
    by apply field_add_no_answers_mono, field_add_first_entries_mono,
      field_loop_known. }
  destruct (Hfields total_entry_count) as [total Htotal]; [set_solver|].
  destruct (Hfields first_entry_count) as [first Hfirst]; [set_solver|].
  destruct (Hfields no_answer_count) as [no_answer Hno]; [set_solver|].
  unfold field in Htotal, Hfirst, Hno.
  destruct (final_state_hit_counts (loop exploration values) !! Some s)
    as [b|] eqn:Hb; [|done].
  eexists _, b, total, first, no_answer. split; [done|].
  unfold snapshot_of. cbn [an_state_hit_counts]. done.
Qed.

Lemma size_list_to_set_le (l : list string) :
  (size (list_to_set l : gset string) ≤ length l)%nat.
Proof.
  induction l as [|x l IH]; cbn [list_to_set length].
  - by rewrite size_empty.
  - rewrite size_union_alt, size_singleton.
    assert (list_to_set l ∖ {[x]} ⊆ (list_to_set l : gset string)) as Hsub
      by set_solver.
    apply subseteq_size in Hsub. lia.
Qed.

(** X6. The counters of every bucket of the snapshot are what the legacy
    records fold into them plus what the events add: the hits of the state
    for the total entry count and the distinct sessions of these hits for
    the first entry count. Without legacy records, no counter is negative
    and the first entry count never exceeds the total entry count. *)
Theorem reduce_bucket_counters
    now st key values exp_id version exploration (k : option string) :
  split ":" key = [exp_id; version] →
  resolve_exploration exp_id version = Ok exploration →
  ∃ snapshot,
    annotations (reduce now st key values).2 !! get_entity_id exp_id version =
      Some snapshot
    ∧ count (an_state_hit_counts snapshot) k total_entry_count =
        legacy_sum k total_entry_count values
        + Z.of_nat (length (hit_sessions k values))
    ∧ count (an_state_hit_counts snapshot) k first_entry_count =
        legacy_sum k first_entry_count values
        + Z.of_nat (size (list_to_set (hit_sessions k values) : gset string))
    ∧ (Forall (λ v, is_event v) values →
       0 ≤ count (an_state_hit_counts snapshot) k first_entry_count
         ≤ count (an_state_hit_counts snapshot) k total_entry_count
       ∧ 0 ≤ count (an_state_hit_counts snapshot) k no_answer_count).
Proof.
  intros Hkey Hresolve.
  rewrite (reduce_snapshot _ _ _ _ _ _ _ Hkey Hresolve).
  cbn [snd annotations set_annotations]. rewrite lookup_insert_eq.
  eexists. split; [done|]. unfold snapshot_of. cbn [an_state_hit_counts].
  rewrite count_final_total, count_final_first, count_final_no_answer.
  repeat split; try done; rewrite !legacy_sum_events by done;
    pose proof (size_list_to_set_le (hit_sessions k values)); lia.
Qed.


End ReduceBuckets.

(** * Further properties of the exploration lookup *)

Section RewindProperties.

Variable get_exploration_by_id : string → option string → result Exploration.
Variable get_version : string → Z → result Exploration.

Import StatisticsMRJobManager.

Local Abbreviation resolve_exploration :=
  (resolve_exploration get_exploration_by_id get_version).
Local Abbreviation rewind := (rewind get_version).

Lemma rewind_stops fuel exp_id exploration current_version :
  exp_last_updated exploration ≤ _STATE_COUNTER_CUTOFF_DATE
  ∨ current_version ≤ 1 →
  rewind fuel exp_id exploration current_version = Ok exploration.
Proof.
  intros Hstop.
  assert ((exp_last_updated exploration >? _STATE_COUNTER_CUTOFF_DATE)
          && (current_version >? 1) = false) as Hcond.
  { apply andb_false_iff.
    destruct Hstop; [left|right]; rewrite Z.gtb_ltb; apply Z.ltb_ge; lia. }
  destruct fuel; simpl; by rewrite Hcond.
Qed.

Lemma rewind_walks_back exp_id j fuel exploration current_version :
  (Z.to_nat current_version ≤ fuel)%nat →
  1 ≤ j < current_version →
  exp_last_updated exploration > _STATE_COUNTER_CUTOFF_DATE →
  (∀ v, j < v < current_version →
        ∃ e, get_version exp_id v = Ok e
             ∧ exp_last_updated e > _STATE_COUNTER_CUTOFF_DATE) →
  match get_version exp_id j with
  | Ok e => exp_last_updated e ≤ _STATE_COUNTER_CUTOFF_DATE ∨ j = 1
  | Raise _ => True
  end →
  rewind fuel exp_id exploration current_version = get_version exp_id j.
Proof.
  revert exploration current_version.
  induction fuel as [|fuel IH];
    intros exploration cv Hfuel Hj Hlate Habove Hstop; [lia|].
  simpl.
  assert ((exp_last_updated exploration >? _STATE_COUNTER_CUTOFF_DATE)
          && (cv >? 1) = true) as ->.
  { apply andb_true_iff.
    split; rewrite Z.gtb_ltb; apply Z.ltb_lt; lia. }
  destruct (decide (cv - 1 = j)) as [Heq|Hne].
  - rewrite Heq. destruct (get_version exp_id j) as [e|err]; [|done].
    simpl. apply rewind_stops. destruct Hstop; [by left|right; lia].
  - destruct (Habove (cv - 1)) as (e & -> & Hlate'); [lia|].
    simpl. apply IH; [lia..|done| |done].
    intros v Hv. apply Habove. lia.
Qed.

(** X8. For the ['none'] scope of an exploration whose latest version was
    committed after the cut-off date, the lookup walks back through the
    versions, each committed after the cut-off date, and ends with the
    first version [j] that is missing, was committed at or before the
    cut-off date, or is version 1: its result is what the lookup of that
    version gives, be it the version or the error. *)
Theorem resolve_none_walks_back exp_id latest j :
  get_exploration_by_id exp_id None = Ok latest →
  exp_last_updated latest > _STATE_COUNTER_CUTOFF_DATE →
  1 ≤ j < exp_version latest →
  (∀ v, j < v < exp_version latest →
        ∃ e, get_version exp_id v = Ok e
             ∧ exp_last_updated e > _STATE_COUNTER_CUTOFF_DATE) →
  match get_version exp_id j with
  | Ok e => exp_last_updated e ≤ _STATE_COUNTER_CUTOFF_DATE ∨ j = 1
  | Raise _ => True
  end →
  resolve_exploration exp_id VERSION_NONE = get_version exp_id j.
Proof.
  intros Hlatest Hlate Hj Habove Hstop.
  unfold StatisticsMRJobManager.resolve_exploration.
  rewrite decide_True by done. rewrite Hlatest. simpl.
  by apply rewind_walks_back.
Qed.

(** X9. For the ['none'] scope of an exploration whose latest version was
    committed at or before the cut-off date, or whose latest version is
    version 1 or less, the lookup gives the latest version and asks for no
    other. *)
Theorem resolve_none_keeps_latest exp_id latest :
  get_exploration_by_id exp_id None = Ok latest →
  exp_last_updated latest ≤ _STATE_COUNTER_CUTOFF_DATE
  ∨ exp_version latest ≤ 1 →
  resolve_exploration exp_id VERSION_NONE = Ok latest.
Proof.
  intros Hlatest Hstop.
  unfold StatisticsMRJobManager.resolve_exploration.
  rewrite decide_True by done. rewrite Hlatest. simpl.
  by apply rewind_stops.
Qed.

End RewindProperties.

(** * Further properties of StatisticsAggregator *)

Section LiveTierProperties.

Variable get_realtime_id : Z → string → string.

Local Abbreviation handle :=
  (StatisticsAggregator._handle_incoming_event get_realtime_id).

Lemma handle_realtime layer event_type exp_id st :
  realtime (handle layer event_type exp_id st) =
  <[get_realtime_id layer exp_id :=
      match realtime st !! get_realtime_id layer exp_id with
      | None =>
          if decide (event_type = EVENT_TYPE_START_EXPLORATION)
          then {| rt_num_starts := 1; rt_num_completions := 0;
                  rt_realtime_layer := layer |}
          else {| rt_num_starts := 0; rt_num_completions := 1;
                  rt_realtime_layer := layer |}
      | Some m =>
          if decide (event_type = EVENT_TYPE_START_EXPLORATION)
          then one_more_start m else one_more_completion m
      end]> (realtime st).
Proof.
  unfold StatisticsAggregator._handle_incoming_event,
    StatisticsAggregator.run_in_transaction,
    StatisticsAggregator._increment_visit_counter,
    StatisticsAggregator._increment_completion_counter, get.
  case_decide; destruct (realtime st !! get_realtime_id layer exp_id); done.
Qed.

Lemma handle_rest layer event_type exp_id st :
  annotations (handle layer event_type exp_id st) = annotations st
  ∧ active_realtime_index (handle layer event_type exp_id st) =
    active_realtime_index st.
Proof.
  unfold StatisticsAggregator._handle_incoming_event,
    StatisticsAggregator.run_in_transaction,
    StatisticsAggregator._increment_visit_counter,
    StatisticsAggregator._increment_completion_counter, get.
  case_decide; destruct (realtime st !! get_realtime_id layer exp_id); done.
Qed.

Lemma handle_live_counts layer event_type exp_id st :
  let id := get_realtime_id layer exp_id in
  live_starts (realtime (handle layer event_type exp_id st) !! id) =
    live_starts (realtime st !! id)
    + (if decide (event_type = EVENT_TYPE_START_EXPLORATION) then 1 else 0)
  ∧ live_completions (realtime (handle layer event_type exp_id st) !! id) =
    live_completions (realtime st !! id)
    + (if decide (event_type = EVENT_TYPE_START_EXPLORATION) then 0 else 1).
Proof.
  cbv zeta. rewrite handle_realtime, lookup_insert_eq.
  unfold live_starts, live_completions.
  destruct (realtime st !! get_realtime_id layer exp_id); case_decide;
    simpl; lia.
Qed.

Lemma handle_events_snoc layer events event st :
  handle_events get_realtime_id layer (events ++ [event]) st =
  handle layer event.1 event.2 (handle_events get_realtime_id layer events st).
Proof. unfold handle_events. by rewrite foldl_snoc. Qed.

Lemma starts_of_snoc exp_id events event :
  starts_of exp_id (events ++ [event]) =
  starts_of exp_id events
  + (if decide (event.1 = EVENT_TYPE_START_EXPLORATION ∧ event.2 = exp_id)
     then 1 else 0).
Proof.
  unfold starts_of. rewrite filter_app, length_app, filter_cons, filter_nil.
  case_decide; simpl; lia.
Qed.

Lemma completions_of_snoc exp_id events event :
  completions_of exp_id (events ++ [event]) =
  completions_of exp_id events
  + (if decide (event.1 ≠ EVENT_TYPE_START_EXPLORATION ∧ event.2 = exp_id)
     then 1 else 0).
Proof.
  unfold completions_of.
  rewrite filter_app, length_app, filter_cons, filter_nil.
  case_decide; simpl; lia.
Qed.

(** X10. When the ids of the realtime counters of a layer tell the
    explorations apart, the counter of an exploration after a run of events
    holds the starts it held before plus the number of start events of the
    exploration, and the completions it held before plus the number of its
    other events; a missing counter counts as zeros. No snapshot changes. *)
Theorem handle_events_accumulate layer events exp_id st :
  (∀ exp_id', get_realtime_id layer exp_id' = get_realtime_id layer exp_id →
              exp_id' = exp_id) →
  let id := get_realtime_id layer exp_id in
  let st' := handle_events get_realtime_id layer events st in
  live_starts (realtime st' !! id) =
    live_starts (realtime st !! id) + starts_of exp_id events
  ∧ live_completions (realtime st' !! id) =
    live_completions (realtime st !! id) + completions_of exp_id events
  ∧ annotations st' = annotations st.
Proof.
  intros Hinj. cbv zeta.
  induction events as [|[event_type exp_id'] events IH] using rev_ind.
  - unfold starts_of, completions_of. simpl. repeat split; lia.
  - destruct IH as (IHs & IHc & IHa).
    rewrite handle_events_snoc, starts_of_snoc, completions_of_snoc.
    cbn [fst snd].
    destruct (handle_rest layer event_type exp_id'
                (handle_events get_realtime_id layer events st)) as [-> _].
    split_and!; [| |done].
    + destruct (decide (exp_id' = exp_id)) as [->|Hne].
      * destruct (handle_live_counts layer event_type exp_id
                    (handle_events get_realtime_id layer events st))
          as [-> _].
        rewrite IHs. repeat case_decide; destruct_and?; try lia; tauto.
      * rewrite handle_realtime, lookup_insert_ne by (intros ?; by apply Hne, Hinj).
        rewrite IHs, decide_False by tauto. lia.
    + destruct (decide (exp_id' = exp_id)) as [->|Hne].
      * destruct (handle_live_counts layer event_type exp_id
                    (handle_events get_realtime_id layer events st))
          as [_ ->].
        rewrite IHc. repeat case_decide; destruct_and?; try lia; tauto.
      * rewrite handle_realtime, lookup_insert_ne by (intros ?; by apply Hne, Hinj).
        rewrite IHc, decide_False by tauto. lia.
Qed.

Variable get_entity_id : string → string → string.
Variable get_time_in_millisecs : Z → Z.
Variable get_exploration_by_id : string → option string → result Exploration.
Variable get_version : string → Z → result Exploration.

Local Abbreviation get_statistics :=
  (StatisticsAggregator.get_statistics get_entity_id get_realtime_id
     get_time_in_millisecs).
Local Abbreviation reduce :=
  (StatisticsMRJobManager.reduce get_entity_id get_exploration_by_id
     get_version).

Lemma get_statistics_fields st exploration_id version :
  get_statistics st exploration_id version =
  {| start_exploration_count :=
       default 0 (an_num_starts <$>
                    annotations st !! get_entity_id exploration_id version)
       + live_starts
           (realtime st !!
              get_realtime_id (active_realtime_index st) exploration_id);
     complete_exploration_count :=
       default 0 (an_num_completions <$>
                    annotations st !! get_entity_id exploration_id version)
       + live_completions
           (realtime st !!
              get_realtime_id (active_realtime_index st) exploration_id);
     stat_state_hit_counts :=
       default ∅ (an_state_hit_counts <$>
                    annotations st !! get_entity_id exploration_id version);
     stat_last_updated :=
       (λ m, get_time_in_millisecs (an_last_updated m)) <$>
         annotations st !! get_entity_id exploration_id version |}.
Proof.
  unfold StatisticsAggregator.get_statistics,
    StatisticsAggregator.get_active_realtime_layer_id, get,
    live_starts, live_completions.
  destruct (annotations st !! _), (realtime st !! _); simpl; f_equal; lia.
Qed.

(** X11. Right after [reduce] has written the snapshot of a key,
    [get_statistics] for the exploration and scope of the key reports the
    totals of that snapshot plus the counts of the live counter of the
    active layer, and the buckets and the time of that snapshot. *)
Theorem get_statistics_after_reduce
    now st key values exp_id version exploration :
  split ":" key = [exp_id; version] →
  StatisticsMRJobManager.resolve_exploration get_exploration_by_id
    get_version exp_id version = Ok exploration →
  let live :=
    realtime st !! get_realtime_id (active_realtime_index st) exp_id in
  get_statistics (reduce now st key values).2 exp_id version =
  {| start_exploration_count :=
       legacy_count (exp_init_state_name exploration) values
       + count_events EVENT_TYPE_START_EXPLORATION values
       + live_starts live;
     complete_exploration_count :=
       legacy_count OLD_END_DEST values
       + count_events EVENT_TYPE_COMPLETE_EXPLORATION values
       + live_completions live;
     stat_state_hit_counts :=
       an_state_hit_counts (snapshot_of now exp_id version exploration values);
     stat_last_updated := Some (get_time_in_millisecs now) |}.
Proof.
  intros Hkey Hresolve live. rewrite get_statistics_fields.
  unfold StatisticsMRJobManager.reduce. rewrite Hkey, Hresolve.
  cbn [snd StatisticsMRJobManager.create annotations realtime
         active_realtime_index set_annotations].
  rewrite lookup_insert_eq. cbn [fmap option_fmap option_map default from_option id
    an_num_starts an_num_completions an_state_hit_counts an_last_updated].
  rewrite old_models_start_count_loop, new_models_start_count_loop,
    old_models_complete_count_loop, new_models_complete_count_loop.
  reflexivity.
Qed.

(** X12. An event handled in the active layer shows in [get_statistics]
    for its exploration under every scope: a start event adds one to the
    start count, any other event one to the completion count, and the
    buckets and the time of the last update stay. *)
Theorem get_statistics_after_event st event_type exp_id version :
  let before := get_statistics st exp_id version in
  let after :=
    get_statistics (handle (active_realtime_index st) event_type exp_id st)
      exp_id version in
  start_exploration_count after =
    start_exploration_count before
    + (if decide (event_type = EVENT_TYPE_START_EXPLORATION) then 1 else 0)
  ∧ complete_exploration_count after =
    complete_exploration_count before
    + (if decide (event_type = EVENT_TYPE_START_EXPLORATION) then 0 else 1)
  ∧ stat_state_hit_counts after = stat_state_hit_counts before
  ∧ stat_last_updated after = stat_last_updated before.
Proof.
  cbv zeta. rewrite !get_statistics_fields. cbn [start_exploration_count
    complete_exploration_count stat_state_hit_counts stat_last_updated].
  destruct (handle_rest (active_realtime_index st) event_type exp_id st)
    as [-> ->].
  destruct (handle_live_counts (active_realtime_index st) event_type exp_id st)
    as [-> ->].
  repeat split; lia.
Qed.

(** X13. An event whose realtime counter is not the counter of the
    exploration in the active layer, because it is handled in another layer
    or belongs to another exploration, leaves what [get_statistics] reports
    for the exploration as it was. *)
Theorem get_statistics_after_other_event
    st layer event_type exp_id' exp_id version :
  get_realtime_id layer exp_id' ≠
    get_realtime_id (active_realtime_index st) exp_id →
  get_statistics (handle layer event_type exp_id' st) exp_id version =
  get_statistics st exp_id version.
Proof.
  intros Hne. rewrite !get_statistics_fields.
  destruct (handle_rest layer event_type exp_id' st) as [-> ->].
  by rewrite handle_realtime, lookup_insert_ne.
Qed.

End LiveTierProperties.

(** * Further properties of the keys: from map to reduce *)

Lemma has_char_count_char c s :
  has_char c s = false ↔ count_char c s = O.
Proof.
  induction s as [|a s IH]; simpl; [done|].
  rewrite orb_false_iff, IH. destruct (Ascii.eqb a c); simpl; naive_solver lia.
Qed.

Lemma count_char_app c s t :
  count_char c (s ++ t) = (count_char c s + count_char c t)%nat.
Proof. induction s as [|a s IH]; simpl; [done|]. rewrite IH. lia. Qed.

Lemma length_split sep s : length (split sep s) = S (count_char sep s).
Proof.
  induction s as [|a s IH]; simpl; [done|].
  destruct (Ascii.eqb a sep); simpl; [by rewrite IH|].
  destruct (split sep s); simpl in *; lia.
Qed.

Lemma count_char_format_key exp_id version :
  count_char ":" (format_key exp_id version) =
  S (count_char ":" exp_id + count_char ":" version).
Proof. unfold format_key. rewrite !count_char_app. simpl. lia. Qed.

Lemma format_key_inj exp_id version version' :
  format_key exp_id version = format_key exp_id version' → version = version'.
Proof.
  unfold format_key. induction exp_id as [|a exp_id IH]; simpl.
  - by intros [= H].
  - intros [= H]. by apply IH.
Qed.

Lemma eqb_number_char d c :
  is_number_char d = true → is_number_char c = false → Ascii.eqb d c = false.
Proof.
  intros Hd Hc. apply Ascii.eqb_neq. intros <-. congruence.
Qed.

Lemma is_number_char_pretty_N_char y : is_number_char (pretty_N_char y) = true.
Proof.
  apply bool_decide_eq_true. unfold pretty_N_char.
  repeat case_match; set_solver.
Qed.

Lemma has_char_cons c a s :
  has_char c (String a s) = Ascii.eqb a c || has_char c s.
Proof. done. Qed.

Lemma has_char_pretty_N_go c x s :
  is_number_char c = false →
  has_char c (pretty_N_go x s) = has_char c s.
Proof.
  intros Hc. revert s.
  induction (N.lt_wf_0 x) as [x _ IH]; intros s.
  destruct (decide (x = 0)%N) as [->|Hx]; [by rewrite pretty_N_go_0|].
  rewrite pretty_N_go_step by lia.
  rewrite IH by (apply N.div_lt; lia).
  rewrite has_char_cons, eqb_number_char;
    auto using is_number_char_pretty_N_char.
Qed.

Lemma has_char_pretty_N c (x : N) :
  is_number_char c = false → has_char c (pretty x) = false.
Proof.
  intros Hc. unfold pretty, pretty_N. case_decide.
  - rewrite has_char_cons, eqb_number_char; done.
  - by rewrite has_char_pretty_N_go.
Qed.

(** The decimal form of an integer holds digits and a minus sign only. *)
Lemma has_char_str c z : is_number_char c = false → has_char c (str z) = false.
Proof.
  intros Hc. unfold str, pretty, pretty_Z. destruct z as [|p|p].
  - rewrite has_char_cons, eqb_number_char; done.
  - apply (has_char_pretty_N c (Npos p) Hc).
  - change ("-" +:+ pretty p)%string with (String "-" (pretty (Npos p))).
    rewrite has_char_cons, (has_char_pretty_N c (Npos p) Hc).
    rewrite eqb_number_char; done.
Qed.

Lemma has_char_item_version_scope c it :
  is_number_char c = false →
  has_char c "none" = false →
  has_char c (item_version_scope it) = false.
Proof.
  intros Hc Hnone.
  destruct it as [| ? ? ? ? ? [v|]]; simpl; try done.
  by apply has_char_str.
Qed.

Section KeyProperties.

Variable _entity_created_before_job_queued : item → bool.
Variable get_time_in_millisecs : Z → Z.
Variable get_entity_id : string → string → string.
Variable get_exploration_by_id : string → option string → result Exploration.
Variable get_version : string → Z → result Exploration.

Local Abbreviation map_ :=
  (StatisticsMRJobManager.map _entity_created_before_job_queued
     get_time_in_millisecs).
Local Abbreviation reduce :=
  (StatisticsMRJobManager.reduce get_entity_id get_exploration_by_id
     get_version).

Lemma map_before it :
  _entity_created_before_job_queued it = true →
  ∃ value,
    map_ it =
    [(format_key (item_exploration_id it) (item_version_scope it), value);
     (format_key (item_exploration_id it) VERSION_ALL, value)].
Proof.
  intros Hbefore. unfold StatisticsMRJobManager.map. rewrite Hbefore.
  destruct it as [| ? ? ? ? ? [v|]]; by eexists.
Qed.

(** X14. The keys that [map] emits for an entity whose exploration id holds
    no colon are taken apart by [reduce] into that exploration id and the
    scope: first the entity's own scope, then ['all']. The two keys are
    never the same. *)
Theorem map_keys_parse_in_reduce it :
  _entity_created_before_job_queued it = true →
  has_char ":" (item_exploration_id it) = false →
  (λ kv, split ":" kv.1) <$> map_ it =
    [[item_exploration_id it; item_version_scope it];
     [item_exploration_id it; VERSION_ALL]]
  ∧ item_version_scope it ≠ VERSION_ALL
  ∧ NoDup ((λ kv, kv.1) <$> map_ it).
Proof.
  intros Hbefore Hcolon.
  assert (item_version_scope it ≠ VERSION_ALL) as Hscope.
  { intros Heq.
    assert (has_char "a" (item_version_scope it) = false) as Ha
      by (by apply has_char_item_version_scope).
    by rewrite Heq in Ha. }
  destruct (map_before it Hbefore) as [value ->].
  cbn [fmap list_fmap fst]. split_and!; [|done|].
  - rewrite !split_format_key; try done.
    by apply has_char_item_version_scope.
  - apply NoDup_cons. split; [|apply NoDup_singleton].
    intros Hin%list_elem_of_singleton. by apply format_key_inj in Hin.
Qed.

(** X15. The keys that [map] emits for an entity whose exploration id holds
    a colon make [reduce] raise a [ValueError] and leave the store as it
    is, whatever the values. *)
Theorem reduce_rejects_keys_of_ids_with_colon it now st values :
  _entity_created_before_job_queued it = true →
  has_char ":" (item_exploration_id it) = true →
  (λ kv, reduce now st kv.1 values) <$> map_ it =
  [(Raise ValueError, st); (Raise ValueError, st)].
Proof.
  intros Hbefore Hcolon.
  assert (∀ version,
            reduce now st (format_key (item_exploration_id it) version) values
            = (Raise ValueError, st)) as Hreject.
  { intros version. unfold StatisticsMRJobManager.reduce.
    pose proof (length_split ":" (format_key (item_exploration_id it) version))
      as Hlen.
    rewrite count_char_format_key in Hlen.
    assert (count_char ":" (item_exploration_id it) ≠ O) as Hcount.
    { intros H0%has_char_count_char. congruence. }
    destruct (split ":" _) as [|a [|b [|c l]]]; simpl in Hlen; try done; lia. }
  destruct (map_before it Hbefore) as [value ->].
  cbn [fmap list_fmap fst]. by rewrite !Hreject.
Qed.

(** X16. For a state counter with the id ['<exploration id>.<state name>'],
    where the exploration id holds no dot, [map] emits under the ['none']
    and the ['all'] key of that exploration id one value with that
    exploration id, the state name behind the first dot (further dots
    belong to the state name) and the four counts of the counter. *)
Theorem map_state_counter exp_id state_name fec sec rac aac created_on :
  let it :=
    StateCounterModel (exp_id ++ "." ++ state_name) fec sec rac aac
      created_on in
  let value :=
    VCounter
      {| cv_exploration_id := exp_id; cv_version := VERSION_NONE;
         cv_state_name := state_name; cv_first_entry_count := fec;
         cv_subsequent_entries_count := sec; cv_resolved_answer_count := rac;
         cv_active_answer_count := aac |} in
  _entity_created_before_job_queued it = true →
  has_char "." exp_id = false →
  map_ it =
  [(format_key exp_id VERSION_NONE, value);
   (format_key exp_id VERSION_ALL, value)].
Proof.
  intros it value Hbefore Hdot. unfold StatisticsMRJobManager.map.
  rewrite Hbefore. unfold it.
  destruct (counter_id_parts exp_id state_name Hdot) as [-> ->]. done.
Qed.

(** X17. For a state counter whose id holds no dot at all, [map] takes the
    id without its last character for the exploration id and the whole id
    for the state name. *)
Theorem map_state_counter_without_dot id fec sec rac aac created_on :
  let it := StateCounterModel id fec sec rac aac created_on in
  let exp_id := take_str (String.length id - 1) id in
  let value :=
    VCounter
      {| cv_exploration_id := exp_id; cv_version := VERSION_NONE;
         cv_state_name := id; cv_first_entry_count := fec;
         cv_subsequent_entries_count := sec; cv_resolved_answer_count := rac;
         cv_active_answer_count := aac |} in
  _entity_created_before_job_queued it = true →
  has_char "." id = false →
  map_ it =
    [(format_key exp_id VERSION_NONE, value);
     (format_key exp_id VERSION_ALL, value)]
  ∧ String.length exp_id = (String.length id - 1)%nat.
Proof.
  intros it exp_id value Hbefore Hdot. split.
  - unfold StatisticsMRJobManager.map. rewrite Hbefore. unfold it.
    unfold find. rewrite (find_from_absent "." id 0 Hdot).
    unfold slice_to, slice_from, slice_bound. simpl Z.ltb. cbn iota.
    replace (Z.to_nat (Z.max 0 (Z.of_nat (String.length id) + -1)))
      with (String.length id - 1)%nat by lia.
    replace (Z.to_nat (Z.min (-1 + 1) (Z.of_nat (String.length id))))
      with O by lia.
    by destruct id.
  - apply take_str_length. lia.
Qed.

End KeyProperties.

(** * Further properties of InteractionAnswerSummariesMRJobManager *)

Lemma split_app_sep sep a t :
  has_char sep a = false →
  split sep (a ++ String sep t) = a :: split sep t.
Proof.
  induction a as [|c a IH]; simpl.
  - by rewrite Ascii.eqb_refl.
  - intros [-> Ha]%orb_false_iff. by rewrite IH.
Qed.

(** A key of three parts is taken apart at its two colons. *)
Lemma split_key3 (a b c : string) :
  has_char ":" a = false → has_char ":" b = false → has_char ":" c = false →
  split ":" (a ++ ":" ++ b ++ ":" ++ c)%string = [a; b; c].
Proof.
  intros Ha Hb Hc.
  change (a ++ ":" ++ b ++ ":" ++ c)%string
    with (a ++ String ":" (b ++ String ":" c))%string.
  by rewrite !split_app_sep, split_no_sep.
Qed.

Lemma count_char_key3 (a b c : string) :
  count_char ":" (a ++ ":" ++ b ++ ":" ++ c)%string =
  S (S (count_char ":" a + count_char ":" b + count_char ":" c)).
Proof. rewrite !count_char_app. simpl. lia. Qed.

(** * Properties of the UTF-8 encoding *)

Lemma lead_byte_of_two (c : N) :
  (c < 0x800)%N → (0x80 ≤ 0xC0 + c / 0x40 < 256)%N.
Proof.
  intros Hc. pose proof (N.le_0_l (c / 0x40)).
  assert (c / 0x40 < 0x20)%N by (apply N.Div0.div_lt_upper_bound; lia).
  lia.
Qed.

Lemma lead_byte_of_three (c : N) :
  (c < 0x10000)%N → (0x80 ≤ 0xE0 + c / 0x1000 < 256)%N.
Proof.
  intros Hc. pose proof (N.le_0_l (c / 0x1000)).
  assert (c / 0x1000 < 0x10)%N by (apply N.Div0.div_lt_upper_bound; lia).
  lia.
Qed.

Lemma lead_byte_of_four (c : N) :
  (0x80 ≤ 0xF0 + (c / 0x40000) mod 8 < 256)%N.
Proof.
  pose proof (N.mod_upper_bound (c / 0x40000) 8).
  pose proof (N.le_0_l ((c / 0x40000) mod 8)). lia.
Qed.

Lemma continuation_byte (n : N) : (0x80 ≤ 0x80 + n mod 0x40 < 256)%N.
Proof.
  pose proof (N.mod_upper_bound n 0x40).
  pose proof (N.le_0_l (n mod 0x40)). lia.
Qed.

Lemma eqb_ascii_of_N (n : N) (a : ascii) :
  (n < 256)%N → Ascii.eqb (ascii_of_N n) a = (n =? N_of_ascii a)%N.
Proof.
  intros Hn. destruct (N.eqb_spec n (N_of_ascii a)) as [->|Hne].
  - rewrite ascii_N_embedding. apply Ascii.eqb_refl.
  - apply Ascii.eqb_neq. intros <-. by rewrite N_ascii_embedding in Hne.
Qed.

(** A byte of 0x80 or above is no ASCII character. *)
Lemma eqb_high_byte (n : N) (a : ascii) :
  (0x80 ≤ n < 256)%N → (N_of_ascii a < 0x80)%N →
  Ascii.eqb (ascii_of_N n) a = false.
Proof.
  intros Hn Ha. rewrite eqb_ascii_of_N by lia. apply N.eqb_neq. lia.
Qed.


Lemma has_char_app c (s t : string) :
  has_char c (s ++ t) = has_char c s || has_char c t.
Proof.
  induction s as [|a s IH]; simpl; [done|]. by rewrite IH, orb_assoc.
Qed.


(** An ASCII character occurs among the bytes of a code point only as the
    one byte of its own code point. *)
Lemma has_char_encode_code_point (a : ascii) (c : N) :
  (N_of_ascii a < 0x80)%N →
  has_char a (encode_code_point c) = (c =? N_of_ascii a)%N.
Proof.
  intros Ha. unfold encode_code_point.
  destruct (N.ltb_spec c 0x80) as [H1|H1].
  { rewrite has_char_cons, eqb_ascii_of_N by lia. apply orb_false_r. }
  assert ((c =? N_of_ascii a)%N = false) as -> by (apply N.eqb_neq; lia).
  destruct (N.ltb_spec c 0x800) as [H2|H2];
    [|destruct (N.ltb_spec c 0x10000) as [H3|H3]];
    rewrite !has_char_cons;
    rewrite ?(eqb_high_byte _ a (lead_byte_of_two c H2) Ha),
      ?(eqb_high_byte _ a (lead_byte_of_three c H3) Ha),
      ?(eqb_high_byte _ a (lead_byte_of_four c) Ha),
      ?(eqb_high_byte _ a (continuation_byte _) Ha);
    reflexivity.
Qed.


Lemma app_assoc_str (s t r : string) :
  ((s ++ t) ++ r)%string = (s ++ (t ++ r))%string.
Proof.
  induction s as [|a s IH]; [done|].
  change (String a ((s ++ t) ++ r) = String a (s ++ (t ++ r)))%string.
  by rewrite IH.
Qed.

Lemma encode_utf8_app (u v : unicode) :
  encode_utf8 (u ++ v)%list = (encode_utf8 u ++ encode_utf8 v)%string.
Proof.
  induction u as [|c u IH]; simpl; [done|].
  rewrite IH. symmetry. apply app_assoc_str.
Qed.

(** An ASCII character occurs in the UTF-8 bytes of a text exactly when
    its code point occurs in the text. *)
Lemma has_char_encode_utf8 (a : ascii) (u : unicode) :
  (N_of_ascii a < 0x80)%N →
  has_char a (encode_utf8 u) = bool_decide (N_of_ascii a ∈ u).
Proof.
  intros Ha. induction u as [|c u IH]; cbn [encode_utf8 has_char].
  - symmetry. apply bool_decide_eq_false. by intros ?%elem_of_nil.
  - rewrite has_char_app, has_char_encode_code_point, IH by done.
    destruct (N.eqb_spec c (N_of_ascii a)) as [->|Hne]; cbn [orb].
    + symmetry. apply bool_decide_eq_true. left.
    + apply bool_decide_ext. rewrite elem_of_cons. naive_solver.
Qed.


(** The UTF-8 bytes of an ASCII text are its characters. *)
Lemma encode_utf8_ascii_text (s : string) :
  is_ascii s = true → encode_utf8 (ascii_text s) = s.
Proof.
  induction s as [|a s IH]; simpl; [done|].
  intros [Ha Hs]%andb_true_iff. rewrite IH by done.
  unfold encode_code_point. rewrite Ha, ascii_N_embedding. done.
Qed.

Lemma is_number_char_ascii (c : ascii) :
  is_number_char c = true → (N_of_ascii c < 0x80)%N.
Proof.
  intros H%bool_decide_eq_true.
  repeat (apply elem_of_cons in H as [->|H]; [reflexivity|]).
  by apply elem_of_nil in H.
Qed.

Lemma is_ascii_number_chars (s : string) :
  (∀ c, is_number_char c = false → has_char c s = false) →
  is_ascii s = true.
Proof.
  induction s as [|a s IH]; intros Hs; simpl; [done|].
  apply andb_true_iff. split.
  - apply N.ltb_lt, is_number_char_ascii.
    destruct (is_number_char a) eqn:Ha; [done|].
    specialize (Hs a Ha). rewrite has_char_cons, Ascii.eqb_refl in Hs.
    done.
  - apply IH. intros c Hc. specialize (Hs c Hc).
    rewrite has_char_cons in Hs. by apply orb_false_iff in Hs as [_ ?].
Qed.

(** The decimal form of an integer is ASCII. *)
Lemma is_ascii_str (z : Z) : is_ascii (str z) = true.
Proof. apply is_ascii_number_chars. intros c Hc. by apply has_char_str. Qed.

(** The UTF-8 bytes of the unicode key of the answers job. *)
Lemma encode_utf8_format_key3 (a c : unicode) (b : string) :
  is_ascii b = true →
  encode_utf8
    (InteractionAnswerSummariesMRJobManager.format_key3 a (ascii_text b) c) =
  (encode_utf8 a ++ ":" ++ b ++ ":" ++ encode_utf8 c)%string.
Proof.
  intros Hb. unfold InteractionAnswerSummariesMRJobManager.format_key3.
  rewrite !encode_utf8_app, (encode_utf8_ascii_text b Hb).
  by rewrite (encode_utf8_ascii_text ":" eq_refl).
Qed.

(** * Further properties of InteractionAnswerSummariesMRJobManager: _encode *)






Section EncodeProperties.

Import InteractionAnswerSummariesMRJobManager.


Local Abbreviation raised_by_encode :=
  (λ e : exn, e = Exception ∨ e = UnicodeDecodeError).






End EncodeProperties.

Section AnswerJobProperties.

Variable answer : Type.
Variable calc_output : Type.
Variable answer_calculation_ids : string → result (list string).
Variable get_calculation_by_id :
  string →
  result (InteractionAnswerSummariesMRJobManager.calculation
            answer calc_output).
Variable _entity_created_before_job_queued :
  InteractionAnswerSummariesMRJobManager.StateAnswersModel answer → bool.

Import InteractionAnswerSummariesMRJobManager.

Local Abbreviation map_ := (map _entity_created_before_job_queued).
Local Abbreviation reduce :=
  (reduce answer_calculation_ids get_calculation_by_id).

(** The two pairs that [map] emits for an entity created before the
    cutoff: the keys as byte strings and the values. *)
Lemma map_answers_before (item : StateAnswersModel answer) :
  _entity_created_before_job_queued item = true →
  let exp_id := encode_utf8 (sam_exploration_id item) in
  let state_name := encode_utf8 (sam_state_name item) in
  map_ item =
  Ok [((exp_id ++ ":" ++ str (sam_exploration_version item) ++ ":"
          ++ state_name)%string,
       {| ea_exploration_id := sam_exploration_id item;
          ea_exploration_version := inl (sam_exploration_version item);
          ea_state_name := PyStr state_name;
          ea_interaction_id := sam_interaction_id item;
          ea_submitted_answer_list := sam_submitted_answer_list item |});
      ((exp_id ++ ":" ++ VERSION_ALL ++ ":" ++ state_name)%string,
       {| ea_exploration_id := sam_exploration_id item;
          ea_exploration_version := inr VERSION_ALL;
          ea_state_name := PyStr state_name;
          ea_interaction_id := sam_interaction_id item;
          ea_submitted_answer_list := sam_submitted_answer_list item |})].
Proof.
  intros Hbefore. cbv zeta. unfold InteractionAnswerSummariesMRJobManager.map.
  rewrite Hbefore. cbn [_encode mbind result_bind].
  cbn [ea_exploration_id ea_state_name ea_interaction_id
         ea_submitted_answer_list].
  by rewrite !encode_utf8_format_key3 by (done || apply is_ascii_str).
Qed.

(** X19. For an entity created before the cutoff, [map] does not raise and
    emits two pairs. Their keys are the byte strings
    ['<exploration id>:<version>:<state name>'] and
    ['<exploration id>:all:<state name>'], with the exploration id and the
    state name as their UTF-8 bytes and the version in its decimal form.
    Their values hold the entity's exploration id, interaction id and
    answers and the UTF-8 bytes of its state name, the first with the
    entity's version number, the second with ['all'] in its place. When
    the exploration id and the state name hold no colon, [reduce] takes
    the two keys apart into these three parts. *)
Theorem map_answers_keys_parse_in_reduce
    (item : StateAnswersModel answer) :
  _entity_created_before_job_queued item = true →
  let exp_id := encode_utf8 (sam_exploration_id item) in
  let version := pretty (sam_exploration_version item) in
  let state_name := encode_utf8 (sam_state_name item) in
  ∃ value1 value2,
    map_ item =
      Ok [((exp_id ++ ":" ++ version ++ ":" ++ state_name)%string, value1);
          ((exp_id ++ ":all:" ++ state_name)%string, value2)]
    ∧ ea_exploration_version value1 = inl (sam_exploration_version item)
    ∧ ea_exploration_version value2 = inr "all"%string
    ∧ Forall
        (λ value,
           ea_exploration_id value = sam_exploration_id item
           ∧ ea_state_name value = PyStr state_name
           ∧ ea_interaction_id value = sam_interaction_id item
           ∧ ea_submitted_answer_list value = sam_submitted_answer_list item)
        [value1; value2]
    ∧ (colon ∉ sam_exploration_id item → colon ∉ sam_state_name item →
       split ":" (exp_id ++ ":" ++ version ++ ":" ++ state_name)%string =
         [exp_id; version; state_name]
       ∧ split ":" (exp_id ++ ":all:" ++ state_name)%string =
         [exp_id; "all"%string; state_name]).
Proof.
  intros Hbefore exp_id version state_name.
  eexists _, _. split; [exact (map_answers_before item Hbefore)|].
  split; [done|]. split; [done|]. split; [by repeat constructor|].
  intros He Hs.
  assert (has_char ":" exp_id = false) as He'.
  { unfold exp_id. rewrite has_char_encode_utf8 by reflexivity.
    by apply bool_decide_eq_false. }
  assert (has_char ":" state_name = false) as Hs'.
  { unfold state_name. rewrite has_char_encode_utf8 by reflexivity.
    by apply bool_decide_eq_false. }
  split.
  - apply split_key3; try done. by apply has_char_str.
  - by apply (split_key3 exp_id "all" state_name).
Qed.

(** X20. When the state name or the exploration id of an entity holds a
    colon, [reduce] raises a [ValueError] on either key that [map] emits
    for the entity and saves nothing, whatever its inputs. *)
Theorem reduce_rejects_answer_keys_with_colon
    (item : StateAnswersModel answer) saved dicts :
  _entity_created_before_job_queued item = true →
  colon ∈ sam_state_name item ∨ colon ∈ sam_exploration_id item →
  ∃ pairs,
    map_ item = Ok pairs
    ∧ (λ kv, reduce saved kv.1 dicts) <$> pairs =
      [(Raise ValueError, saved); (Raise ValueError, saved)].
Proof.
  intros Hbefore Hcolon.
  assert (∀ version,
            reduce saved
              (encode_utf8 (sam_exploration_id item) ++ ":" ++ version
                 ++ ":" ++ encode_utf8 (sam_state_name item))%string dicts
            = (Raise ValueError, saved)) as Hreject.
  { intros version.
    unfold InteractionAnswerSummariesMRJobManager.reduce,
      combine_state_answers.
    pose proof (length_split ":"
                  (encode_utf8 (sam_exploration_id item) ++ ":" ++ version
                     ++ ":" ++ encode_utf8 (sam_state_name item))%string)
      as Hlen.
    rewrite count_char_key3 in Hlen.
    assert (count_char ":" (encode_utf8 (sam_exploration_id item))
            + count_char ":" (encode_utf8 (sam_state_name item)) ≠ 0)%nat
      as Hcount.
    { intros H0.
      assert (has_char ":" (encode_utf8 (sam_state_name item)) = false
              ∧ has_char ":" (encode_utf8 (sam_exploration_id item)) = false)
        as [Hs He] by (rewrite !has_char_count_char; lia).
      rewrite has_char_encode_utf8 in Hs, He by reflexivity.
      apply bool_decide_eq_false in Hs, He. by destruct Hcolon. }
    destruct (split ":" _) as [|a [|b [|c [|d l]]]]; simpl in Hlen;
      try done; lia. }
  eexists. split; [exact (map_answers_before item Hbefore)|].
  cbn [fmap list_fmap fst]. by rewrite !Hreject.
Qed.

(** X21. [reduce] raises before it looks at a registry, and saves nothing,
    when its key has not three parts (a [ValueError], also on an empty
    list of inputs) or when the key has three parts and the list of inputs
    is empty (an [IndexError]). *)
Theorem reduce_answers_bad_input saved key
    (dicts : list (state_answers_dict answer)) :
  length (split ":" key) ≠ 3%nat ∨ dicts = [] →
  reduce saved key dicts =
  (Raise (if decide (length (split ":" key) = 3%nat)
          then IndexError else ValueError), saved).
Proof.
  intros Hbad.
  unfold InteractionAnswerSummariesMRJobManager.reduce, combine_state_answers.
  destruct (split ":" key) as [|a [|b [|c [|d l]]]]; try done.
  destruct Hbad as [Hlen| ->]; [done|]. done.
Qed.

Lemma for_each_Raise {A B} (f : A → result B) (l : list A) :
  Exists (λ x, ∃ e, f x = Raise e) l → ∃ e, for_each f l = Raise e.
Proof.
  induction l as [|x l IH]; intros Hex.
  - by apply Exists_nil in Hex.
  - simpl. destruct (f x) as [y|e] eqn:Hx; [|by eexists].
    apply Exists_cons in Hex as [[e He]|Hex]; [congruence|].
    destruct (IH Hex) as [e ->]. by eexists.
Qed.

(** X22. When the interaction of the first input is not registered, or one
    of its calculation ids is not, [reduce] raises before any calculation
    runs, and saves nothing. *)
Theorem reduce_answers_unregistered saved key exploration_id
    exploration_version state_name (first : state_answers_dict answer) rest :
  split ":" key = [exploration_id; exploration_version; state_name] →
  match answer_calculation_ids (sa_interaction_id first) with
  | Raise _ => True
  | Ok calc_ids =>
      Exists (λ calc_id, ∃ e, get_calculation_by_id calc_id = Raise e)
             calc_ids
  end →
  ∃ e, reduce saved key (first :: rest) = (Raise e, saved).
Proof.
  intros Hkey Hmissing.
  unfold InteractionAnswerSummariesMRJobManager.reduce, combine_state_answers.
  rewrite Hkey. simpl.
  destruct (answer_calculation_ids (sa_interaction_id first))
    as [calc_ids|e]; [|by eexists].
  destruct (for_each_Raise _ _ Hmissing) as [e ->]. by eexists.
Qed.

Lemma run_calculations_app
    (calcs1 calcs2 : list (calculation answer calc_output)) combined saved
    outputs :
  Forall2 (λ calc out, calc combined = Ok out) calcs1 outputs →
  run_calculations (calcs1 ++ calcs2) combined saved =
  run_calculations calcs2 combined (saved ++ outputs).
Proof.
  intros H. revert saved.
  induction H as [|calc out calcs outs Hcalc _ IH]; intros saved; simpl.
  - by rewrite app_nil_r.
  - rewrite Hcalc, IH. by rewrite <- app_assoc.
Qed.

(** X23. When all calculations registered for the interaction of the first
    input succeed on the combined record, [reduce] returns normally and
    has saved their outputs, in the order of the calculation ids, behind
    the outputs saved before. *)
Theorem reduce_answers_saves_outputs_in_order saved key exploration_id
    exploration_version state_name (first : state_answers_dict answer) rest
    calc_ids (calculations : list (calculation answer calc_output))
    (outputs : list calc_output) :
  split ":" key = [exploration_id; exploration_version; state_name] →
  answer_calculation_ids (sa_interaction_id first) = Ok calc_ids →
  for_each get_calculation_by_id calc_ids = Ok calculations →
  let combined :=
    {| sa_exploration_id := exploration_id;
       sa_exploration_version := exploration_version;
       sa_state_name := state_name;
       sa_interaction_id := sa_interaction_id first;
       sa_submitted_answer_list := chain_answers (first :: rest) |} in
  Forall2 (λ calc out, calc combined = Ok out) calculations outputs →
  reduce saved key (first :: rest) = (Ok (), (saved ++ outputs)%list).
Proof.
  intros Hkey Hids Hcalcs combined Hall.
  unfold InteractionAnswerSummariesMRJobManager.reduce, combine_state_answers.
  rewrite Hkey. cbn [index lookup list_lookup mbind result_bind
                       sa_interaction_id].
  rewrite Hids, Hcalcs.
  rewrite <- (app_nil_r calculations).
  by rewrite (run_calculations_app _ [] _ _ outputs Hall).
Qed.

(** X24. When a calculation raises on the combined record, [reduce] raises
    the same; the outputs of the calculations in front of it stay saved
    and the calculations behind it do not run. *)
Theorem reduce_answers_failing_calculation saved key exploration_id
    exploration_version state_name (first : state_answers_dict answer) rest
    calc_ids (succeeding : list (calculation answer calc_output))
    (failing : calculation answer calc_output)
    (behind : list (calculation answer calc_output))
    (outputs : list calc_output) (e : exn) :
  split ":" key = [exploration_id; exploration_version; state_name] →
  answer_calculation_ids (sa_interaction_id first) = Ok calc_ids →
  for_each get_calculation_by_id calc_ids =
    Ok (succeeding ++ failing :: behind)%list →
  let combined :=
    {| sa_exploration_id := exploration_id;
       sa_exploration_version := exploration_version;
       sa_state_name := state_name;
       sa_interaction_id := sa_interaction_id first;
       sa_submitted_answer_list := chain_answers (first :: rest) |} in
  Forall2 (λ calc out, calc combined = Ok out) succeeding outputs →
  failing combined = Raise e →
  reduce saved key (first :: rest) = (Raise e, (saved ++ outputs)%list).
Proof.
  intros Hkey Hids Hcalcs combined Hall Hfail.
  unfold InteractionAnswerSummariesMRJobManager.reduce, combine_state_answers.
  rewrite Hkey. cbn [index lookup list_lookup mbind result_bind
                       sa_interaction_id].
  rewrite Hids, Hcalcs.
  rewrite (run_calculations_app _ _ _ _ outputs Hall).
  cbn [run_calculations]. fold combined. by rewrite Hfail.
Qed.

End AnswerJobProperties.

(** * The further properties on sample data *)

Lemma reduce_no_values_witness :
  split ":" "exp1:1" = ["exp1"; "1"]
  ∧ StatisticsMRJobManager.resolve_exploration
      sample_get_exploration_by_id sample_get_version "exp1" "1" =
    Ok sample_exploration
  ∧ ∃ snapshot,
      annotations
        (StatisticsMRJobManager.reduce format_key
           sample_get_exploration_by_id sample_get_version 100 sample_store
           "exp1:1" []).2 !! format_key "exp1" "1" = Some snapshot
      ∧ an_num_starts snapshot = 0
      ∧ an_state_hit_counts snapshot !! Some "Quiz" = Some zero_bucket
      ∧ an_state_hit_counts snapshot !! Some "Other" = None.
Proof.
  split; [reflexivity|]. split; [reflexivity|].
  destruct (reduce_no_values format_key sample_get_exploration_by_id
              sample_get_version 100 sample_store "exp1:1" "exp1" "1"
              sample_exploration eq_refl eq_refl)
    as (snapshot & Hsnap & Hstarts & _ & Hbuckets).
  exists snapshot. split; [exact Hsnap|]. split; [exact Hstarts|].
  rewrite !Hbuckets. split; reflexivity.
Defined.

Lemma sample_quiz_is_state : "Quiz" ∈ exp_states sample_exploration.
Proof. right. left. Qed.

Lemma reduce_buckets_of_exploration_states_witness :
  split ":" "exp1:1" = ["exp1"; "1"]
  ∧ StatisticsMRJobManager.resolve_exploration
      sample_get_exploration_by_id sample_get_version "exp1" "1" =
    Ok sample_exploration
  ∧ "Quiz" ∈ exp_states sample_exploration
  ∧ ∃ snapshot b,
      annotations
        (StatisticsMRJobManager.reduce format_key
           sample_get_exploration_by_id sample_get_version 100 sample_store
           "exp1:1" sample_values).2 !! format_key "exp1" "1" = Some snapshot
      ∧ an_state_hit_counts snapshot !! Some "Quiz" = Some b
      ∧ is_Some (b !! no_answer_count).
Proof.
  split; [reflexivity|]. split; [reflexivity|].
  split; [exact sample_quiz_is_state|].
  destruct (reduce_buckets_of_exploration_states format_key
              sample_get_exploration_by_id sample_get_version 100
              sample_store "exp1:1" sample_values "exp1" "1"
              sample_exploration "Quiz" eq_refl eq_refl sample_quiz_is_state)
    as (snapshot & b & total & first & no_answer & Hsnap & Hb & _ & _ & Hno).
  exists snapshot, b. split; [exact Hsnap|]. split; [exact Hb|].
  exists no_answer. exact Hno.
Defined.

Lemma reduce_bucket_counters_witness :
  split ":" "exp1:1" = ["exp1"; "1"]
  ∧ StatisticsMRJobManager.resolve_exploration
      sample_get_exploration_by_id sample_get_version "exp1" "1" =
    Ok sample_exploration
  ∧ ∃ snapshot,
      annotations
        (StatisticsMRJobManager.reduce format_key
           sample_get_exploration_by_id sample_get_version 100 sample_store
           "exp1:1" (VCounter sample_counter :: sample_values)).2
        !! format_key "exp1" "1" = Some snapshot
      ∧ count (an_state_hit_counts snapshot) (Some "Intro") total_entry_count
        = 5
      ∧ count (an_state_hit_counts snapshot) (Some "Intro") first_entry_count
        = 4.
Proof.
  split; [reflexivity|]. split; [reflexivity|].
  destruct (reduce_bucket_counters format_key sample_get_exploration_by_id
              sample_get_version 100 sample_store "exp1:1"
              (VCounter sample_counter :: sample_values) "exp1" "1"
              sample_exploration (Some "Intro") eq_refl eq_refl)
    as (snapshot & Hsnap & Htotal & Hfirst & _).
  exists snapshot. split; [exact Hsnap|].
  split; [rewrite Htotal|rewrite Hfirst]; reflexivity.
Defined.



Lemma sample_history_above :
  ∀ v, 1 < v < exp_version (sample_version 3 1500000000) →
       ∃ e, sample_history_version "exp2" v = Ok e
            ∧ exp_last_updated e > _STATE_COUNTER_CUTOFF_DATE.
Proof.
  intros v Hv. simpl in Hv. assert (v = 2) as -> by lia.
  eexists. split; [reflexivity|]. done.
Qed.

Lemma resolve_none_walks_back_witness :
  sample_history_latest "exp2" None = Ok (sample_version 3 1500000000)
  ∧ exp_last_updated (sample_version 3 1500000000)
    > _STATE_COUNTER_CUTOFF_DATE
  ∧ 1 ≤ 1 < exp_version (sample_version 3 1500000000)
  ∧ StatisticsMRJobManager.resolve_exploration sample_history_latest
      sample_history_version "exp2" VERSION_NONE =
    Ok (sample_version 1 1400000000).
Proof.
  split; [reflexivity|]. split; [done|]. split; [done|].
  apply (resolve_none_walks_back sample_history_latest sample_history_version
           "exp2" (sample_version 3 1500000000) 1 eq_refl).
  - done.
  - done.
  - exact sample_history_above.
  - left. done.
Defined.

Lemma resolve_none_keeps_latest_witness :
  sample_get_exploration_by_id "exp1" None = Ok sample_exploration
  ∧ (exp_last_updated sample_exploration ≤ _STATE_COUNTER_CUTOFF_DATE
     ∨ exp_version sample_exploration ≤ 1)
  ∧ StatisticsMRJobManager.resolve_exploration sample_get_exploration_by_id
      sample_get_version "exp1" VERSION_NONE = Ok sample_exploration.
Proof.
  split; [reflexivity|]. split; [by left|].
  apply (resolve_none_keeps_latest sample_get_exploration_by_id
           sample_get_version "exp1" sample_exploration eq_refl).
  by left.
Defined.

Lemma sample_get_realtime_id_inj layer exp_id' exp_id :
  sample_get_realtime_id layer exp_id' = sample_get_realtime_id layer exp_id →
  exp_id' = exp_id.
Proof. apply format_key_inj. Qed.

Lemma handle_events_accumulate_witness :
  (∀ exp_id', sample_get_realtime_id 7 exp_id' =
              sample_get_realtime_id 7 "exp1" → exp_id' = "exp1")
  ∧ live_starts
      (realtime (handle_events sample_get_realtime_id 7 sample_events
                   sample_store) !! sample_get_realtime_id 7 "exp1") = 2
  ∧ live_completions
      (realtime (handle_events sample_get_realtime_id 7 sample_events
                   sample_store) !! sample_get_realtime_id 7 "exp1") = 1.
Proof.
  split; [intros exp_id'; apply sample_get_realtime_id_inj|].
  destruct (handle_events_accumulate sample_get_realtime_id 7 sample_events
              "exp1" sample_store
              (λ exp_id', sample_get_realtime_id_inj 7 exp_id' "exp1"))
    as (Hstarts & Hcompletions & _).
  split; [rewrite Hstarts|rewrite Hcompletions]; reflexivity.
Defined.

Lemma get_statistics_after_reduce_witness :
  split ":" "exp1:1" = ["exp1"; "1"]
  ∧ StatisticsMRJobManager.resolve_exploration
      sample_get_exploration_by_id sample_get_version "exp1" "1" =
    Ok sample_exploration
  ∧ start_exploration_count
      (StatisticsAggregator.get_statistics format_key sample_get_realtime_id
         (λ t, t)
         (StatisticsMRJobManager.reduce format_key
            sample_get_exploration_by_id sample_get_version 100 sample_store
            "exp1:1" sample_values).2 "exp1" "1") = 2.
Proof.
  split; [reflexivity|]. split; [reflexivity|].
  rewrite (get_statistics_after_reduce sample_get_realtime_id format_key
             (λ t, t) sample_get_exploration_by_id sample_get_version 100
             sample_store "exp1:1" sample_values "exp1" "1"
             sample_exploration eq_refl eq_refl).
  reflexivity.
Defined.

Lemma get_statistics_after_other_event_witness :
  sample_get_realtime_id 1 "exp1" ≠
    sample_get_realtime_id (active_realtime_index sample_store) "exp1"
  ∧ StatisticsAggregator.get_statistics format_key sample_get_realtime_id
      (λ t, t)
      (StatisticsAggregator._handle_incoming_event sample_get_realtime_id 1
         "start" "exp1" sample_store) "exp1" "all" =
    StatisticsAggregator.get_statistics format_key sample_get_realtime_id
      (λ t, t) sample_store "exp1" "all".
Proof.
  assert (sample_get_realtime_id 1 "exp1" ≠
          sample_get_realtime_id (active_realtime_index sample_store) "exp1")
    as Hne by (vm_compute; discriminate).
  split; [exact Hne|].
  exact (get_statistics_after_other_event sample_get_realtime_id format_key
           (λ t, t) sample_store 1 "start" "exp1" "exp1" "all" Hne).
Defined.

Lemma map_keys_parse_in_reduce_witness :
  (λ _ : item, true) sample_item = true
  ∧ has_char ":" (item_exploration_id sample_item) = false
  ∧ (λ kv, split ":" kv.1)
      <$> StatisticsMRJobManager.map (λ _, true) (λ t, t) sample_item =
    [["exp1"; "4"]; ["exp1"; "all"]].
Proof.
  split; [reflexivity|]. split; [reflexivity|].
  exact (proj1 (map_keys_parse_in_reduce (λ _, true) (λ t, t) sample_item
                  eq_refl eq_refl)).
Defined.

Lemma reduce_rejects_keys_of_ids_with_colon_witness :
  (λ _ : item, true) sample_item_with_colon = true
  ∧ has_char ":" (item_exploration_id sample_item_with_colon) = true
  ∧ (λ kv,
       StatisticsMRJobManager.reduce format_key sample_get_exploration_by_id
         sample_get_version 100 sample_store kv.1 sample_values)
      <$> StatisticsMRJobManager.map (λ _, true) (λ t, t)
            sample_item_with_colon =
    [(Raise ValueError, sample_store); (Raise ValueError, sample_store)].
Proof.
  split; [reflexivity|]. split; [reflexivity|].
  exact (reduce_rejects_keys_of_ids_with_colon (λ _, true) (λ t, t)
           format_key sample_get_exploration_by_id sample_get_version
           sample_item_with_colon 100 sample_store sample_values
           eq_refl eq_refl).
Defined.

Lemma map_state_counter_witness :
  (λ _ : item, true) (StateCounterModel "exp1.Quiz.1" 3 1 0 2 1000) = true
  ∧ has_char "." "exp1" = false
  ∧ StatisticsMRJobManager.map (λ _, true) (λ t, t)
      (StateCounterModel "exp1.Quiz.1" 3 1 0 2 1000) =
    [("exp1:none",
      VCounter
        {| cv_exploration_id := "exp1"; cv_version := "none";
           cv_state_name := "Quiz.1"; cv_first_entry_count := 3;
           cv_subsequent_entries_count := 1; cv_resolved_answer_count := 0;
           cv_active_answer_count := 2 |});
     ("exp1:all",
      VCounter
        {| cv_exploration_id := "exp1"; cv_version := "none";
           cv_state_name := "Quiz.1"; cv_first_entry_count := 3;
           cv_subsequent_entries_count := 1; cv_resolved_answer_count := 0;
           cv_active_answer_count := 2 |})].
Proof.
  split; [reflexivity|]. split; [reflexivity|].
  exact (map_state_counter (λ _, true) (λ t, t) "exp1" "Quiz.1" 3 1 0 2 1000
           eq_refl eq_refl).
Defined.

Lemma map_state_counter_without_dot_witness :
  (λ _ : item, true) (StateCounterModel "nodot" 3 1 0 2 1000) = true
  ∧ has_char "." "nodot" = false
  ∧ (λ kv, kv.1)
      <$> StatisticsMRJobManager.map (λ _, true) (λ t, t)
            (StateCounterModel "nodot" 3 1 0 2 1000) =
    ["nodo:none"; "nodo:all"].
Proof.
  split; [reflexivity|]. split; [reflexivity|].
  rewrite (proj1 (map_state_counter_without_dot (λ _, true) (λ t, t) "nodot"
                    3 1 0 2 1000 eq_refl eq_refl)).
  reflexivity.
Defined.


Lemma sample_answers_model_no_colon :
  colon ∉ InteractionAnswerSummariesMRJobManager.sam_exploration_id
            sample_answers_model
  ∧ colon ∉ InteractionAnswerSummariesMRJobManager.sam_state_name
              sample_answers_model.
Proof.
  split; intros H; pose proof (bool_decide_eq_true_2 _ H) as Hb;
    vm_compute in Hb; discriminate.
Qed.

Lemma sample_answers_model_with_colon_holds_one :
  colon ∈ InteractionAnswerSummariesMRJobManager.sam_state_name
            sample_answers_model_with_colon.
Proof.
  destruct (decide
              (colon
               ∈ InteractionAnswerSummariesMRJobManager.sam_state_name
                   sample_answers_model_with_colon)) as [H|H]; [done|].
  pose proof (bool_decide_eq_false_2 _ H) as Hb. vm_compute in Hb.
  discriminate.
Qed.

Lemma map_answers_keys_parse_in_reduce_witness :
  (λ _ : InteractionAnswerSummariesMRJobManager.StateAnswersModel string,
     true) sample_answers_model = true
  ∧ ∃ value1 value2,
      InteractionAnswerSummariesMRJobManager.map (λ _, true)
        sample_answers_model =
      Ok [(("exp1:2:" ++ sample_state_name_bytes)%string, value1);
          (("exp1:all:" ++ sample_state_name_bytes)%string, value2)]
      ∧ InteractionAnswerSummariesMRJobManager.ea_state_name value1 =
        InteractionAnswerSummariesMRJobManager.PyStr sample_state_name_bytes
      ∧ split ":" ("exp1:2:" ++ sample_state_name_bytes)%string =
        ["exp1"; "2"; sample_state_name_bytes]
      ∧ split ":" ("exp1:all:" ++ sample_state_name_bytes)%string =
        ["exp1"; "all"; sample_state_name_bytes].
Proof.
  split; [reflexivity|].
  destruct (map_answers_keys_parse_in_reduce string (λ _, true)
              sample_answers_model eq_refl)
    as (value1 & value2 & Hmap & _ & _ & Hvalues & Hsplit).
  exists value1, value2. split; [exact Hmap|].
  split; [exact (proj1 (proj2 (Forall_inv Hvalues)))|].
  exact (Hsplit (proj1 sample_answers_model_no_colon)
           (proj2 sample_answers_model_no_colon)).
Defined.

Lemma reduce_rejects_answer_keys_with_colon_witness :
  (λ _ : InteractionAnswerSummariesMRJobManager.StateAnswersModel string,
     true) sample_answers_model_with_colon = true
  ∧ (colon ∈ InteractionAnswerSummariesMRJobManager.sam_state_name
               sample_answers_model_with_colon
     ∨ colon ∈ InteractionAnswerSummariesMRJobManager.sam_exploration_id
                 sample_answers_model_with_colon)
  ∧ ∃ pairs,
      InteractionAnswerSummariesMRJobManager.map (λ _, true)
        sample_answers_model_with_colon = Ok pairs
      ∧ (λ kv,
           InteractionAnswerSummariesMRJobManager.reduce
             sample_calculation_ids sample_get_calculation [] kv.1
             sample_answers) <$> pairs =
        [(Raise ValueError, []); (Raise ValueError, [])].
Proof.
  split; [reflexivity|].
  split; [left; exact sample_answers_model_with_colon_holds_one|].
  exact (reduce_rejects_answer_keys_with_colon string nat
           sample_calculation_ids sample_get_calculation (λ _, true)
           sample_answers_model_with_colon [] sample_answers eq_refl
           (or_introl sample_answers_model_with_colon_holds_one)).
Defined.

Lemma reduce_answers_bad_input_witness :
  (length (split ":" "exp1:all:Quiz") ≠ 3%nat
   ∨ ([] : list (InteractionAnswerSummariesMRJobManager.state_answers_dict
                   string)) = [])
  ∧ InteractionAnswerSummariesMRJobManager.reduce sample_calculation_ids
      sample_get_calculation [7%nat] "exp1:all:Quiz" [] =
    (Raise IndexError, [7%nat]).
Proof.
  split; [by right|].
  exact (reduce_answers_bad_input string nat sample_calculation_ids
           sample_get_calculation [7%nat] "exp1:all:Quiz" []
           (or_intror eq_refl)).
Defined.

Lemma reduce_answers_unregistered_witness :
  split ":" "exp1:all:Quiz" = ["exp1"; "all"; "Quiz"]
  ∧ ∃ e,
      InteractionAnswerSummariesMRJobManager.reduce sample_calculation_ids
        sample_get_calculation [7%nat] "exp1:all:Quiz"
        (InteractionAnswerSummariesMRJobManager.Build_state_answers_dict
           string "exp1" "2" "Quiz" "NumericInput" ["c"] :: sample_answers) =
      (Raise e, [7%nat]).
Proof.
  split; [reflexivity|].
  exact (reduce_answers_unregistered string nat sample_calculation_ids
           sample_get_calculation [7%nat] "exp1:all:Quiz" "exp1" "all" "Quiz"
           (InteractionAnswerSummariesMRJobManager.Build_state_answers_dict
              string "exp1" "2" "Quiz" "NumericInput" ["c"])
           sample_answers eq_refl I).
Defined.

Lemma reduce_answers_saves_outputs_in_order_witness :
  split ":" "exp1:all:Quiz" = ["exp1"; "all"; "Quiz"]
  ∧ sample_calculation_ids "TextInput" = Ok ["AnswerCount"]
  ∧ for_each sample_get_calculation ["AnswerCount"] =
    Ok [sample_count_answers]
  ∧ InteractionAnswerSummariesMRJobManager.reduce sample_calculation_ids
      sample_get_calculation [7%nat] "exp1:all:Quiz" sample_answers =
    (Ok (), [7%nat; 3%nat]).
Proof.
  split; [reflexivity|]. split; [reflexivity|]. split; [reflexivity|].
  apply (reduce_answers_saves_outputs_in_order string nat
           sample_calculation_ids sample_get_calculation [7%nat]
           "exp1:all:Quiz" "exp1" "all" "Quiz"
           (InteractionAnswerSummariesMRJobManager.Build_state_answers_dict
              string "exp1" "1" "Quiz" "TextInput" ["a"; "b"])
           [InteractionAnswerSummariesMRJobManager.Build_state_answers_dict
              string "exp1" "2" "Quiz" "NumericInput" ["c"]]
           ["AnswerCount"] [sample_count_answers] [3%nat]
           eq_refl eq_refl eq_refl).
  repeat constructor.
Defined.

Lemma reduce_answers_failing_calculation_witness :
  split ":" "exp1:all:Quiz" = ["exp1"; "all"; "Quiz"]
  ∧ sample_two_calculation_ids "TextInput" =
    Ok ["AnswerCount"; "Broken"; "AnswerCount"]
  ∧ for_each sample_get_two_calculations
      ["AnswerCount"; "Broken"; "AnswerCount"] =
    Ok ([sample_count_answers] ++ sample_broken :: [sample_count_answers])%list
  ∧ InteractionAnswerSummariesMRJobManager.reduce sample_two_calculation_ids
      sample_get_two_calculations [7%nat] "exp1:all:Quiz" sample_answers =
    (Raise CalculationError, [7%nat; 3%nat]).
Proof.
  split; [reflexivity|]. split; [reflexivity|]. split; [reflexivity|].
  apply (reduce_answers_failing_calculation string nat
           sample_two_calculation_ids sample_get_two_calculations [7%nat]
           "exp1:all:Quiz" "exp1" "all" "Quiz"
           (InteractionAnswerSummariesMRJobManager.Build_state_answers_dict
              string "exp1" "1" "Quiz" "TextInput" ["a"; "b"])
           [InteractionAnswerSummariesMRJobManager.Build_state_answers_dict
              string "exp1" "2" "Quiz" "NumericInput" ["c"]]
           ["AnswerCount"; "Broken"; "AnswerCount"]
           [sample_count_answers] sample_broken [sample_count_answers]
           [3%nat] CalculationError eq_refl eq_refl eq_refl).
  - repeat constructor.
  - reflexivity.
Defined.
